(** * Confluence converter: text utilities, table extraction, document assembly

    A shallow embedding of the conversion pipeline of the repository
    (src/confluence_converter/utils.py, src/confluence_converter/conversion.py,
    the page traversal of src/confluence_converter/api.py, and the
    configuration and the export loop of src/converter.py) together with
    the properties the specification states about it.

    Python [str] values are modelled as [string]; one [ascii] stands for one
    code point below 256.  Python [dict]s are [gmap]s, lists are [list]s,
    [len] is a [nat].  A loop is a [fold_left] of its body over the
    sequence it runs through, the locals it updates being the state.

    The first part holds the definitions: the code, then the vocabulary of
    the statements.  The second part holds the lemmas, then one theorem for
    each claim of the specification, then further properties of the code. *)

From Stdlib Require Import Ascii String NArith Lia.
From stdpp Require Import gmap strings list fin_maps pretty sorting.

Local Open Scope nat_scope.

(** ** Characters and Python string primitives *)

Definition NL : ascii := "010"%char.

(** [str.isspace] on one code point (below 256): TAB..CR, FS..US, space,
    NEL and the no-break space.  The regular expression class [\s] of a
    [str] pattern is the same set. *)
Definition isspace (c : ascii) : bool :=
  let n := N_of_ascii c in
  ((9 <=? n) && (n <=? 13) || (28 <=? n) && (n <=? 32) || (n =? 133) || (n =? 160))%N.

(** [lo <= ord(c) <= hi] *)
Definition between (lo hi : N) (c : ascii) : bool :=
  ((lo <=? N_of_ascii c) && (N_of_ascii c <=? hi))%N.

(** [s.lstrip()] *)
Fixpoint lstrip (s : string) : string :=
  match s with
  | EmptyString => EmptyString
  | String c s' => if isspace c then lstrip s' else s
  end.

(** [s.rstrip()] *)
Fixpoint rstrip (s : string) : string :=
  match s with
  | EmptyString => EmptyString
  | String c s' =>
      match rstrip s' with
      | EmptyString => if isspace c then EmptyString else String c EmptyString
      | r => String c r
      end
  end.

(** [s.strip()] *)
Definition strip (s : string) : string := rstrip (lstrip s).

(** [sep.join(l)] *)
Fixpoint join (sep : string) (l : list string) : string :=
  match l with
  | [] => ""
  | x :: xs =>
      match xs with
      | [] => x
      | _ :: _ => x +:+ sep +:+ join sep xs
      end
  end.

(** [s.split(sep)] for a one-character separator: the pieces between the
    separators, empty pieces included. *)
Fixpoint split (sep : ascii) (s : string) : list string :=
  match s with
  | EmptyString => [""]
  | String c s' =>
      if Ascii.eqb c sep then "" :: split sep s'
      else match split sep s' with
           | [] => [String c ""]
           | p :: ps => String c p :: ps
           end
  end.

(** [c in s] for a one-character [c] *)
Fixpoint contains (c : ascii) (s : string) : bool :=
  match s with
  | EmptyString => false
  | String d s' => Ascii.eqb d c || contains c s'
  end.

(** The line boundaries of [str.splitlines] (below 256): LF, VT, FF, CR,
    FS, GS, RS and NEL. *)
Definition is_linebreak (c : ascii) : bool :=
  between 10 13 c || between 28 30 c || (N_of_ascii c =? 133)%N.

Definition CR : ascii := "013"%char.

(** [s.splitlines()].  The result starts with the line being read;
    [after_cr] says that the character before was a CR, whose LF belongs to
    the same boundary.  A boundary at the very end opens no new line. *)
Fixpoint splitlines_go (after_cr : bool) (s : string) : list string :=
  match s with
  | EmptyString => []
  | String c s' =>
      if after_cr && Ascii.eqb c NL then splitlines_go false s'
      else if is_linebreak c then "" :: splitlines_go (Ascii.eqb c CR) s'
      else match splitlines_go false s' with
           | [] => [String c ""]
           | line :: lines => String c line :: lines
           end
  end.

Definition splitlines (s : string) : list string := splitlines_go false s.

(** Truthiness of a Python [str]. *)
Definition nonempty (s : string) : bool :=
  match s with EmptyString => false | String _ _ => true end.

(** ** utils.py: [chunk_sentences] *)

Module Chunker.

(** The three locals of the loop: [chunks], [current], [current_len]. *)
Record state := mk {
  chunks : list string;
  current : list string;
  current_len : nat
}.

Definition init : state := mk [] [] 0.

Definition chunk_text (group : list string) : string :=
  strip (join (String NL "") group).

(** [chunks.append("\n".join(current).strip()); current = []; current_len = 0] *)
Definition flush (st : state) : state :=
  mk (chunks st ++ [chunk_text (current st)]) [] 0.

(** One iteration of [for sentence in sentences]. *)
Definition step (target_chars max_chars : nat) (st : state) (sentence : string) : state :=
  let sentence_len := String.length sentence in
  let st1 :=
    match current st with
    | [] => st
    | _ :: _ =>
        if max_chars <? current_len st + sentence_len + 1 then flush st else st
    end in
  let st2 := mk (chunks st1) (current st1 ++ [sentence])
                (current_len st1 + (sentence_len + 1)) in
  if target_chars <=? current_len st2 then flush st2 else st2.

Definition finish (st : state) : list string :=
  match current st with
  | [] => chunks st
  | _ :: _ => chunks (flush st)
  end.

End Chunker.

Definition chunk_sentences_with (sentences : list string) (target_chars max_chars : nat)
  : list string :=
  Chunker.finish (fold_left (Chunker.step target_chars max_chars) sentences Chunker.init).

Definition TARGET_CHARS : nat := 2000.
Definition MAX_CHARS : nat := 3600.

(** The call with both keyword defaults, as [build_document] makes it. *)
Definition chunk_sentences (sentences : list string) : list string :=
  chunk_sentences_with sentences TARGET_CHARS MAX_CHARS.


(** ** Third-party libraries as interfaces

    [slugify] (python-slugify), [hashlib.sha256], BeautifulSoup's parser and
    [markdownify] are not part of the repository.  The code is embedded over
    these interfaces; nothing is assumed about them unless a statement says
    so. *)

(** [slugify(value, separator=sep)] *)
Class Slugify := slugify : string → string → string.

(** [hashlib.sha256(value.encode("utf-8")).hexdigest()] *)
Class Sha256 := sha256_hexdigest : string → string.

(** [slugify_text]: [slugify(value or "unnamed", separator=separator)] *)
Definition slugify_text `{Slugify} (value : string) (separator : string) : string :=
  slugify (if nonempty value then value else "unnamed") separator.

(** [slugify_path]: ["/".join(slugify_text(part, "-") for part in parts if part)] *)
Definition slugify_path `{Slugify} (parts : list string) : string :=
  join "/" ((λ part, slugify_text part "-") <$> filter (λ part, part ≠ "") parts).

Definition sha256_text `{Sha256} (value : string) : string := sha256_hexdigest value.

(** ** conversion.py: cell values *)

(** A row maps a column key to a [str] or to a list of [str]. *)
Inductive cell_value :=
  | CStr (s : string)
  | CList (parts : list string).

Global Instance cell_value_eq_dec : EqDecision cell_value.
Proof. solve_decision. Defined.

(** [[part.strip() for part in value.split(sep) if part.strip()]] *)
Definition split_parts (sep : ascii) (value : string) : list string :=
  strip <$> filter (λ part, strip part ≠ "") (split sep value).

(** One of the two blocks of [_maybe_split_list]:
    [if sep in value: parts = ...; if len(parts) > 1: return parts]. *)
Definition split_on (sep : ascii) (value : string) : option (list string) :=
  if contains sep value then
    let parts := split_parts sep value in
    if 1 <? length parts then Some parts else None
  else None.

Definition _maybe_split_list (value : cell_value) : cell_value :=
  match value with
  | CList _ => value
  | CStr v =>
      match split_on ";" v with
      | Some parts => CList parts
      | None =>
          match split_on "," v with
          | Some parts => CList parts
          | None => CStr v
          end
      end
  end.

(** ** The parsed document tree

    A BeautifulSoup tree: strings and tags.  [Text] is a [NavigableString];
    [Special kind s] is a string of one of its subclasses, which the parser
    chooses when it creates the string and which stays with it: [CData],
    [Comment], [Doctype], [Declaration], [ProcessingInstruction], and
    [Script], [Stylesheet], [TemplateString], [RubyTextString],
    [RubyParenthesisString] for what is written inside [script], [style],
    [template], [rt] and [rp].  [tag_id] stands for the identity of the
    Python object; the parser gives every tag of one document its own. *)
#[warnings="-register-all"]
Inductive node :=
  | Text (s : string)
  | Special (kind : string) (s : string)
  | Elem (tag_id : nat) (name : string) (children : list node).

Definition children_of (n : node) : list node :=
  match n with Text _ | Special _ _ => [] | Elem _ _ cs => cs end.

(** The node and everything below it, in document order. *)
Fixpoint self_and_descendants (n : node) : list node :=
  n :: match n with
       | Text _ | Special _ _ => []
       | Elem _ _ cs => flat_map self_and_descendants cs
       end.

Definition descendants (n : node) : list node :=
  flat_map self_and_descendants (children_of n).

Definition is_tag (names : list string) (n : node) : bool :=
  match n with
  | Text _ | Special _ _ => false
  | Elem _ nm _ => bool_decide (nm ∈ names)
  end.

(** [tag.find_all(names)]: the tags below [tag] with one of the names, in
    document order. *)
Definition find_all (names : list string) (n : node) : list node :=
  List.filter (is_tag names) (descendants n).

(** [tag.find(name)] *)
Definition find (name : string) (n : node) : option node :=
  head (find_all [name] n).

(** [tag.interesting_string_types], by the class names: the tags that hold
    strings of a class of their own read that class, every other tag reads
    [NavigableString] and [CData]; [None] stands for [NavigableString]. *)
Definition interesting_string_types (n : node) : list (option string) :=
  match n with
  | Elem _ "rt" _ => [Some "RubyTextString"]
  | Elem _ "rp" _ => [Some "RubyParenthesisString"]
  | Elem _ "style" _ => [Some "Stylesheet"]
  | Elem _ "script" _ => [Some "Script"]
  | Elem _ "template" _ => [Some "TemplateString"]
  | _ => [None; Some "CData"]
  end.

(** [tag.get_text(sep, strip=True)]: the strings below the tag whose class
    is one of its interesting ones, stripped, the empty ones dropped,
    joined with [sep]. *)
Definition get_text (sep : string) (n : node) : string :=
  let types := interesting_string_types n in
  let texts :=
    flat_map (λ d, match d with
                   | Text s => if decide (None ∈ types) then [s] else []
                   | Special kind s => if decide (Some kind ∈ types) then [s] else []
                   | Elem _ _ _ => []
                   end)
             (self_and_descendants n) in
  join sep (filter (λ s, s ≠ "") (strip <$> texts)).

(** [x.extract()] for the first node below [n] that satisfies [p]: the
    tree without it, and whether one was found. *)
Fixpoint remove_first (p : node → bool) (n : node) : node * bool :=
  match n with
  | Text _ | Special _ _ => (n, false)
  | Elem i nm cs =>
      let fix go (l : list node) : list node * bool :=
        match l with
        | [] => ([], false)
        | c :: l' =>
            if p c then (l', true)
            else let (c', hit) := remove_first p c in
                 if hit then (c' :: l', true)
                 else let (l'', hit') := go l' in (c :: l'', hit')
        end in
      let (cs', hit) := go cs in (Elem i nm cs', hit)
  end.

(** ** conversion.py: [_extract_table] *)

Record Table := mkTable {
  columns : list string;
  display_columns : list string;
  rows : list (gmap string cell_value)
}.

Global Instance Table_eq_dec : EqDecision Table.
Proof. solve_decision. Defined.

Module Extract.

(** [headers] and [display_headers], which grow together. *)
Record names := mkNames {
  headers : list string;
  display_headers : list string
}.

Definition add_name `{Slugify} (text : string) (nm : names) : names :=
  mkNames (headers nm ++ [slugify_text text "-"]) (display_headers nm ++ [text]).

(** [f"Column {len(headers)+1}"] *)
Definition fallback_name (nm : names) : string :=
  "Column " +:+ pretty (length (headers nm) + 1).

(** The body of [for cell in header_cells]. *)
Definition header_step `{Slugify} (nm : names) (cell : node) : names :=
  let text := get_text " " cell in
  add_name (if nonempty text then text else fallback_name nm) nm.

(** [while idx >= len(headers)]: each round adds one name, so the loop
    runs [idx + 1 - len(headers)] times. *)
Definition pad `{Slugify} (idx : nat) (nm : names) : names :=
  Nat.iter (idx + 1 - length (headers nm)) (λ nm', add_name (fallback_name nm') nm') nm.

(** The body of [for idx, cell in enumerate(cells)]. *)
Definition cell_step `{Slugify} (st : names * gmap string cell_value) (ic : nat * node)
  : names * gmap string cell_value :=
  let '(nm, row_data) := st in
  let '(idx, cell) := ic in
  let nm' := pad idx nm in
  let key := nth idx (headers nm') "" in
  let value := _maybe_split_list (CStr (get_text " " cell)) in
  (nm', <[key := value]> row_data).

(** The body of [for row in table.find_all("tr")]. *)
Definition row_step `{Slugify} (st : names * list (gmap string cell_value)) (row : node)
  : names * list (gmap string cell_value) :=
  let '(nm, body_rows) := st in
  let cells := find_all ["td"; "th"] row in
  match cells with
  | [] => st
  | _ :: _ =>
      let '(nm', row_data) :=
        fold_left cell_step (combine (seq 0 (length cells)) cells) (nm, ∅) in
      if decide (row_data = ∅) then (nm', body_rows)
      else (nm', body_rows ++ [row_data])
  end.

(** The header cells, the table after [first_row.extract()], and the
    extracted row if there is one. *)
Definition header_cells (table : node) : list node * node * option node :=
  match find_all ["th"] table with
  | (_ :: _) as cells => (cells, table, None)
  | [] =>
      match find "tr" table with
      | None => ([], table, None)
      | Some first_row =>
          match find_all ["td"] first_row with
          | [] => ([], table, None)
          | (_ :: _) as cells =>
              (cells, fst (remove_first (is_tag ["tr"]) table), Some first_row)
          end
      end
  end.

End Extract.

(** The returned dict, and what the call leaves behind: the table as
    mutated and the row taken out of it. *)
Record extracted := mkExtracted {
  table_data : Table;
  table_after : node;
  detached_row : option node
}.

Definition _extract_table `{Slugify} (table : node) : extracted :=
  let '(cells, table', detached) := Extract.header_cells table in
  let nm := fold_left Extract.header_step cells (Extract.mkNames [] []) in
  let '(nm', body_rows) :=
    fold_left Extract.row_step (find_all ["tr"] table') (nm, []) in
  mkExtracted (mkTable (Extract.headers nm') (Extract.display_headers nm') body_rows)
              table' detached.

(** Modelled from the spec: python-slugify is a third-party package; on
    ASCII text the spec describes it as lowercase, every run of
    non-alphanumeric characters replaced by the separator, leading and
    trailing separators trimmed.  Used for the concrete examples only. *)
Module AsciiSlug.

Definition is_upper (c : ascii) : bool := between 65 90 c.
Definition is_alnum (c : ascii) : bool :=
  between 48 57 c || between 65 90 c || between 97 122 c.
Definition lower (c : ascii) : ascii :=
  if is_upper c then ascii_of_N (N_of_ascii c + 32) else c.

(** [started]: a character was emitted; [gap]: a run of other characters
    was skipped since. *)
Fixpoint go (sep : string) (started gap : bool) (s : string) : string :=
  match s with
  | EmptyString => EmptyString
  | String c s' =>
      if is_alnum c then
        (if started && gap then sep else "") +:+ String (lower c) (go sep true false s')
      else go sep started true s'
  end.

Definition slug : Slugify := λ value sep, go sep false false value.

End AsciiSlug.

(** ** The regular expressions of the code

    A backtracking matcher for the constructs the patterns of the
    repository use: character classes, greedy bounded repetition of a class,
    and one-character lookbehind and lookahead. *)
Module Re.

Inductive atom :=
  | Class (p : ascii → bool)
  | Many (lo : nat) (hi : option nat) (p : ascii → bool)
  | Behind (p : ascii → bool)
  | Ahead (p : ascii → bool).

Definition regex := list atom.

(** [p{lo,hi}] followed by the continuation [k]: the longest run first,
    then shorter ones.  [prev] is the character before the position. *)
Fixpoint many (p : ascii → bool) (k : option ascii → string → option string)
    (lo : nat) (hi : option nat) (prev : option ascii) (s : string) : option string :=
  let stop := match lo with 0 => k prev s | S _ => None end in
  match s with
  | EmptyString => stop
  | String c s' =>
      if p c && negb (bool_decide (hi = Some 0)) then
        match many p k (pred lo) (pred <$> hi) (Some c) s' with
        | Some rest => Some rest
        | None => stop
        end
      else stop
  end.

(** A match of [re] that starts at the head of [s]: what follows it. *)
Fixpoint match_here (re : regex) (prev : option ascii) (s : string) : option string :=
  match re with
  | [] => Some s
  | a :: re' =>
      match a with
      | Class p =>
          match s with
          | String c s' => if p c then match_here re' (Some c) s' else None
          | EmptyString => None
          end
      | Many lo hi p => many p (match_here re') lo hi prev s
      | Behind p =>
          match prev with
          | Some c => if p c then match_here re' prev s else None
          | None => None
          end
      | Ahead p =>
          match s with
          | String c _ => if p c then match_here re' prev s else None
          | EmptyString => None
          end
      end
  end.

(** [re.match(s)] as a truth value. *)
Definition matches (re : regex) (s : string) : bool :=
  match match_here re None s with Some _ => true | None => false end.

(** [re.split(s)] for a pattern whose matches are never empty: scan for the
    leftmost match, close the piece there, skip the match ([skip] counts
    the characters of it still ahead), go on.  The result starts with the
    piece being read. *)
Fixpoint split_go (re : regex) (skip : nat) (prev : option ascii) (s : string)
  : list string :=
  match s with
  | EmptyString => [""]
  | String c s' =>
      let keep :=
        match split_go re 0 (Some c) s' with
        | [] => [String c ""]
        | piece :: pieces => String c piece :: pieces
        end in
      match skip with
      | S n => split_go re n (Some c) s'
      | 0 =>
          match match_here re prev s with
          | Some rest =>
              match String.length s - String.length rest with
              | S n => "" :: split_go re n (Some c) s'
              | 0 => keep
              end
          | None => keep
          end
      end
  end.

Definition split (re : regex) (s : string) : list string := split_go re 0 None s.

End Re.

(** ** utils.py: [split_into_sentences] *)

Definition is_digit (c : ascii) : bool := between 48 57 c.
Definition is_upper_or_digit (c : ascii) : bool := between 65 90 c || between 48 57 c.
Definition is_terminator (c : ascii) : bool :=
  bool_decide (c ∈ ["."; "!"; "?"]%char).

(** [re.compile(r"(?<=[.!?])\s+(?=[A-Z0-9])")] *)
Definition _sentence_splitter : Re.regex :=
  [Re.Behind is_terminator; Re.Many 1 None isspace; Re.Ahead is_upper_or_digit].

(** [r"^\d+\."], used with [re.match] *)
Definition numbered_line : Re.regex :=
  [Re.Many 1 None is_digit; Re.Class (Ascii.eqb ".")].

(** [line.startswith(("-", "*", "+", ">"))] *)
Definition starts_with_bullet (line : string) : bool :=
  match line with
  | EmptyString => false
  | String c _ => bool_decide (c ∈ ["-"; "*"; "+"; ">"]%char)
  end.

(** The body of [for raw_line in text.strip().splitlines()]. *)
Definition sentence_step (lines : list string) (raw_line : string) : list string :=
  let line := strip raw_line in
  if negb (nonempty line) then lines
  else if starts_with_bullet line || Re.matches numbered_line line then lines ++ [line]
  else
    let sentences :=
      strip <$> filter (λ segment, strip segment ≠ "") (Re.split _sentence_splitter line) in
    match sentences with
    | [] => lines ++ [line]
    | _ :: _ => lines ++ sentences
    end.

Definition split_into_sentences (text : string) : list string :=
  if negb (nonempty text) then []
  else fold_left sentence_step (splitlines (strip text)) [].

(** ** conversion.py: sections *)

Module Sec.

(** The dataclass [Section].  [table_json = None] is Python's [None]. *)
Record t := mk {
  id : string;
  title : string;
  body_md : string;
  anchors : list string;
  table_json : option (list Table)
}.

End Sec.

(** The heading pattern of [_split_sections], one to three hashes and
    whitespace, up to its second group. *)
Definition heading_pattern : Re.regex :=
  [Re.Many 1 (Some 3) (Ascii.eqb "#"); Re.Many 1 None isspace].

(** What the second group (any characters, greedy) takes: everything up
    to a newline. *)
Fixpoint until_newline (s : string) : string :=
  match s with
  | EmptyString => EmptyString
  | String c s' => if Ascii.eqb c NL then EmptyString else String c (until_newline s')
  end.

(** [heading_pattern.match(line)], giving [match.group(2)]. *)
Definition heading_match (line : string) : option string :=
  until_newline <$> Re.match_here heading_pattern None line.

Module Segmenter.

(** [sections], [current_title], [current_lines] *)
Record state := mk {
  sections : list Sec.t;
  current_title : string;
  current_lines : list string
}.

(** The closure [flush_section(title, lines)], which appends to [sections]. *)
Definition flush_section `{Slugify} (sections : list Sec.t) (title : string)
    (lines : list string) : list Sec.t :=
  let body := strip (join (String NL "") lines) in
  let slug := slugify_text title "-" in
  let shown := if nonempty (strip title) then strip title else "Untitled Section" in
  sections ++ [Sec.mk slug shown body [slug] None].

(** The body of [for line in markdown.splitlines()]. *)
Definition step `{Slugify} (st : state) (line : string) : state :=
  match heading_match line with
  | Some group2 =>
      let sections' :=
        match current_lines st with
        | [] => sections st
        | _ :: _ => flush_section (sections st) (current_title st) (current_lines st)
        end in
      let heading := strip group2 in
      mk sections' (if nonempty heading then heading else "Untitled Section") []
  | None => mk (sections st) (current_title st) (current_lines st ++ [line])
  end.

End Segmenter.

Definition _split_sections `{Slugify} (markdown : string) : list Sec.t :=
  if negb (nonempty (strip markdown)) then
    [Sec.mk "overview" "Overview" "" ["overview"] None]
  else
    let st := fold_left Segmenter.step (splitlines markdown)
                        (Segmenter.mk [] "Overview" []) in
    Segmenter.flush_section (Segmenter.sections st) (Segmenter.current_title st)
                            (Segmenter.current_lines st).

(** ** conversion.py: [_clean_html] and [_html_to_markdown] *)

(** [BeautifulSoup(html, "html.parser")]: the document as one root tag. *)
Class HtmlParser := html_parser : string → node.

(** [md(str(soup), heading_style="ATX", convert=["table", "ol", "ul"])] *)
Class Markdownify := markdownify : node → string.

(** [for tag in soup(names): tag.decompose()] *)
Fixpoint decompose_tags (names : list string) (n : node) : node :=
  match n with
  | Text _ | Special _ _ => n
  | Elem i nm cs =>
      Elem i nm (flat_map (λ c, if is_tag names c then [] else [decompose_tags names c]) cs)
  end.

(** [":" in t.name] *)
Definition is_macro (n : node) : bool :=
  match n with
  | Text _ | Special _ _ => false
  | Elem _ nm _ => contains ":" nm
  end.

(** The macro loop: a tag with a namespaced name gives way to its visible
    text, or goes when it has none. *)
Fixpoint flatten_macros (n : node) : node :=
  match n with
  | Text _ | Special _ _ => n
  | Elem i nm cs =>
      Elem i nm
        (flat_map (λ c,
           if is_macro c then
             let text := get_text " " c in
             if nonempty text then [Text text] else []
           else [flatten_macros c]) cs)
  end.

(** [for tag in soup.find_all(names): tag.unwrap()] *)
Fixpoint unwrap_tags (names : list string) (n : node) : node :=
  match n with
  | Text _ | Special _ _ => n
  | Elem i nm cs =>
      Elem i nm
        (flat_map (λ c,
           let c' := unwrap_tags names c in
           if is_tag names c then children_of c' else [c']) cs)
  end.

Definition _clean_html `{HtmlParser} (html : string) : node :=
  let soup := html_parser html in
  let soup := decompose_tags ["script"; "style"] soup in
  let soup := flatten_macros soup in
  unwrap_tags ["span"; "div"] soup.

(** [re.sub(r"\n{3,}", "\n\n", markdown)]; [run] counts the newlines of the
    run being read. *)
Fixpoint collapse_newlines_go (run : nat) (s : string) : string :=
  let emit := string_of_list_ascii (replicate (if 3 <=? run then 2 else run) NL) in
  match s with
  | EmptyString => emit
  | String c s' =>
      if Ascii.eqb c NL then collapse_newlines_go (S run) s'
      else emit +:+ String c (collapse_newlines_go 0 s')
  end.

Definition _html_to_markdown `{Markdownify} (soup : node) : string :=
  strip (collapse_newlines_go 0 (markdownify soup)).

(** ** conversion.py: [_map_tables_to_sections] *)

Definition HEADING_TAGS : list string := ["h1"; "h2"; "h3"].

Definition has_id (i : nat) (n : node) : bool :=
  match n with
  | Text _ | Special _ _ => false
  | Elem j _ _ => bool_decide (j = i)
  end.

(** The tag with identity [i] put in place of by [new]. *)
Fixpoint replace_id (i : nat) (new : node) (n : node) : node :=
  match n with
  | Text _ | Special _ _ => n
  | Elem j nm cs => if bool_decide (j = i) then new else Elem j nm (map (replace_id i new) cs)
  end.

(** The tree of the store that holds the tag [i], and the tag as it is now. *)
Definition locate (i : nat) (store : list node) : option (node * node) :=
  head (flat_map (λ root,
          match List.find (has_id i) (self_and_descendants root) with
          | Some n => [(root, n)]
          | None => []
          end) store).

(** The elements of [l] before the first one that satisfies [p]. *)
Fixpoint elements_before (p : node → bool) (l : list node) : list node :=
  match l with
  | [] => []
  | n :: l' => if p n then [] else n :: elements_before p l'
  end.

(** [tag.find_previous(names)]: the last tag with one of the names among
    the elements that come before the tag [i] in its tree. *)
Definition find_previous (names : list string) (i : nat) (root : node) : option node :=
  last (List.filter (is_tag names)
          (elements_before (has_id i) (self_and_descendants root))).

(** The body of [for table in soup.find_all("table")].  The store holds
    the document and the rows taken out of it so far. *)
Definition table_step `{Slugify} (st : list node * gmap string (list Table)) (t : node)
  : list node * gmap string (list Table) :=
  let '(store, mapping) := st in
  match t with
  | Text _ | Special _ _ => st
  | Elem i _ _ =>
      match locate i store with
      | None => st
      | Some (root, table) =>
          let section_id :=
            match find_previous HEADING_TAGS i root with
            | Some heading =>
                let text := get_text "" heading in
                if nonempty text then slugify_text text "-" else "overview"
            | None => "overview"
            end in
          let out := _extract_table table in
          let store' := map (replace_id i (table_after out)) store
                        ++ option_list (detached_row out) in
          (store', <[section_id := default [] (mapping !! section_id) ++ [table_data out]]> mapping)
      end
  end.

Definition _map_tables_to_sections `{Slugify} (soup : node) : gmap string (list Table) :=
  (fold_left table_step (find_all ["table"] soup) ([soup], ∅)).2.

(** ** conversion.py: [build_document] and [convert_page] *)

(** The page record of the REST API.  A field is [None] when its key is
    absent (or, where the code writes [or], when its value is falsy). *)
Module Page.

Record version := mkVersion {
  number : option string;     (* [str()] of the number *)
  when : option string
}.

Record storage := mkStorage { value : option string }.
Record body := mkBody { body_storage : option storage }.
Record links := mkLinks { webui : option string }.

Record t := mk {
  id : option string;         (* [str()] of the id, when the key is there *)
  title : option string;
  page_version : option version;
  ancestors : list (option string);   (* the title of each ancestor *)
  page_links : option links;
  page_body : option body
}.

End Page.

Module Chunk.

Record t := mk {
  chunk_id : string;
  section_id : string;
  rank : nat;
  text : string;
  keywords : list string;
  anchors : list string;
  text_hash : string
}.

End Chunk.

(** The document dict.  The fields that are literal constants in the code
    (language, status, product, audience, domain, summary, owners,
    applicability, compliance, related) carry no information and are left
    out. *)
Module Doc.

Record t := mk {
  id : string;
  slug : string;
  title : string;
  version : string;
  tags : list string;
  source_space : string;
  source_page_id : string;
  canonical_url : option string;
  imported_at : string;
  history_version : string;
  history_changed_at : string;
  sections : list Sec.t;       (* the payloads; [table_json = None]: key left out *)
  chunks : list Chunk.t
}.

End Doc.

(** [c.lower()] on one code point below 256 *)
Definition lower_char (c : ascii) : ascii :=
  if between 65 90 c || (between 192 222 c && negb (N_of_ascii c =? 215)%N)
  then ascii_of_N (N_of_ascii c + 32) else c.

Fixpoint map_chars (f : ascii → ascii) (s : string) : string :=
  match s with
  | EmptyString => EmptyString
  | String c s' => String (f c) (map_chars f s')
  end.

(** [s.lower()] *)
Definition lower (s : string) : string := map_chars lower_char s.

(** [s.replace(a, b)] for one-character [a] and [b] *)
Definition replace_char (a b : ascii) (s : string) : string :=
  map_chars (λ c, if Ascii.eqb c a then b else c) s.

(** [s[-n:]] *)
Definition last_chars (n : nat) (s : string) : string :=
  substring (String.length s - n) n s.

(** [s.rjust(width, fill)] *)
Definition rjust (width : nat) (fill : ascii) (s : string) : string :=
  string_of_list_ascii (replicate (width - String.length s) fill) +:+ s.

(** [sorted(keywords)] of a set of strings: by code points. *)
Definition sorted (keywords : gset string) : list string :=
  merge_sort String.le (elements keywords).

Module Assemble.

(** [chunks], [chunk_index] and the document-wide [rank]. *)
Record state := mk {
  chunks : list Chunk.t;
  chunk_index : gmap string string;
  rank : nat
}.

(** The body of [for idx, chunk_text in enumerate(chunk_sentences(sentences))];
    [idx] is not used. *)
Definition emit `{Sha256} (doc_id : string) (section : Sec.t) (keywords : gset string)
    (st : state) (chunk_text : string) : state :=
  let chunk_id := doc_id +:+ "::" +:+ Sec.id section +:+ "#" +:+ pretty (rank st) in
  let text_hash := sha256_text chunk_text in
  let chunk_payload :=
    Chunk.mk chunk_id (Sec.id section) (rank st) chunk_text (sorted keywords)
             (Sec.anchors section) text_hash in
  mk (chunks st ++ [chunk_payload]) (<[chunk_id := text_hash]> (chunk_index st))
     (rank st + 1).

(** The body of the last [for section in sections]. *)
Definition section_step `{Slugify} `{Sha256} (doc_id : string) (doc_keywords : gset string)
    (st : state) (section : Sec.t) : state :=
  let keywords :=
    doc_keywords ∪ {[ slugify_text (Sec.title section) "-" ]}
                 ∪ {[ "sandbox"; "production" ]} in
  if negb (nonempty (strip (Sec.body_md section))) then st
  else
    let sentences := split_into_sentences (Sec.body_md section) in
    fold_left (emit doc_id section keywords) (chunk_sentences sentences) st.

(** [tables = table_mapping.get(section.id); if tables: section.table_json = tables] *)
Definition attach_tables (table_mapping : gmap string (list Table)) (section : Sec.t)
  : Sec.t :=
  match table_mapping !! Sec.id section with
  | Some ((_ :: _) as tables) =>
      Sec.mk (Sec.id section) (Sec.title section) (Sec.body_md section)
             (Sec.anchors section) (Some tables)
  | _ => section
  end.

(** The payload dict of a section: [table_json] only when it is truthy. *)
Definition payload (section : Sec.t) : Sec.t :=
  match Sec.table_json section with
  | Some [] =>
      Sec.mk (Sec.id section) (Sec.title section) (Sec.body_md section)
             (Sec.anchors section) None
  | _ => section
  end.

End Assemble.

(** [imported_at] is the reading of the clock, [dt.datetime.now(...).isoformat()];
    [markdown] is not used by the function. *)
Definition build_document `{Slugify} `{Sha256} (page : Page.t) (markdown : string)
    (sections : list Sec.t) (table_mapping : gmap string (list Table))
    (space base_url imported_at : string)
  : Doc.t * list Chunk.t * gmap string string :=
  let page_id := default "None" (Page.id page) in
  let title := default "Untitled Page" (Page.title page) in
  let version_number :=
    default "1" (Page.page_version page ≫= Page.number) in
  let version_when := Page.page_version page ≫= Page.when in
  let ancestor_titles := default "" <$> Page.ancestors page in
  let slug_parts := ancestor_titles ++ [title] in
  let slug := slugify_path slug_parts in
  let last4 := rjust 4 "0" (last_chars 4 page_id) in
  let doc_id := space +:+ "-" +:+ replace_char "/" "-" slug +:+ "-" +:+ last4 in
  let webui := Page.page_links page ≫= Page.webui in
  let canonical_url :=
    match webui with
    | Some (String _ _ as w) => Some (base_url +:+ w)
    | _ => None
    end in
  let sections := Assemble.attach_tables table_mapping <$> sections in
  let sections_payload := Assemble.payload <$> sections in
  let changed_at :=
    match version_when with
    | Some (String _ _ as w) => w
    | _ => imported_at
    end in
  let doc_keywords : gset string := {[ slugify_text title "-"; lower space; space ]} in
  let st := fold_left (Assemble.section_step doc_id doc_keywords) sections
                      (Assemble.mk [] ∅ 0) in
  let doc :=
    Doc.mk doc_id slug title version_number [slugify_text title "-"; space]
           space page_id canonical_url imported_at version_number changed_at
           sections_payload (Assemble.chunks st) in
  (doc, Assemble.chunks st, Assemble.chunk_index st).

(** [page.get("body", {}).get("storage", {}).get("value", "") or ""] *)
Definition body_html (page : Page.t) : string :=
  match Page.page_body page with
  | None => ""
  | Some body =>
      match Page.body_storage body with
      | None => ""
      | Some storage => default "" (Page.value storage)
      end
  end.

Definition convert_page `{Slugify} `{Sha256} `{HtmlParser} `{Markdownify}
    (page : Page.t) (space base_url imported_at : string)
  : Doc.t * list Chunk.t * gmap string string :=
  let body := body_html page in
  let soup := _clean_html body in
  let markdown := _html_to_markdown soup in
  let sections := _split_sections markdown in
  let table_mapping := _map_tables_to_sections soup in
  build_document page markdown sections table_mapping space base_url imported_at.

(** ** converter.py: the index diff of [main] *)

(** [sum(1 for cid, thash in chunk_index.items() if previous_index.get(cid) != thash)] *)
Definition changed_chunks (previous_index chunk_index : gmap string string) : nat :=
  length (filter (λ item, previous_index !! item.1 ≠ Some item.2) (map_to_list chunk_index)).

(** [len(set(previous_index.keys()) - set(chunk_index.keys()))] *)
Definition removed_chunks (previous_index chunk_index : gmap string string) : nat :=
  size (dom previous_index ∖ dom chunk_index).

(** ** api.py: [traverse_descendants] *)

(** [fetch_children_ids(page_id)]: the ids the server lists as children of
    the page, [None] when a request fails ([raise_for_status]). *)
Class ChildPages := fetch_children_ids : string → option (list string).

Module Traverse.

(** How a run of the generator, read to its end, turns out: the ids it
    yielded, an HTTP error raised by a request, or the loop still running
    when the fuel of the model is spent. *)
Inductive outcome :=
  | Yielded (ids : list string)
  | Raised
  | OutOfFuel.

(** [queue], [seen], and the ids yielded so far. *)
Record state := mk {
  queue : list string;
  seen : gset string;
  yielded : list string
}.

(** The body of [for child_id in self.fetch_children_ids(current)]. *)
Definition visit (st : state) (child_id : string) : state :=
  if decide (child_id ∈ seen st) then st
  else mk (queue st ++ [child_id]) ({[ child_id ]} ∪ seen st) (yielded st ++ [child_id]).

(** [while queue:], one round for every unit of fuel. *)
Fixpoint loop `{ChildPages} (fuel : nat) (st : state) : outcome :=
  match queue st with
  | [] => Yielded (yielded st)
  | current :: rest =>
      match fuel with
      | 0 => OutOfFuel
      | S fuel' =>
          match fetch_children_ids current with
          | None => Raised
          | Some children =>
              loop fuel' (fold_left visit children (mk rest (seen st) (yielded st)))
          end
      end
  end.

End Traverse.

Definition traverse_descendants `{ChildPages} (fuel : nat) (root_id : string)
    (include_children : bool) : Traverse.outcome :=
  if include_children then
    Traverse.loop fuel (Traverse.mk [root_id] {[ root_id ]} [root_id])
  else Traverse.Yielded [root_id].
(** ** converter.py: [env_or_default] *)

(** [os.getenv(name)] once [.env] is loaded: [None] when the variable is
    not set. *)
Class Environ := getenv : string → option string.

(** [distutils.util.strtobool]: [None] when it raises [ValueError]. *)
Class Strtobool := strtobool : string → option bool.

(** The namespace of [parse_args]: every option defaults to [None]. *)
Module Args.

Record t := mk {
  base_url : option string;
  email : option string;
  api_token : option string;
  space : option string;
  root_page_id : option string;
  include_children : option bool
}.

End Args.

(** The dict that [env_or_default] returns. *)
Module Settings.

Record t := mk {
  base_url : string;
  email : string;
  api_token : string;
  space : string;
  root_page_id : string;
  include_children : bool
}.

End Settings.

Inductive configured :=
  | Config (settings : Settings.t)
  | InvalidTruthValue                    (* the [ValueError] of [strtobool] *)
  | MissingKeys (missing : list string). (* the [ValueError] of the function *)

(** [arg or os.getenv(name)] *)
Definition arg_or_env `{Environ} (arg : option string) (name : string) : option string :=
  match arg with
  | Some (String _ _ as value) => Some value
  | _ => getenv name
  end.

(** [value in (None, "")] *)
Definition is_missing (value : option string) : bool :=
  match value with
  | None | Some EmptyString => true
  | Some (String _ _) => false
  end.

(** The five string entries of [config], in the order of the dict; the
    sixth, [include_children], is a [bool] and never counts as missing.
    When nothing is missing every entry holds a string, so the defaults
    of the returned record are never used. *)
Definition env_or_default `{Environ} `{Strtobool} (args : Args.t) : configured :=
  let include_children_env := default "true" (getenv "INCLUDE_CHILDREN") in
  let include_children :=
    match Args.include_children args with
    | Some flag => Some flag
    | None => strtobool include_children_env
    end in
  match include_children with
  | None => InvalidTruthValue
  | Some include_children =>
      let base_url := arg_or_env (Args.base_url args) "CONF_BASE_URL" in
      let email := arg_or_env (Args.email args) "CONF_EMAIL" in
      let api_token := arg_or_env (Args.api_token args) "CONF_API_TOKEN" in
      let space := arg_or_env (Args.space args) "CONF_SPACE" in
      let root_page_id := arg_or_env (Args.root_page_id args) "CONF_ROOT_PAGE_ID" in
      let config :=
        [("base_url", base_url); ("email", email); ("api_token", api_token);
         ("space", space); ("root_page_id", root_page_id)] in
      let missing := (filter (λ item, is_missing item.2 = true) config).*1 in
      match missing with
      | [] =>
          Config (Settings.mk (default "" base_url) (default "" email)
                              (default "" api_token) (default "" space)
                              (default "" root_page_id) include_children)
      | _ :: _ => MissingKeys missing
      end
  end.

(** ** converter.py: [main] *)

(** [client.fetch_page]: [None] when the request raises [HTTPError]. *)
Class FetchPage := fetch_page : string → option Page.t.

(** The clock: [now n] is the reading of the [n]-th document converted. *)
Class Clock := now : nat → string.

(** [pathlib] on POSIX: what [str(Path(a) / b / c)] is. *)
Module PosixPath.

Definition ends_with_slash (p : string) : bool :=
  match rev (list_ascii_of_string p) with
  | c :: _ => Ascii.eqb c "/"
  | [] => false
  end.

(** One round of [posixpath.join]: a segment that starts with a slash
    replaces what came before. *)
Definition join_segment (path b : string) : string :=
  match b with
  | String "/" _ => b
  | _ => if negb (nonempty path) || ends_with_slash path then path +:+ b
         else path +:+ "/" +:+ b
  end.

(** [posixpath.splitroot]: the root (no slash, one, or exactly two) and
    what follows it. *)
Definition splitroot (p : string) : string * string :=
  match p with
  | String "/" (String "/" (String "/" _ as rest)) => ("/", String "/" rest)
  | String "/" (String "/" rest) => ("//", rest)
  | String "/" rest => ("/", rest)
  | _ => ("", p)
  end.

(** [str(PurePosixPath(p))]: the root, then the components that are neither
    empty nor a dot with one slash between them; a dot when nothing is
    left. *)
Definition normalise (p : string) : string :=
  let '(root, rel) := splitroot p in
  let parts := filter (λ x, x ≠ "" ∧ x ≠ ".") (split "/" rel) in
  match root, parts with
  | EmptyString, [] => "."
  | _, _ => root +:+ join "/" parts
  end.

(** [str(Path(first) / b1 / b2 ...)] *)
Definition joinpath (first : string) (segments : list string) : string :=
  normalise (fold_left join_segment segments first).

End PosixPath.

Module Batch.

(** [str(DOCS_DIR / (slug + ".json"))] with [DOCS_DIR = Path("out") / "docs"]:
    the path that [open] is given. *)
Definition doc_path (slug : string) : string :=
  PosixPath.joinpath "out" ["docs"; slug +:+ ".json"].

(** The document files written, by the path that [open] was given, with
    [all_chunks], [chunk_index] and [processed_docs].  Creating the
    directories and opening the file are taken to succeed. *)
Record state := mk {
  docs : gmap string Doc.t;
  all_chunks : list Chunk.t;
  chunk_index : gmap string string;
  processed_docs : nat
}.

Definition init : state := mk ∅ [] ∅ 0.

(** The body of [for page_id in page_ids]. *)
Definition step `{Slugify} `{Sha256} `{HtmlParser} `{Markdownify} `{FetchPage} `{Clock}
    (space base_url : string) (st : state) (page_id : string) : state :=
  match fetch_page page_id with
  | None => st
  | Some page =>
      let '(doc, chunks, chunk_map) :=
        convert_page page space base_url (now (processed_docs st)) in
      mk (<[doc_path (Doc.slug doc) := doc]> (docs st))
         (all_chunks st ++ chunks)
         (chunk_map ∪ chunk_index st)
         (processed_docs st + 1)
  end.

(** What a run leaves behind and reports. *)
Inductive outcome :=
  | ConfigError                          (* [return 1] *)
  | Uncaught                             (* [HTTPError] out of the traversal *)
  | OutOfFuel
  | NoDocuments                          (* [return 0], nothing written *)
  | Exported (docs : gmap string Doc.t) (chunks_file : list Chunk.t)
             (state_file : gmap string string) (total changed removed : nat).

End Batch.

(** [main] from the configuration on; [previous_index] is what
    [load_json(STATE_FILE)] reads, the empty dict when the file is not
    there. *)
Definition main `{Slugify} `{Sha256} `{HtmlParser} `{Markdownify}
    `{Environ} `{Strtobool} `{ChildPages} `{FetchPage} `{Clock}
    (fuel : nat) (args : Args.t) (previous_index : gmap string string) : Batch.outcome :=
  match env_or_default args with
  | InvalidTruthValue | MissingKeys _ => Batch.ConfigError
  | Config settings =>
      match traverse_descendants fuel (Settings.root_page_id settings)
                                 (Settings.include_children settings) with
      | Traverse.Raised => Batch.Uncaught
      | Traverse.OutOfFuel => Batch.OutOfFuel
      | Traverse.Yielded page_ids =>
          let st := fold_left (Batch.step (Settings.space settings)
                                           (Settings.base_url settings))
                              page_ids Batch.init in
          if Batch.processed_docs st =? 0 then Batch.NoDocuments
          else
            Batch.Exported (Batch.docs st) (Batch.all_chunks st) (Batch.chunk_index st)
              (length (Batch.all_chunks st))
              (changed_chunks previous_index (Batch.chunk_index st))
              (removed_chunks previous_index (Batch.chunk_index st))
      end
  end.

(** ** Vocabulary of the chunk-grouping invariant *)

Module ChunkInv.
Import Chunker.

(** What [current_len] counts: every pending sentence and one separator each. *)
Definition total (g : list string) : nat :=
  sum_list_with (λ s, String.length s + 1) g.

(** A group is a single sentence, or fits the hard cap. *)
Definition good (max_chars : nat) (g : list string) : Prop :=
  g ≠ [] ∧ ((∃ s, g = [s]) ∨ total g ≤ max_chars).

(** Loop invariant after the sentences [seen]: the emitted chunks render
    [groups], and [current] holds the sentences not yet emitted. *)
Record inv (max_chars : nat) (seen : list string) (st : state)
    (groups : list (list string)) : Prop := {
  inv_seen : concat groups ++ current st = seen;
  inv_chunks : chunks st = chunk_text <$> groups;
  inv_len : current_len st = total (current st);
  inv_groups : Forall (good max_chars) groups;
  inv_current : current st = [] ∨ good max_chars (current st)
}.
End ChunkInv.

(** A non-empty string without leading or trailing whitespace. *)
Definition tidy (s : string) : Prop := s ≠ "" ∧ strip s = s.

(** A list-valued cell has at least two entries, each one tidy. *)
Definition list_cell_ok (v : cell_value) : Prop :=
  match v with
  | CStr _ => True
  | CList parts => 2 ≤ length parts ∧ Forall tidy parts
  end.

(** ** Vocabulary of the sentence splitter proofs: boundaries and cuts over
    the character classes of the code *)

Module SentenceSpec.

(** Every character of [s] is in the class [p]. *)
Fixpoint every (p : ascii → bool) (s : string) : bool :=
  match s with
  | EmptyString => true
  | String c s' => p c && every p s'
  end.

(** The character before the position reached after reading [s]. *)
Fixpoint last_char (prev : option ascii) (s : string) : option ascii :=
  match s with
  | EmptyString => prev
  | String c s' => last_char (Some c) s'
  end.

(** The longest prefix in the class [p], and what follows it. *)
Fixpoint span (p : ascii → bool) (s : string) : string * string :=
  match s with
  | EmptyString => ("", "")
  | String c s' =>
      if p c then let (run, rest) := span p s' in (String c run, rest)
      else ("", s)
  end.

(** A split boundary begins at the head of [s]: the character before is
    one of [.!?], then comes the whitespace [gap], then [rest], which
    starts with an uppercase letter or a digit. *)
Definition boundary (prev : option ascii) (s gap rest : string) : Prop :=
  (∃ c, prev = Some c ∧ is_terminator c = true)
  ∧ s = gap +:+ rest
  ∧ gap ≠ "" ∧ every isspace gap = true
  ∧ ∃ d r, rest = String d r ∧ is_upper_or_digit d = true.

(** [cuts prev s pieces]: [pieces] are [s] split at exactly its boundaries,
    the whitespace of each boundary dropped.  The first piece continues
    the one being read when [s] begins. *)
Inductive cuts : option ascii → string → list string → Prop :=
  | cuts_end prev : cuts prev "" [""]
  | cuts_char prev c s piece pieces :
      (∀ gap rest, ¬ boundary prev (String c s) gap rest) →
      cuts (Some c) s (piece :: pieces) →
      cuts prev (String c s) (String c piece :: pieces)
  | cuts_gap prev s gap rest pieces :
      boundary prev s gap rest →
      cuts (last_char prev gap) rest pieces →
      cuts prev s ("" :: pieces).

(** Some position of [line] is a split boundary. *)
Definition boundary_inside (line : string) : Prop :=
  ∃ before after gap rest,
    line = before +:+ after ∧ boundary (last_char None before) after gap rest.

(** The line starts with a bullet marker or with digits and a dot. *)
Definition list_marker (line : string) : Prop :=
  (∃ c r, line = String c r ∧ c ∈ ["-"; "*"; "+"; ">"]%char)
  ∨ (∃ digits r, digits ≠ "" ∧ every is_digit digits = true
       ∧ line = digits +:+ "." +:+ r).

(** The units one raw line contributes. *)
Inductive line_units (raw : string) : list string → Prop :=
  | units_blank : strip raw = "" → line_units raw []
  | units_marker :
      strip raw ≠ "" → list_marker (strip raw) → line_units raw [strip raw]
  | units_prose pieces :
      strip raw ≠ "" → ¬ list_marker (strip raw) →
      cuts None (strip raw) pieces → line_units raw pieces.

End SentenceSpec.

(** ** The cell and sentence rules in the words of the specification

    The statements about cell values and about sentence units are made
    with the definitions of this module.  They spell every character out
    and use none of the functions of the code. *)
Module SpecWords.

(** The characters that [str.isspace] accepts (below 256): TAB, LF, VT, FF,
    CR, FS, GS, RS, US, the space, NEL and the no-break space. *)
Definition whitespace : list ascii :=
  ["009"; "010"; "011"; "012"; "013"; "028"; "029"; "030"; "031"; " "; "133"; "160"]%char.


Definition terminators : list ascii := ["."; "!"; "?"]%char.
Definition bullets : list ascii := ["-"; "*"; "+"; ">"]%char.
Definition digits : list ascii := list_ascii_of_string "0123456789".


(** Every character of [s] is in the class, and none is. *)
Definition all_in (cls : list ascii) (s : string) : Prop :=
  Forall (λ c, c ∈ cls) (list_ascii_of_string s).

Definition none_in (cls : list ascii) (s : string) : Prop :=
  Forall (λ c, c ∉ cls) (list_ascii_of_string s).

(** [t] is [s] without its leading and trailing whitespace. *)
Definition trimmed (s t : string) : Prop :=
  ∃ l r, s = l +:+ t +:+ r
    ∧ all_in whitespace l ∧ all_in whitespace r
    ∧ (∀ c u, t = String c u → c ∉ whitespace)
    ∧ (∀ u c, t = u +:+ String c "" → c ∉ whitespace).

(** *** Cell values *)

(** [ps] are the pieces of [value] between the separators: at least one,
    none holds the separator, and put together again with the separator
    they are [value]. *)
Definition pieces (sep : ascii) (value : string) (ps : list string) : Prop :=
  ps ≠ []
  ∧ value = String.concat (String sep "") ps
  ∧ Forall (none_in [sep]) ps.

(** [qs] are the non-empty trimmed parts of [value] split on [sep]: its
    pieces, each trimmed, those that come out empty left out. *)
Definition parts (sep : ascii) (value : string) (qs : list string) : Prop :=
  ∃ ps ts, pieces sep value ps ∧ Forall2 trimmed ps ts ∧ qs = filter (λ t, t ≠ "") ts.

(** *** Sentence units *)

(** A split boundary begins at the head of [s]: the character before is
    one of [. ! ?], then comes the whitespace [gap], then [rest], which
    starts with a letter of [upper] or with a digit. *)
Definition boundary (upper : list ascii) (prev : option ascii) (s gap rest : string) : Prop :=
  (∃ c, prev = Some c ∧ c ∈ terminators)
  ∧ s = gap +:+ rest
  ∧ gap ≠ "" ∧ all_in whitespace gap
  ∧ ∃ d r, rest = String d r ∧ (d ∈ upper ∨ d ∈ digits).

(** [cuts upper prev s pieces]: [pieces] are [s] split at exactly its
    boundaries, the whitespace of each boundary dropped; [prev] is the
    character before [s], and the first piece continues the one being read
    when [s] begins. *)
Inductive cuts (upper : list ascii) : option ascii → string → list string → Prop :=
  | cuts_done prev : cuts upper prev "" [""]
  | cuts_keep prev c s piece pieces :
      (∀ gap rest, ¬ boundary upper prev (String c s) gap rest) →
      cuts upper (Some c) s (piece :: pieces) →
      cuts upper prev (String c s) (String c piece :: pieces)
  | cuts_split prev s gap rest pieces :
      boundary upper prev s gap rest →
      cuts upper None rest pieces →
      cuts upper prev s ("" :: pieces).

(** Somewhere in [line] one of [. ! ?] is followed by whitespace and then
    by a letter of [upper] or a digit. *)
Definition boundary_inside (upper : list ascii) (line : string) : Prop :=
  ∃ before c gap d after,
    line = before +:+ String c gap +:+ String d after
    ∧ c ∈ terminators
    ∧ gap ≠ "" ∧ all_in whitespace gap
    ∧ (d ∈ upper ∨ d ∈ digits).

(** The line starts with a bullet marker or with digits and a dot. *)
Definition list_marker (line : string) : Prop :=
  (∃ c r, line = String c r ∧ c ∈ bullets)
  ∨ (∃ ds r, ds ≠ "" ∧ all_in digits ds ∧ line = ds +:+ "." +:+ r).


(** The units that one line contributes. *)
Inductive line_units (upper : list ascii) (raw : string) : list string → Prop :=
  | line_blank : all_in whitespace raw → line_units upper raw []
  | line_marker line :
      trimmed raw line → line ≠ "" → list_marker line → line_units upper raw [line]
  | line_prose line pieces :
      trimmed raw line → line ≠ "" → ¬ list_marker line →
      cuts upper None line pieces → line_units upper raw pieces.

End SpecWords.

(** ** Example inputs *)

Definition name_tags_table : node :=
  Elem 0 "table" [
    Elem 1 "tr" [Elem 2 "th" [Text "Name"]; Elem 3 "th" [Text "Tags"]];
    Elem 4 "tr" [Elem 5 "td" [Text "Widget"]; Elem 6 "td" [Text "red, blue"]]].


Definition name_tags_table_td : node :=
  Elem 0 "table" [
    Elem 1 "tr" [Elem 2 "td" [Text "Name"]; Elem 3 "td" [Text "Tags"]];
    Elem 4 "tr" [Elem 5 "td" [Text "Widget"]; Elem 6 "td" [Text "red, blue"]]].

Definition previous_index_AB : gmap string string := {[ "A" := "h1"; "B" := "h2" ]}.
Definition chunk_index_AC : gmap string string := {[ "A" := "h1"; "C" := "h3" ]}.

Definition page_without_body : Page.t :=
  Page.mk (Some "98765") (Some "Release Notes") None [Some "Home"] None None.

Definition page_with_body (html : string) : Page.t :=
  Page.mk (Some "98765") (Some "Release Notes")
          (Some (Page.mkVersion (Some "7") None)) [Some "Home"]
          (Some (Page.mkLinks (Some "/x")))
          (Some (Page.mkBody (Some (Page.mkStorage (Some html))))).

Definition two_sections : list Sec.t :=
  [Sec.mk "notes" "Notes" "First point. Second point." ["notes"] None;
   Sec.mk "notes" "Notes" "- item one" ["notes"] None].

(** A small page tree with a cycle: 1 has the children 2 and 3, 2 lists 3
    and 1, 3 lists 3, and nothing else has children. *)
Definition small_tree : ChildPages :=
  λ page_id,
    if String.eqb page_id "1" then Some ["2"; "3"]
    else if String.eqb page_id "2" then Some ["3"; "1"]
    else if String.eqb page_id "3" then Some ["3"]
    else Some [].

(** An environment that sets the site and the space, and command-line
    arguments that give the rest and an empty space. *)
Definition small_environ : Environ :=
  λ name,
    if String.eqb name "CONF_BASE_URL" then Some "https://wiki.example"
    else if String.eqb name "CONF_SPACE" then Some "OPS"
    else if String.eqb name "INCLUDE_CHILDREN" then Some "maybe"
    else None.

Definition strtobool_true_false : Strtobool :=
  λ value,
    if String.eqb value "true" then Some true
    else if String.eqb value "false" then Some false
    else None.

Definition small_args : Args.t :=
  Args.mk None (Some "me@example.org") (Some "secret") (Some "") (Some "1") (Some true).

Definition small_settings : Settings.t :=
  Settings.mk "https://wiki.example" "me@example.org" "secret" "OPS" "1" true.

(** A server on which page 1 can be fetched and pages 2 and 3 cannot, and
    a clock that has stopped. *)
Definition small_server : FetchPage :=
  λ page_id, if String.eqb page_id "1" then Some page_without_body else None.

Definition stopped_clock : Clock := λ _, "2024-01-01T00:00:00+00:00".


(** A document with two tables under one heading and a third under
    another, all with [th] cells. *)
Definition three_tables : node :=
  Elem 30 "div" [
    Elem 31 "h2" [Text "Widgets"];
    name_tags_table;
    Elem 32 "table" [Elem 33 "tr" [Elem 34 "th" [Text "Size"]]];
    Elem 35 "h3" [Text "Spare parts"];
    Elem 36 "table" [Elem 37 "tr" [Elem 38 "th" [Text "Part"]];
                     Elem 39 "tr" [Elem 40 "td" [Text "bolt"]]]].

(** ** Vocabulary of the assembler properties *)

(** What follows the last [c] of [s] (all of [s] when it has none). *)
Fixpoint after_last (c : ascii) (s : string) : string :=
  match s with
  | EmptyString => EmptyString
  | String d s' =>
      if contains c s' then after_last c s'
      else if Ascii.eqb d c then s' else s
  end.

(** The identifier of a chunk as [build_document] formats it. *)
Definition chunk_id_of (doc_id : string) (c : Chunk.t) : string :=
  doc_id +:+ "::" +:+ Chunk.section_id c +:+ "#" +:+ pretty (Chunk.rank c).

(** Invariant of the chunking pass: the counter is the number of chunks
    emitted, ranks count up from 0, identifiers have the format and are
    pairwise distinct. *)
Record numbered (doc_id : string) (st : Assemble.state) : Prop := {
  numbered_rank : Assemble.rank st = length (Assemble.chunks st);
  numbered_seq : Chunk.rank <$> Assemble.chunks st = seq 0 (length (Assemble.chunks st));
  numbered_ids : Forall (λ c, Chunk.chunk_id c = chunk_id_of doc_id c) (Assemble.chunks st);
  numbered_nodup : NoDup (Chunk.chunk_id <$> Assemble.chunks st);
  numbered_index : dom (Assemble.chunk_index st)
                   = list_to_set (Chunk.chunk_id <$> Assemble.chunks st)
}.

(** Stand-ins for the third-party interfaces on text without markup: the
    parser keeps the text as one node, Markdown conversion returns the
    text, the digest is the text itself.  They only serve to instantiate
    statements at concrete inputs. *)
Module Plain.

Definition parser : HtmlParser :=
  λ html, Elem 0 "[document]" (if nonempty html then [Text html] else []).

Definition markdown : Markdownify := get_text "".

Definition digest : Sha256 := λ value, value.

End Plain.

(** ** Vocabulary of the traversal properties *)

Module TraverseInv.
Import Traverse.

(** The server lists [y] as a child of [x]. *)
Definition child `{ChildPages} (x y : string) : Prop :=
  ∃ children, fetch_children_ids x = Some children ∧ y ∈ children.

(** Invariant of the loop: the ids yielded start with the root, are
    pairwise distinct and are the ids seen; the queue holds yielded ids
    only; a yielded id that has left the queue had its children fetched and
    yielded; every yielded id is a descendant of the root. *)
Record inv `{ChildPages} (root_id : string) (st : state) : Prop := {
  inv_head : ∃ tail, yielded st = root_id :: tail;
  inv_nodup : NoDup (yielded st);
  inv_seen : ∀ x, x ∈ seen st ↔ x ∈ yielded st;
  inv_queue : ∀ x, x ∈ queue st → x ∈ yielded st;
  inv_length : length (queue st) ≤ length (yielded st);
  inv_done : ∀ x, x ∈ yielded st → x ∉ queue st →
             ∃ children, fetch_children_ids x = Some children
                         ∧ ∀ c, c ∈ children → c ∈ yielded st;
  inv_reach : ∀ x, x ∈ yielded st → rtc child root_id x
}.

(** The set holds the children of each of its pages. *)
Definition closed `{ChildPages} (pages : gset string) : Prop :=
  ∀ x children, x ∈ pages → fetch_children_ids x = Some children →
                ∀ c, c ∈ children → c ∈ pages.

End TraverseInv.

(** ** Vocabulary of the further assembler properties *)

Module AssembleInv.

(** The chunks a section contributes: its id with each chunk text. *)
Definition section_texts (section : Sec.t) : list (string * string) :=
  if nonempty (strip (Sec.body_md section)) then
    (λ text, (Sec.id section, text))
      <$> chunk_sentences (split_into_sentences (Sec.body_md section))
  else [].

(** A chunk as its section id and its text. *)
Definition labelled (c : Chunk.t) : string * string := (Chunk.section_id c, Chunk.text c).

(** The index holds the hash of every chunk under its identifier, and the
    hash is the digest of the chunk text. *)
Definition indexed `{Sha256} (st : Assemble.state) : Prop :=
  Forall (λ c, Assemble.chunk_index st !! Chunk.chunk_id c = Some (Chunk.text_hash c)
               ∧ Chunk.text_hash c = sha256_text (Chunk.text c))
         (Assemble.chunks st).

(** The chunk was emitted for the section [s]. *)
Definition emitted_for `{Slugify} (doc_keywords : gset string) (s : Sec.t) (c : Chunk.t)
  : Prop :=
  Chunk.section_id c = Sec.id s
  ∧ Chunk.anchors c = Sec.anchors s
  ∧ strip (Sec.body_md s) ≠ ""
  ∧ Chunk.keywords c
    = sorted (doc_keywords ∪ {[ slugify_text (Sec.title s) "-" ]}
                           ∪ {[ "sandbox"; "production" ]}).

End AssembleInv.

(** ** Vocabulary of the HTML cleaning properties *)

Module HtmlInv.

(** The name of a tag. *)
Definition tag_of (n : node) : option string :=
  match n with
  | Text _ | Special _ _ => None
  | Elem _ nm _ => Some nm
  end.

(** The node is a string, or a tag whose name satisfies [ok]. *)
Definition named (ok : string → Prop) (n : node) : Prop :=
  match n with
  | Text _ | Special _ _ => True
  | Elem _ nm _ => ok nm
  end.

(** Every tag below [n] has a name that satisfies [ok]. *)
Definition below (ok : string → Prop) (n : node) : Prop :=
  Forall (named ok) (descendants n).

(** [k] newlines come right before [s], and no three newlines in a row
    end or lie in [s]. *)
Fixpoint newlines_ok (k : nat) (s : string) : bool :=
  match s with
  | EmptyString => true
  | String c s' =>
      if Ascii.eqb c NL then (k <? 2) && newlines_ok (S k) s'
      else newlines_ok 0 s'
  end.

(** [k] newlines *)
Definition newlines (k : nat) : string := string_of_list_ascii (replicate k NL).

End HtmlInv.
(** ** Vocabulary of the configuration and of the export loop *)

Module ConfigInv.

(** The settings with their command-line value and the variable that
    stands in for it. *)
Definition sources (args : Args.t) : list (string * option string * string) :=
  [("base_url", Args.base_url args, "CONF_BASE_URL");
   ("email", Args.email args, "CONF_EMAIL");
   ("api_token", Args.api_token args, "CONF_API_TOKEN");
   ("space", Args.space args, "CONF_SPACE");
   ("root_page_id", Args.root_page_id args, "CONF_ROOT_PAGE_ID")].

(** [value] is not empty and is the command-line value, or that one is
    absent or empty and [value] is the value of the variable. *)
Definition resolved `{Environ} (arg : option string) (name : string) (value : string) : Prop :=
  value ≠ ""
  ∧ (arg = Some value ∨ (is_missing arg = true ∧ getenv name = Some value)).

(** Neither the command line nor the environment gives a value. *)
Definition unset `{Environ} (arg : option string) (name : string) : Prop :=
  is_missing arg = true ∧ is_missing (getenv name) = true.

End ConfigInv.

Module BatchInv.

(** The pages of [page_ids] whose request succeeds, in order. *)
Definition fetched `{FetchPage} (page_ids : list string) : list Page.t :=
  omap fetch_page page_ids.

(** What [convert_page] returns for a page apart from the document: the
    chunks, the index, and the path of the document file.  None of them
    depends on the reading of the clock. *)
Definition page_chunks `{Slugify} `{Sha256} `{HtmlParser} `{Markdownify}
    (space base_url : string) (page : Page.t) : list Chunk.t :=
  (convert_page page space base_url "").1.2.

Definition page_index `{Slugify} `{Sha256} `{HtmlParser} `{Markdownify}
    (space base_url : string) (page : Page.t) : gmap string string :=
  (convert_page page space base_url "").2.

Definition page_path `{Slugify} `{Sha256} `{HtmlParser} `{Markdownify}
    (space base_url : string) (page : Page.t) : string :=
  Batch.doc_path (Doc.slug (convert_page page space base_url "").1.1).

(** The index after the pages: a later page overrides an earlier one. *)
Definition index_of `{Slugify} `{Sha256} `{HtmlParser} `{Markdownify}
    (space base_url : string) (pages : list Page.t) : gmap string string :=
  fold_left (λ index page, page_index space base_url page ∪ index) pages ∅.

(** The state of the export loop after the pages [pages] were converted. *)
Record exported `{Slugify} `{Sha256} `{HtmlParser} `{Markdownify}
    (space base_url : string) (pages : list Page.t) (st : Batch.state) : Prop := {
  exported_chunks :
    Batch.all_chunks st = concat (page_chunks space base_url <$> pages);
  exported_count : Batch.processed_docs st = length pages;
  exported_index : Batch.chunk_index st = index_of space base_url pages;
  exported_paths :
    dom (Batch.docs st) = list_to_set (page_path space base_url <$> pages);
  exported_docs : ∀ path doc, Batch.docs st !! path = Some doc →
    ∃ page imported_at,
      page ∈ pages
      ∧ doc = (convert_page page space base_url imported_at).1.1
      ∧ path = page_path space base_url page
}.

(** The pages that a run asks for: the root, with its descendants when
    the children are included. *)
Definition in_scope `{ChildPages} (settings : Settings.t) (page_id : string) : Prop :=
  if Settings.include_children settings
  then rtc TraverseInv.child (Settings.root_page_id settings) page_id
  else page_id = Settings.root_page_id settings.

End BatchInv.

(** ** Vocabulary of the section segmenter properties *)

Module SectionInv.

(** What every section built by [flush_section] satisfies. *)
Definition well_formed `{Slugify} (s : Sec.t) : Prop :=
  Sec.anchors s = [Sec.id s] ∧ Sec.table_json s = None
  ∧ strip (Sec.body_md s) = Sec.body_md s
  ∧ tidy (Sec.title s)
  ∧ Sec.id s = slugify_text (Sec.title s) "-".

(** The line opens a section. *)
Definition is_heading (line : string) : bool :=
  match heading_match line with Some _ => true | None => false end.

End SectionInv.

(** ** Vocabulary of the table extractor properties *)

Module TableInv.
Import Extract.

(** The column keys are the slugs of the display labels, and no label is
    empty. *)
Definition names_ok `{Slugify} (nm : names) : Prop :=
  headers nm = (λ text, slugify_text text "-") <$> display_headers nm
  ∧ Forall (λ label, label ≠ "") (display_headers nm).

(** Every key of the row is one of the column keys [hs]. *)
Definition keys_in (hs : list string) (row : gmap string cell_value) : Prop :=
  ∀ key, is_Some (row !! key) → key ∈ hs.

(** The row has at least one [td] or [th] cell. *)
Definition has_cells (tr : node) : bool :=
  match find_all ["td"; "th"] tr with [] => false | _ :: _ => true end.

End TableInv.

Module MappingInv.

(** The identity of a tag. *)
Definition id_of (n : node) : option nat :=
  match n with Elem i _ _ => Some i | _ => None end.

(** The identities of the tags of the document, in document order. *)
Definition tag_ids (soup : node) : list nat := omap id_of (self_and_descendants soup).

(** The node is an [h1], [h2] or [h3] tag. *)
Definition heading (n : node) : bool :=
  match n with
  | Elem _ nm _ => bool_decide (nm ∈ ["h1"; "h2"; "h3"])
  | _ => false
  end.

(** [key] is the section of the table [t] of the document: the slug of the
    text of the last heading that comes before [t] in document order, or
    [overview] when there is no heading before [t] or the last one has no
    text. *)
Definition section_of `{Slugify} (soup t : node) (key : string) : Prop :=
  ∃ before after,
    self_and_descendants soup = before ++ t :: after
    ∧ (t ∉ before)
    ∧ key = match last (List.filter heading before) with
            | Some h =>
                if decide (get_text "" h = "") then "overview"
                else slugify_text (get_text "" h) "-"
            | None => "overview"
            end.

(** The key under which [table_step] files the table with identity [i]. *)
Definition key_of `{Slugify} (soup : node) (i : nat) : string :=
  match find_previous HEADING_TAGS i soup with
  | Some heading =>
      let text := get_text "" heading in
      if nonempty text then slugify_text text "-" else "overview"
  | None => "overview"
  end.

(** The mapping after the tables [done]: under each key the tables of
    [done] with that key, extracted, in order. *)
Definition filed `{Slugify} (soup : node) (done : list node) (key : string)
  : option (list Table) :=
  match filter (λ t, (key_of soup <$> id_of t) = Some key) done with
  | [] => None
  | ts => Some ((λ t, table_data (_extract_table t)) <$> ts)
  end.

End MappingInv.
(* ===================================================================== *)
(** * Properties *)
(* ===================================================================== *)


(** ** Strings: append, length, strip *)

Lemma app_str_cons (c : ascii) (s t : string) :
  String c s +:+ t = String c (s +:+ t).
Proof. reflexivity. Qed.

Lemma app_str_nil_l (s : string) : "" +:+ s = s.
Proof. reflexivity. Qed.

Lemma length_app_str (s t : string) :
  String.length (s +:+ t) = String.length s + String.length t.
Proof. induction s as [|c s IH]; [done|]. rewrite app_str_cons. simpl. by rewrite IH. Qed.

Lemma app_str_nil_r (s : string) : s +:+ "" = s.
Proof. induction s as [|c s IH]; [done|]. by rewrite app_str_cons, IH. Qed.

Lemma app_str_assoc (s t u : string) : (s +:+ t) +:+ u = s +:+ t +:+ u.
Proof. induction s as [|c s IH]; [done|]. by rewrite !app_str_cons, IH. Qed.

Lemma lstrip_length (s : string) : String.length (lstrip s) ≤ String.length s.
Proof. induction s as [|c s IH]; simpl; [done|]. destruct (isspace c); simpl; lia. Qed.

Lemma rstrip_length (s : string) : String.length (rstrip s) ≤ String.length s.
Proof.
  induction s as [|c s IH]; simpl; [done|].
  destruct (rstrip s) eqn:E; [destruct (isspace c)|]; simpl in *; lia.
Qed.

Lemma strip_length (s : string) : String.length (strip s) ≤ String.length s.
Proof.
  unfold strip. etrans; [apply rstrip_length|apply lstrip_length].
Qed.

(** ** Grouping performed by [chunk_sentences] *)

Module ChunkerFacts.
Import Chunker ChunkInv.

Lemma total_app g h : total (g ++ h) = total g + total h.
Proof. apply sum_list_with_app. Qed.

Lemma total_elem s g : s ∈ g → String.length s + 1 ≤ total g.
Proof. apply (sum_list_with_in s (λ s, String.length s + 1)). Qed.

Lemma join_length g :
  g ≠ [] → String.length (join (String NL "") g) + 1 = total g.
Proof.
  induction g as [|s g IH]; [done|]. intros _.
  destruct g as [|t g]; [unfold total; simpl; lia|].
  change (join _ (s :: t :: g)) with (s +:+ String NL "" +:+ join (String NL "") (t :: g)).
  rewrite !length_app_str. change (total (s :: t :: g)) with
    (String.length s + 1 + total (t :: g)).
  rewrite <- IH by done. simpl. lia.
Qed.

Lemma inv_init max_chars : inv max_chars [] init [].
Proof. split; simpl; auto. Qed.

Lemma inv_flush max_chars seen st groups :
  inv max_chars seen st groups → current st ≠ [] →
  inv max_chars seen (flush st) (groups ++ [current st]).
Proof.
  intros [Hs Hc Hl Hg Hcur] Hne. split; simpl.
  - by rewrite concat_app, app_nil_r; simpl; rewrite app_nil_r.
  - by rewrite Hc, fmap_app.
  - done.
  - apply Forall_app; split; [done|]. apply Forall_singleton. by destruct Hcur.
  - by left.
Qed.

Lemma inv_step target_chars max_chars seen st groups sentence :
  inv max_chars seen st groups →
  ∃ groups', inv max_chars (seen ++ [sentence]) (step target_chars max_chars st sentence) groups'.
Proof.
  intros Hinv. unfold step.
  set (st1 := match current st with [] => st | _ => _ end).
  assert (∃ g1, inv max_chars seen st1 g1 ∧
            (current st1 = [] ∨ current_len st1 + String.length sentence + 1 ≤ max_chars))
    as (g1 & H1 & Hfit).
  { subst st1. destruct (current st) as [|s0 cur] eqn:Ecur.
    - exists groups. split; [done|]. by left.
    - destruct (Nat.ltb_spec max_chars (current_len st + String.length sentence + 1)).
      + exists (groups ++ [current st]). split; [|by left].
        apply inv_flush; [done|]. by rewrite Ecur.
      + exists groups. split; [done|]. right. lia. }
  clearbody st1. clear Hinv.
  set (st2 := mk _ _ _).
  assert (inv max_chars (seen ++ [sentence]) st2 g1) as H2.
  { destruct H1 as [Hs Hc Hl Hg Hcur]. subst st2. split; simpl.
    - by rewrite app_assoc, Hs.
    - done.
    - rewrite total_app, Hl. unfold total. simpl. lia.
    - done.
    - right. split; [by destruct (current st1)|].
      destruct Hfit as [->|Hfit]; [left; by eexists|].
      right. rewrite total_app, <- Hl. unfold total; simpl. lia. }
  destruct (target_chars <=? current_len st2).
  - eexists. apply inv_flush; [done|]. subst st2; simpl. by destruct (current st1).
  - by exists g1.
Qed.

Lemma inv_fold target_chars max_chars rest : ∀ seen st groups,
  inv max_chars seen st groups →
  ∃ groups', inv max_chars (seen ++ rest)
               (fold_left (step target_chars max_chars) rest st) groups'.
Proof.
  induction rest as [|s rest IH]; intros seen st groups Hinv; simpl.
  - rewrite app_nil_r. by exists groups.
  - destruct (inv_step target_chars max_chars _ _ _ s Hinv) as [g' Hg'].
    destruct (IH _ _ _ Hg') as [g'' Hg'']. exists g''.
    by rewrite <- app_assoc in Hg''.
Qed.

(** The chunks are the renderings of consecutive groups of the input. *)
Lemma groups_of_chunks sentences target_chars max_chars :
  ∃ groups, concat groups = sentences
    ∧ chunk_sentences_with sentences target_chars max_chars = chunk_text <$> groups
    ∧ Forall (good max_chars) groups.
Proof.
  destruct (inv_fold target_chars max_chars sentences [] init [] (inv_init _))
    as [groups Hinv]. simpl in Hinv.
  unfold chunk_sentences_with, finish.
  set (st := fold_left _ _ _) in *. clearbody st.
  destruct (current st) as [|s cur] eqn:Ecur.
  - destruct Hinv as [Hs Hc _ Hg _]. exists groups.
    rewrite Ecur, app_nil_r in Hs. done.
  - assert (current st ≠ []) as Hne by by rewrite Ecur.
    destruct (inv_flush _ _ _ _ Hinv Hne) as [Hs Hc _ Hg _].
    exists (groups ++ [current st]). simpl in *.
    rewrite app_nil_r in Hs. done.
Qed.

Lemma good_bound max_chars g :
  good max_chars g →
  String.length (chunk_text g) ≤ max_chars
  ∨ ∃ s, g = [s] ∧ max_chars < String.length s.
Proof.
  intros [Hne [[s ->]|Htot]].
  - destruct (Nat.le_gt_cases (String.length s) max_chars) as [Hle|Hgt].
    + left. unfold chunk_text. simpl. etrans; [apply strip_length|done].
    + right. by exists s.
  - left. unfold chunk_text. etrans; [apply strip_length|].
    pose proof (join_length g Hne). lia.
Qed.

Lemma good_oversized max_chars g s :
  good max_chars g → s ∈ g → max_chars < String.length s → g = [s].
Proof.
  intros [Hne [[t ->]|Htot]] Hin Hlen.
  - by apply list_elem_of_singleton in Hin as ->.
  - apply total_elem in Hin. lia.
Qed.
End ChunkerFacts.


Lemma lstrip_head (c : ascii) (s : string) :
  isspace c = false → lstrip (String c s) = String c s.
Proof. intros H. simpl. by rewrite H. Qed.

Lemma strip_fixed (s : string) : strip s = s → lstrip s = s ∧ rstrip s = s.
Proof.
  intros H. assert (lstrip s = s) as Hl; [|unfold strip in H; by rewrite Hl in H].
  destruct s as [|c s]; [done|]. simpl. destruct (isspace c) eqn:Ec; [|done].
  exfalso. unfold strip in H. simpl in H. rewrite Ec in H.
  pose proof (rstrip_length (lstrip s)). pose proof (lstrip_length s).
  rewrite H in *. simpl in *. lia.
Qed.

Lemma rstrip_app (s t : string) :
  rstrip t ≠ "" → rstrip (s +:+ t) = s +:+ rstrip t.
Proof.
  intros Ht. induction s as [|c s IH]; [done|].
  rewrite !app_str_cons. simpl. rewrite IH.
  destruct s; [rewrite !app_str_nil_l; by destruct (rstrip t)|done].
Qed.

Lemma strip_app (s t : string) :
  s ≠ "" → t ≠ "" → lstrip s = s → rstrip t = t → strip (s +:+ t) = s +:+ t.
Proof.
  intros Hs Ht Hl Hr. unfold strip.
  destruct s as [|c s]; [done|]. simpl in Hl.
  destruct (isspace c) eqn:Ec.
  { pose proof (lstrip_length s). rewrite Hl in *. simpl in *. lia. }
  rewrite app_str_cons, (lstrip_head c) by done. rewrite <- app_str_cons.
  rewrite rstrip_app; rewrite Hr; done.
Qed.

Lemma split_clean (sep : ascii) (s : string) :
  contains sep s = false → split sep s = [s].
Proof.
  induction s as [|c s IH]; [done|]. simpl.
  destruct (Ascii.eqb c sep); [done|]. simpl. intros H. by rewrite IH.
Qed.

Lemma split_app (sep : ascii) (s t : string) :
  contains sep s = false → split sep (s +:+ String sep t) = s :: split sep t.
Proof.
  induction s as [|c s IH].
  - intros _. rewrite app_str_nil_l. simpl. by rewrite Ascii.eqb_refl.
  - rewrite app_str_cons. simpl. destruct (Ascii.eqb c sep); [done|]. simpl.
    intros H. by rewrite IH.
Qed.

Lemma split_join (sep : ascii) (g : list string) :
  g ≠ [] → Forall (λ s, contains sep s = false) g →
  split sep (join (String sep "") g) = g.
Proof.
  induction g as [|s g IH]; [done|]. intros _ Hall.
  apply Forall_cons in Hall as [Hs Hg].
  destruct g as [|t g]; [by apply split_clean|].
  change (join _ (s :: t :: g)) with (s +:+ String sep "" +:+ join (String sep "") (t :: g)).
  rewrite app_str_cons, app_str_nil_l, split_app by done.
  by rewrite IH.
Qed.


Lemma join_tidy (sep : string) (g : list string) :
  g ≠ [] → Forall tidy g → tidy (join sep g).
Proof.
  induction g as [|s g IH]; [done|]. intros _ Hall.
  apply Forall_cons in Hall as [[Hs Hst] Hg].
  destruct g as [|t g]; [done|].
  specialize (IH ltac:(done) Hg) as [IHne IHst].
  change (join _ (s :: t :: g)) with (s +:+ sep +:+ join sep (t :: g)).
  apply strip_fixed in Hst as [Hl _]. apply strip_fixed in IHst as [_ Hr].
  set (j := join sep (t :: g)) in *.
  assert (sep +:+ j ≠ "") as Hne by (destruct sep; done).
  assert (rstrip (sep +:+ j) = sep +:+ j) as Hr'.
  { rewrite rstrip_app; rewrite Hr; done. }
  split; [by destruct s|]. by apply strip_app.
Qed.

Lemma chunk_text_split (g : list string) :
  g ≠ [] → Forall (λ s, tidy s ∧ contains NL s = false) g →
  split NL (Chunker.chunk_text g) = g.
Proof.
  intros Hne Hall. unfold Chunker.chunk_text.
  assert (tidy (join (String NL "") g)) as [_ ->].
  { apply join_tidy; [done|]. eapply Forall_impl; [done|]. by intros ? []. }
  apply split_join; [done|]. eapply Forall_impl; [done|]. by intros ? [].
Qed.


(** ** Idempotence of [strip] *)

Lemma lstrip_head_cases (s : string) :
  lstrip s = "" ∨ ∃ c r, lstrip s = String c r ∧ isspace c = false.
Proof.
  induction s as [|c s IH]; [by left|]. simpl.
  destruct (isspace c) eqn:Ec; [done|]. right. by exists c, s.
Qed.

Lemma rstrip_idem (s : string) : rstrip (rstrip s) = rstrip s.
Proof.
  induction s as [|c s IH]; [done|]. simpl.
  destruct (rstrip s) as [|d r] eqn:Er.
  - destruct (isspace c) eqn:Ec; [done|]. simpl. by rewrite Ec.
  - change (rstrip (String c (String d r))) with
      (match rstrip (String d r) with
       | "" => if isspace c then "" else String c ""
       | r' => String c r' end).
    by rewrite IH.
Qed.

Lemma rstrip_keeps_head (c : ascii) (s : string) :
  isspace c = false → ∃ r, rstrip (String c s) = String c r.
Proof.
  intros Ec. simpl. destruct (rstrip s); [rewrite Ec|]; eauto.
Qed.

Lemma strip_idem (s : string) : strip (strip s) = strip s.
Proof.
  unfold strip. destruct (lstrip_head_cases s) as [->|(c & r & -> & Ec)]; [done|].
  destruct (rstrip_keeps_head c r Ec) as [r' Hr'].
  rewrite <- (rstrip_idem (String c r)) at 2. f_equal.
  rewrite Hr'. by apply lstrip_head.
Qed.

(** ** [_maybe_split_list] *)

Lemma split_parts_length_clean (sep : ascii) (v : string) :
  contains sep v = false → length (split_parts sep v) ≤ 1.
Proof.
  intros H. unfold split_parts. rewrite length_fmap, split_clean by done.
  rewrite filter_cons, filter_nil. case_decide; simpl; lia.
Qed.

Lemma split_on_spec (sep : ascii) (v : string) :
  split_on sep v =
    if decide (2 ≤ length (split_parts sep v)) then Some (split_parts sep v) else None.
Proof.
  unfold split_on. destruct (contains sep v) eqn:Ec.
  - destruct (Nat.ltb_spec 1 (length (split_parts sep v))); case_decide; done || lia.
  - pose proof (split_parts_length_clean sep v Ec). case_decide; done || lia.
Qed.

Lemma split_parts_tidy (sep : ascii) (v : string) : Forall tidy (split_parts sep v).
Proof.
  unfold split_parts. apply Forall_fmap, Forall_forall. intros p Hp.
  apply list_elem_of_filter in Hp as [Hne _]. split; [done|apply strip_idem].
Qed.

Lemma split_on_shape (sep : ascii) (v : string) (parts : list string) :
  split_on sep v = Some parts → 2 ≤ length parts ∧ Forall tidy parts.
Proof.
  rewrite split_on_spec. case_decide; [|done]. intros [= <-].
  split; [done|apply split_parts_tidy].
Qed.

Lemma maybe_split_list_ok (v : string) : list_cell_ok (_maybe_split_list (CStr v)).
Proof.
  unfold _maybe_split_list.
  destruct (split_on ";" v) as [parts|] eqn:E1; [by apply split_on_shape in E1|].
  destruct (split_on "," v) as [parts|] eqn:E2; [by apply split_on_shape in E2|].
  done.
Qed.

(** ** Rows built by [_extract_table] *)

Section table_rows.
Context `{Slugify}.

Lemma cell_step_ok st ic :
  map_Forall (λ _, list_cell_ok) st.2 →
  map_Forall (λ _, list_cell_ok) (Extract.cell_step st ic).2.
Proof.
  destruct st as [nm row_data], ic as [idx cell]. simpl. intros Hrow.
  apply map_Forall_insert_2; [apply maybe_split_list_ok|done].
Qed.

Lemma cells_fold_ok ics : ∀ st,
  map_Forall (λ _, list_cell_ok) st.2 →
  map_Forall (λ _, list_cell_ok) (fold_left Extract.cell_step ics st).2.
Proof.
  induction ics as [|ic ics IH]; intros st Hst; [done|].
  simpl. by apply IH, cell_step_ok.
Qed.

Lemma row_step_ok st row :
  Forall (map_Forall (λ _, list_cell_ok)) st.2 →
  Forall (map_Forall (λ _, list_cell_ok)) (Extract.row_step st row).2.
Proof.
  destruct st as [nm body_rows]. unfold Extract.row_step. intros Hrows.
  destruct (find_all ["td"; "th"] row) as [|c cells]; [done|].
  set (ics := combine _ _).
  pose proof (cells_fold_ok ics (nm, ∅) (map_Forall_empty _)) as Hrow.
  destruct (fold_left Extract.cell_step ics (nm, ∅)) as [nm' row_data].
  case_decide; [done|]. simpl in *. apply Forall_app. split; [done|].
  by apply Forall_singleton.
Qed.

Lemma rows_fold_ok trs : ∀ st,
  Forall (map_Forall (λ _, list_cell_ok)) st.2 →
  Forall (map_Forall (λ _, list_cell_ok)) (fold_left Extract.row_step trs st).2.
Proof.
  induction trs as [|tr trs IH]; intros st Hst; [done|].
  simpl. by apply IH, row_step_ok.
Qed.

Lemma extract_table_rows_ok (table : node) :
  Forall (map_Forall (λ _, list_cell_ok)) (rows (table_data (_extract_table table))).
Proof.
  unfold _extract_table.
  destruct (Extract.header_cells table) as [[cells table'] detached].
  set (nm := fold_left Extract.header_step cells _).
  pose proof (rows_fold_ok (find_all ["tr"] table') (nm, []) (Forall_nil_2 _)) as Hrows.
  by destruct (fold_left Extract.row_step _ _) as [nm' body_rows].
Qed.

End table_rows.


Module SentenceFacts.
Import SentenceSpec.

#[local] Arguments Ascii.eqb : simpl never.

(** *** Character classes *)

Ltac by_cases_on_char c :=
  destruct c as [[] [] [] [] [] [] [] []]; vm_compute; (done || congruence).

Lemma terminator_not_space c : is_terminator c = true → isspace c = false.
Proof. by_cases_on_char c. Qed.

Lemma upper_or_digit_not_space c : is_upper_or_digit c = true → isspace c = false.
Proof. by_cases_on_char c. Qed.

Lemma space_not_upper_or_digit c : isspace c = true → is_upper_or_digit c = false.
Proof. by_cases_on_char c. Qed.

Lemma digit_not_dot c : is_digit c = true → Ascii.eqb "." c = false.
Proof. by_cases_on_char c. Qed.

(** *** Runs of a class *)

Lemma span_eq p s : (span p s).1 +:+ (span p s).2 = s.
Proof.
  induction s as [|c s IH]; [done|]. simpl.
  destruct (p c); [|done]. destruct (span p s) as [run rest]. simpl in *.
  by rewrite app_str_cons, IH.
Qed.

Lemma span_every p s : every p (span p s).1 = true.
Proof.
  induction s as [|c s IH]; [done|]. simpl.
  destruct (p c) eqn:Ep; [|done]. destruct (span p s) as [run rest]. simpl in *.
  by rewrite Ep, IH.
Qed.

Lemma span_app p run rest :
  every p run = true →
  match rest with EmptyString => True | String d _ => p d = false end →
  span p (run +:+ rest) = (run, rest).
Proof.
  intros Hrun Hrest. induction run as [|c run IH].
  - rewrite app_str_nil_l. destruct rest as [|d r]; [done|]. simpl. by rewrite Hrest.
  - simpl in Hrun. apply andb_true_iff in Hrun as [Hc Hrun].
    rewrite app_str_cons. simpl. by rewrite Hc, IH.
Qed.


(** *** Greedy repetition when the continuation rejects the class *)

Lemma many_run p k :
  (∀ prev c s, p c = true → k prev (String c s) = None) →
  ∀ s lo prev,
    Re.many p k lo None prev s =
      if lo <=? String.length (span p s).1
      then k (last_char prev (span p s).1) (span p s).2 else None.
Proof.
  intros Hk. induction s as [|c s IH]; intros lo prev.
  - simpl. by destruct lo.
  - simpl. destruct (p c) eqn:Ep; simpl.
    + rewrite IH. destruct (span p s) as [run rest]. simpl.
      destruct lo as [|lo]; simpl.
      * destruct (k (last_char (Some c) run) rest); [done|]. by apply Hk.
      * by destruct (lo <=? String.length run), (k (last_char (Some c) run) rest).
    + by destruct lo.
Qed.

(** *** The two patterns *)

Lemma splitter_match prev s :
  Re.match_here _sentence_splitter prev s =
    match prev with
    | Some c =>
        if is_terminator c then
          match (span isspace s).1, (span isspace s).2 with
          | String _ _, String d r => if is_upper_or_digit d then Some (String d r) else None
          | _, _ => None
          end
        else None
    | None => None
    end.
Proof.
  unfold _sentence_splitter. cbn [Re.match_here].
  destruct prev as [c|]; [|done]. destruct (is_terminator c); [|done].
  rewrite many_run.
  - by destruct (span isspace s) as [[|w run] [|d r]].
  - intros prev' d r Hd. simpl. by rewrite space_not_upper_or_digit.
Qed.

Lemma splitter_match_boundary prev s rest :
  Re.match_here _sentence_splitter prev s = Some rest →
  ∃ gap, boundary prev s gap rest.
Proof.
  rewrite splitter_match. destruct prev as [c|]; [|done].
  destruct (is_terminator c) eqn:Ec; [|done].
  pose proof (span_eq isspace s) as Heq. pose proof (span_every isspace s) as Hev.
  destruct (span isspace s) as [[|w run] [|d r]]; simpl in *; try done.
  destruct (is_upper_or_digit d) eqn:Ed; [|done]. intros [= <-].
  exists (String w run). repeat split; eauto.
Qed.

Lemma boundary_span prev s gap rest :
  boundary prev s gap rest → span isspace s = (gap, rest).
Proof.
  intros (_ & -> & _ & Hgap & d & r & -> & Hd).
  apply span_app; [done|]. by apply upper_or_digit_not_space.
Qed.

Lemma boundary_match prev s gap rest :
  boundary prev s gap rest → Re.match_here _sentence_splitter prev s = Some rest.
Proof.
  intros Hb. rewrite splitter_match, (boundary_span _ _ _ _ Hb).
  destruct Hb as ((c & -> & Hc) & _ & Hne & _ & d & r & -> & Hd).
  rewrite Hc. simpl. destruct gap; [done|]. by rewrite Hd.
Qed.

Lemma numbered_line_marker line :
  Re.matches numbered_line line = true ↔
  ∃ digits r, digits ≠ "" ∧ every is_digit digits = true ∧ line = digits +:+ "." +:+ r.
Proof.
  unfold Re.matches, numbered_line. cbn [Re.match_here].
  rewrite many_run by (intros prev c s Hc; cbn [Re.match_here]; by rewrite digit_not_dot).
  split.
  - pose proof (span_eq is_digit line) as Heq. pose proof (span_every is_digit line) as Hev.
    destruct (span is_digit line) as [[|w run] [|d r]]; simpl in *; try done.
    destruct (Ascii.eqb_spec "." d) as [<-|]; [|done]. intros _.
    exists (String w run), r. by rewrite <- Heq.
  - intros (digits & r & Hne & Hev & ->).
    rewrite (span_app is_digit digits ("." +:+ r)) by done. simpl.
    by destruct digits.
Qed.

Lemma bullet_marker line :
  starts_with_bullet line = true ↔ ∃ c r, line = String c r ∧ c ∈ ["-"; "*"; "+"; ">"]%char.
Proof.
  destruct line as [|c r]; simpl.
  - split; [done|]. by intros (? & ? & ? & _).
  - rewrite bool_decide_eq_true. split; [by exists c, r|]. by intros (? & ? & [= <- <-] & ?).
Qed.

Lemma list_marker_code line :
  starts_with_bullet line || Re.matches numbered_line line = true ↔ list_marker line.
Proof.
  unfold list_marker. by rewrite orb_true_iff, bullet_marker, numbered_line_marker.
Qed.


(** *** [Re.split] cuts at the boundaries *)

Lemma split_go_skip re gap : ∀ prev rest,
  Re.split_go re (String.length gap) prev (gap +:+ rest) =
  Re.split_go re 0 (last_char prev gap) rest.
Proof.
  induction gap as [|c gap IH]; intros prev rest; [done|].
  rewrite app_str_cons. simpl. apply IH.
Qed.

Lemma cuts_nonempty prev s pieces : cuts prev s pieces → pieces ≠ [].
Proof. by destruct 1. Qed.

Lemma split_go_cuts n : ∀ s prev,
  String.length s ≤ n → cuts prev s (Re.split_go _sentence_splitter 0 prev s).
Proof.
  induction n as [|n IH]; intros s prev Hlen.
  { destruct s; [constructor|simpl in Hlen; lia]. }
  destruct s as [|c s]; [constructor|]. simpl in Hlen.
  assert (cuts prev (String c s)
            match Re.split_go _sentence_splitter 0 (Some c) s with
            | [] => [String c ""]
            | piece :: pieces => String c piece :: pieces
            end ∨ ∃ gap rest, boundary prev (String c s) gap rest) as Hkeep.
  { destruct (Re.match_here _sentence_splitter prev (String c s)) as [rest|] eqn:Em.
    - right. apply splitter_match_boundary in Em as [gap Hb]. eauto.
    - left. pose proof (IH s (Some c) ltac:(lia)) as Hs.
      destruct (Re.split_go _sentence_splitter 0 (Some c) s) as [|piece pieces] eqn:Es.
      { by apply cuts_nonempty in Hs. }
      apply cuts_char; [|done]. intros gap rest Hb.
      apply boundary_match in Hb. congruence. }
  cbn [Re.split_go].
  destruct (Re.match_here _sentence_splitter prev (String c s)) as [rest|] eqn:Em.
  - pose proof Em as Em'. apply splitter_match_boundary in Em' as [gap Hb].
    pose proof Hb as (_ & Hs & Hne & _ & _).
    destruct gap as [|w gap]; [done|]. rewrite app_str_cons in Hs.
    injection Hs as <- ->.
    replace (String.length (String c (gap +:+ rest)) - String.length rest)
      with (S (String.length gap)) by (simpl; rewrite length_app_str; lia).
    eapply cuts_gap; [exact Hb|].
    rewrite split_go_skip. cbn [last_char].
    apply IH. rewrite length_app_str in Hlen. lia.
  - destruct Hkeep as [Hkeep|(gap & rest & Hb)]; [done|].
    apply boundary_match in Hb. congruence.
Qed.

Lemma split_cuts line : cuts None line (Re.split _sentence_splitter line).
Proof. by apply (split_go_cuts (String.length line)). Qed.

(** *** The pieces of a stripped line need no further stripping *)

Lemma rstrip_tail c s : rstrip (String c s) = String c s → rstrip s = s.
Proof.
  simpl. destruct (rstrip s) as [|d r] eqn:Er.
  - destruct (isspace c); [done|]. by intros [= <-].
  - by intros [= <-].
Qed.

Lemma rstrip_suffix a b : rstrip (a +:+ b) = a +:+ b → rstrip b = b.
Proof.
  induction a as [|c a IH]; [done|]. rewrite app_str_cons. intros H.
  by apply IH, (rstrip_tail c).
Qed.

Lemma rstrip_cons c s : s ≠ "" → rstrip s = s → rstrip (String c s) = String c s.
Proof. intros Hne Hs. simpl. rewrite Hs. by destruct s. Qed.

Lemma rstrip_single c : isspace c = false → rstrip (String c "") = String c "".
Proof. intros Hc. simpl. by rewrite Hc. Qed.

Lemma every_head p c s : every p (String c s) = true → p c = true.
Proof. simpl. by intros [? _]%andb_true_iff. Qed.

(** What [cuts] guarantees about the pieces of a string without trailing
    whitespace: all but the first are tidy; the first has no trailing
    whitespace, starts like the string does, and is empty only at the end
    of the string or right at a boundary. *)
Lemma cuts_pieces prev s pieces :
  cuts prev s pieces → rstrip s = s →
  ∃ piece others, pieces = piece :: others
    ∧ Forall tidy others
    ∧ rstrip piece = piece
    ∧ (∀ c s', s = String c s' → isspace c = false → ∃ r, piece = String c r)
    ∧ (piece = "" → s = "" ∨ ∃ c, prev = Some c ∧ is_terminator c = true).
Proof.
  induction 1 as [prev|prev c s piece pieces Hnb Hcuts IH|prev s gap rest pieces Hb Hcuts IH];
    intros Hr.
  - exists "", []. repeat split; auto. by intros.
  - destruct (IH (rstrip_tail _ _ Hr)) as (piece' & others & [= <- <-] & Htidy & Hrp & _ & Hempty).
    exists (String c piece), pieces. repeat split; auto.
    + destruct piece as [|d piece]; [|by apply rstrip_cons].
      apply rstrip_single. destruct Hempty as [->|(c' & [= <-] & Hc)]; [done| |].
      * simpl in Hr. by destruct (isspace c).
      * by apply terminator_not_space.
    + intros c' s' [= <- <-] _. by exists piece.
    + done.
  - pose proof Hb as (Hprev & -> & Hne & Hgap & d & r & -> & Hd).
    destruct (IH (rstrip_suffix _ _ Hr)) as (piece & others & -> & Htidy & Hrp & Hhead & _).
    destruct (Hhead d r eq_refl (upper_or_digit_not_space d Hd)) as [r' ->].
    exists "", (String d r' :: others). repeat split; auto.
    + apply Forall_cons. split; [|done]. split; [done|].
      unfold strip. by rewrite lstrip_head by by apply upper_or_digit_not_space.
    + intros c s' Hs Hc. destruct gap as [|w gap]; [done|].
      rewrite app_str_cons in Hs. injection Hs as <- _.
      apply every_head in Hgap. congruence.
Qed.

Lemma cuts_tidy line pieces :
  tidy line → cuts None line pieces → Forall tidy pieces.
Proof.
  intros [Hne Hst] Hcuts. apply strip_fixed in Hst as [Hl Hr].
  destruct (cuts_pieces _ _ _ Hcuts Hr) as (piece & others & -> & Htidy & Hrp & Hhead & _).
  apply Forall_cons. split; [|done].
  destruct line as [|c line]; [done|]. simpl in Hl.
  destruct (isspace c) eqn:Ec.
  { pose proof (lstrip_length line). rewrite Hl in *. simpl in *. lia. }
  destruct (Hhead c line eq_refl Ec) as [r ->]. split; [done|].
  unfold strip. by rewrite lstrip_head.
Qed.

Lemma tidy_pieces_kept (pieces : list string) :
  Forall tidy pieces →
  strip <$> filter (λ segment, strip segment ≠ "") pieces = pieces.
Proof.
  induction 1 as [|piece pieces [Hne Hst] _ IH]; [done|].
  rewrite filter_cons_True by by rewrite Hst.
  by rewrite fmap_cons, Hst, IH.
Qed.

(** *** A line without boundary is one piece *)

Lemma cuts_whole prev s pieces :
  cuts prev s pieces →
  (∀ before after gap rest,
     s = before +:+ after → ¬ boundary (last_char prev before) after gap rest) →
  pieces = [s].
Proof.
  induction 1 as [prev|prev c s piece pieces Hnb Hcuts IH|prev s gap rest pieces Hb Hcuts IH];
    intros Hnone.
  - done.
  - assert (piece :: pieces = [s]) as [= -> ->]; [|done].
    apply IH. intros before after gap rest -> Hb.
    by apply (Hnone (String c before) after gap rest).
  - by destruct (Hnone "" s gap rest).
Qed.

(** *** One line *)

Lemma sentence_step_units lines raw :
  ∃ units, line_units raw units ∧ sentence_step lines raw = lines ++ units.
Proof.
  unfold sentence_step. destruct (strip raw) as [|c line] eqn:Eline.
  { exists []. split; [by constructor|]. cbn. by rewrite app_nil_r. }
  rewrite <- Eline. replace (negb (nonempty (strip raw))) with false by by rewrite Eline.
  assert (tidy (strip raw)) as Htidy.
  { split; [by rewrite Eline|apply strip_idem]. }
  destruct (starts_with_bullet (strip raw) || Re.matches numbered_line (strip raw)) eqn:Em.
  - exists [strip raw]. split; [|done].
    apply units_marker; [by rewrite Eline|by apply list_marker_code].
  - pose proof (split_cuts (strip raw)) as Hcuts.
    rewrite (tidy_pieces_kept _ (cuts_tidy _ _ Htidy Hcuts)).
    exists (Re.split _sentence_splitter (strip raw)). split.
    + apply units_prose; [by rewrite Eline| |done].
      rewrite <- list_marker_code. by rewrite Em.
    + destruct (Re.split _ _) eqn:Es; [|done].
      by apply cuts_nonempty in Hcuts.
Qed.

Lemma sentence_fold_units raws : ∀ lines,
  ∃ units, Forall2 line_units raws units
    ∧ fold_left sentence_step raws lines = lines ++ concat units.
Proof.
  induction raws as [|raw raws IH]; intros lines.
  - exists []. split; [constructor|]. by rewrite app_nil_r.
  - destruct (sentence_step_units lines raw) as (us & Hus & Hstep).
    destruct (IH (sentence_step lines raw)) as (uss & Huss & Hfold).
    exists (us :: uss). split; [by constructor|].
    simpl. by rewrite Hfold, Hstep, <- app_assoc.
Qed.

Lemma sentence_step_whole lines raw :
  strip raw ≠ "" → ¬ boundary_inside (strip raw) →
  sentence_step lines raw = lines ++ [strip raw].
Proof.
  intros Hne Hnone.
  destruct (sentence_step_units lines raw) as (units & Hunits & ->). f_equal.
  destruct Hunits as [Hblank|_ _|pieces _ _ Hcuts]; [done|done|].
  apply (cuts_whole _ _ _ Hcuts). intros before after gap rest Hs Hb.
  apply Hnone. by exists before, after, gap, rest.
Qed.


(** *** The boundary relation determines the pieces *)




End SentenceFacts.

(** ** Chunk identifiers *)

Lemma contains_app c s t : contains c (s +:+ t) = contains c s || contains c t.
Proof.
  induction s as [|d s IH]; [done|]. rewrite app_str_cons. simpl.
  by rewrite IH, orb_assoc.
Qed.

Lemma after_last_app c s t :
  contains c t = false → after_last c (s +:+ String c t) = t.
Proof.
  intros Ht. induction s as [|d s IH].
  - rewrite app_str_nil_l. simpl. by rewrite Ht, Ascii.eqb_refl.
  - rewrite app_str_cons. simpl. rewrite contains_app. simpl.
    by rewrite Ascii.eqb_refl, orb_true_r.
Qed.

Lemma pretty_N_char_not_hash x : pretty_N_char x ≠ "#"%char.
Proof. unfold pretty_N_char. by repeat case_match. Qed.

Lemma pretty_N_go_no_hash x : ∀ s,
  contains "#" s = false → contains "#" (pretty_N_go x s) = false.
Proof.
  induction (N.lt_wf_0 x) as [x _ IH]. intros s Hs.
  destruct (decide (x = 0)%N) as [->|Hx]; [by rewrite pretty_N_go_0|].
  rewrite pretty_N_go_step by lia. apply IH; [apply N.div_lt; lia|].
  simpl. rewrite Hs, orb_false_r.
  apply Ascii.eqb_neq, pretty_N_char_not_hash.
Qed.

Lemma pretty_nat_no_hash (n : nat) : contains "#" (pretty n) = false.
Proof.
  unfold pretty, pretty_nat, pretty, pretty_N.
  case_decide; [done|]. by apply pretty_N_go_no_hash.
Qed.

Lemma chunk_id_rank doc_id (c1 c2 : Chunk.t) :
  chunk_id_of doc_id c1 = chunk_id_of doc_id c2 → Chunk.rank c1 = Chunk.rank c2.
Proof.
  unfold chunk_id_of. intros Heq.
  apply (f_equal (after_last "#")) in Heq.
  rewrite <- !(app_str_assoc _ _ ("#" +:+ _)), <- !(app_str_assoc doc_id) in Heq.
  change ("#" +:+ ?t) with (String "#" t) in Heq.
  rewrite !after_last_app in Heq by apply pretty_nat_no_hash.
  by apply (inj pretty) in Heq.
Qed.

(** ** The chunking pass of [build_document] *)

Section assembler.
Context `{Slugify} `{Sha256}.

Lemma numbered_init doc_id : numbered doc_id (Assemble.mk [] ∅ 0).
Proof. split; simpl; try done; try constructor. Qed.

Lemma numbered_emit doc_id section keywords st chunk_text :
  numbered doc_id st → numbered doc_id (Assemble.emit doc_id section keywords st chunk_text).
Proof.
  intros [Hrank Hseq Hids Hnodup Hindex]. unfold Assemble.emit.
  set (c := Chunk.mk _ _ _ _ _ _ _).
  assert (Chunk.chunk_id c = chunk_id_of doc_id c) as Hc by done.
  split; simpl.
  - rewrite length_app. simpl. lia.
  - rewrite fmap_app, length_app, seq_app, Hseq. simpl. by rewrite Hrank.
  - apply Forall_app. split; [done|]. by apply Forall_singleton.
  - rewrite fmap_app. apply NoDup_app. split; [done|]. split; [|apply NoDup_singleton].
    intros i Hi Hi'. apply list_elem_of_singleton in Hi' as ->.
    apply list_elem_of_fmap in Hi as (c' & Hid & Hc').
    assert (Chunk.rank c' < length (Assemble.chunks st)) as Hlt.
    { assert (Chunk.rank c' ∈ Chunk.rank <$> Assemble.chunks st) as Hr
        by (apply list_elem_of_fmap; eauto).
      rewrite Hseq in Hr. apply elem_of_seq in Hr. lia. }
    rewrite Forall_forall in Hids. rewrite Hc, (Hids c' Hc') in Hid.
    apply chunk_id_rank in Hid. simpl in Hid. lia.
  - rewrite dom_insert_L, Hindex, fmap_app, list_to_set_app_L. simpl.
    rewrite (right_id_L ∅ (∪)). apply (comm_L (∪)).
Qed.

Lemma numbered_emit_all doc_id section keywords texts : ∀ st,
  numbered doc_id st →
  numbered doc_id (fold_left (Assemble.emit doc_id section keywords) texts st).
Proof.
  induction texts as [|t texts IH]; intros st Hst; [done|].
  simpl. by apply IH, numbered_emit.
Qed.

Lemma numbered_section doc_id doc_keywords st section :
  numbered doc_id st → numbered doc_id (Assemble.section_step doc_id doc_keywords st section).
Proof.
  intros Hst. unfold Assemble.section_step.
  destruct (negb _); [done|]. by apply numbered_emit_all.
Qed.

Lemma numbered_sections doc_id doc_keywords sections : ∀ st,
  numbered doc_id st →
  numbered doc_id (fold_left (Assemble.section_step doc_id doc_keywords) sections st).
Proof.
  induction sections as [|s sections IH]; intros st Hst; [done|].
  simpl. by apply IH, numbered_section.
Qed.

End assembler.


(** ** Pages *)

Lemma body_html_missing page : Page.page_body page = None → body_html page = "".
Proof. unfold body_html. by intros ->. Qed.

Lemma body_html_empty_value page :
  Page.page_body page = Some (Page.mkBody (Some (Page.mkStorage (Some "")))) →
  body_html page = "".
Proof. unfold body_html. by intros ->. Qed.


(** ** Examples *)

(** The sibling path of [_extract_table]: with the header labels in [td]
    cells the first row is taken out, and one body row remains. *)
Example extract_table_td_header_row_excluded :
  table_data (@_extract_table AsciiSlug.slug name_tags_table_td) =
    mkTable ["name"; "tags"] ["Name"; "Tags"]
      [ {[ "name" := CStr "Widget"; "tags" := CList ["red"; "blue"] ]} ].
Proof. by vm_compute. Qed.

(** Two sections with the same id: the rank keeps counting, and the
    identifiers differ. *)
Example shared_section_id_chunks :
  Chunk.chunk_id <$>
    (@build_document AsciiSlug.slug Plain.digest page_without_body "" two_sections ∅
       "OPS" "https://wiki" "t").1.2
  = ["OPS-home-release-notes-8765::notes#0"; "OPS-home-release-notes-8765::notes#1"].
Proof. by vm_compute. Qed.

(** ** The code against the words of the specification *)

Module WordsFacts.

Import SentenceSpec SentenceFacts SpecWords.
#[local] Arguments Ascii.eqb : simpl never.

(** *** The character classes *)

Lemma isspace_class c : isspace c = bool_decide (c ∈ whitespace).
Proof. destruct c as [[] [] [] [] [] [] [] []]; vm_compute; reflexivity. Qed.




Lemma isspace_in c : isspace c = true ↔ c ∈ whitespace.
Proof. by rewrite isspace_class, bool_decide_eq_true. Qed.

Lemma isspace_out c : isspace c = false ↔ c ∉ whitespace.
Proof. by rewrite isspace_class, bool_decide_eq_false. Qed.



Lemma none_in_contains (sep : ascii) (s : string) :
  none_in [sep] s ↔ contains sep s = false.
Proof.
  unfold none_in. induction s as [|c s IH]; cbn [list_ascii_of_string contains].
  - split; [done|constructor].
  - rewrite Forall_cons, orb_false_iff, IH, list_elem_of_singleton.
    by rewrite Ascii.eqb_neq.
Qed.


(** *** [strip] *)

Lemma lstrip_blank (l s : string) : all_in whitespace l → lstrip (l +:+ s) = lstrip s.
Proof.
  unfold all_in. induction l as [|c l IH]; [by rewrite app_str_nil_l|].
  cbn [list_ascii_of_string]. intros [Hc Hl]%Forall_cons.
  rewrite app_str_cons. cbn [lstrip]. apply isspace_in in Hc. rewrite Hc. by apply IH.
Qed.

Lemma rstrip_blank (r : string) : all_in whitespace r → rstrip r = "".
Proof.
  unfold all_in. induction r as [|c r IH]; [done|].
  cbn [list_ascii_of_string]. intros [Hc Hr]%Forall_cons.
  cbn [rstrip]. rewrite IH by done. apply isspace_in in Hc. by rewrite Hc.
Qed.

Lemma lstrip_all_blank (l : string) : all_in whitespace l → lstrip l = "".
Proof.
  intros Hl. rewrite <- (app_str_nil_r l). by rewrite lstrip_blank.
Qed.

Lemma snoc_cases (t : string) : t = "" ∨ ∃ u c, t = u +:+ String c "".
Proof.
  induction t as [|d t IH]; [by left|]. right.
  destruct IH as [->|(u & c & ->)].
  - by exists "", d.
  - exists (String d u), c. by rewrite app_str_cons.
Qed.

Lemma trimmed_strip (s t : string) : trimmed s t → strip s = t.
Proof.
  intros (l & r & -> & Hl & Hr & Hhead & Hlast). unfold strip.
  rewrite lstrip_blank by done.
  destruct t as [|c u].
  { rewrite app_str_nil_l, lstrip_all_blank by done. done. }
  rewrite app_str_cons, lstrip_head by (apply isspace_out; by eapply Hhead).
  rewrite <- app_str_cons.
  destruct (snoc_cases (String c u)) as [|(v & d & Hv)]; [done|].
  rewrite Hv, app_str_assoc, app_str_cons, app_str_nil_l.
  assert (rstrip (String d r) = String d "") as Hd.
  { cbn [rstrip]. rewrite rstrip_blank by done.
    assert (isspace d = false) as -> by (apply isspace_out; by eapply Hlast). done. }
  rewrite rstrip_app; rewrite Hd; done.
Qed.

Lemma lstrip_split (s : string) :
  ∃ l, s = l +:+ lstrip s ∧ all_in whitespace l.
Proof.
  induction s as [|c s (l & Hs & Hl)]; [by exists ""; split; [|constructor]|].
  cbn [lstrip]. destruct (isspace c) eqn:Ec.
  - exists (String c l). rewrite app_str_cons, <- Hs. split; [done|].
    unfold all_in. cbn. apply Forall_cons. split; [by apply isspace_in|done].
  - exists "". split; [by rewrite app_str_nil_l|constructor].
Qed.

Lemma rstrip_split (s : string) :
  ∃ r, s = rstrip s +:+ r ∧ all_in whitespace r
       ∧ ∀ u c, rstrip s = u +:+ String c "" → c ∉ whitespace.
Proof.
  induction s as [|c s (r & Hs & Hr & Hlast)].
  { exists "". split; [done|]. split; [constructor|]. intros u c Hu. by destruct u. }
  cbn [rstrip]. destruct (rstrip s) as [|d t] eqn:Et.
  - rewrite app_str_nil_l in Hs. subst r. destruct (isspace c) eqn:Ec.
    + exists (String c s). split; [by rewrite app_str_nil_l|]. split.
      * unfold all_in. cbn. apply Forall_cons. split; [by apply isspace_in|done].
      * intros u c' Hu. by destruct u.
    + exists s. split; [by rewrite app_str_cons, app_str_nil_l|]. split; [done|].
      intros u c' Hu. destruct u as [|e u].
      * rewrite app_str_nil_l in Hu. injection Hu as <-. by apply isspace_out.
      * rewrite app_str_cons in Hu. injection Hu as _ Hu. by destruct u.
  - exists r. split; [by rewrite app_str_cons, <- Hs|]. split; [done|].
    intros u c' Hu. destruct u as [|e u].
    + rewrite app_str_nil_l in Hu. discriminate Hu.
    + rewrite app_str_cons in Hu. injection Hu as _ Hu. by apply (Hlast u c').
Qed.

Lemma strip_trimmed (s : string) : trimmed s (strip s).
Proof.
  unfold strip. destruct (lstrip_split s) as (l & Hs & Hl).
  destruct (rstrip_split (lstrip s)) as (r & Hr & Hrb & Hlast).
  exists l, r. split; [by rewrite <- Hr|]. split; [done|]. split; [done|].
  split; [|done]. intros c u Hu.
  destruct (lstrip_head_cases s) as [He|(d & t & He & Hd)].
  - rewrite He in Hu. discriminate Hu.
  - rewrite He in Hu. destruct (rstrip_keeps_head d t Hd) as [t' Ht'].
    rewrite Ht' in Hu. injection Hu as <- _. by apply isspace_out.
Qed.


Lemma trimmed_all (ps ts : list string) : Forall2 trimmed ps ts → ts = strip <$> ps.
Proof.
  induction 1 as [|p t ps ts Hp _ IH]; [done|].
  rewrite fmap_cons, <- IH. f_equal. symmetry. by apply trimmed_strip.
Qed.

Lemma strip_all (ps : list string) : Forall2 trimmed ps (strip <$> ps).
Proof. induction ps; constructor; [apply strip_trimmed|done]. Qed.

(** *** The pieces and the parts of a cell value *)

Lemma concat_cons2 (sep p q : string) (ps : list string) :
  String.concat sep (p :: q :: ps) = p +:+ sep +:+ String.concat sep (q :: ps).
Proof. done. Qed.

Lemma pieces_split (sep : ascii) (value : string) : pieces sep value (split sep value).
Proof.
  unfold pieces. induction value as [|c value (Hne & Hv & Hall)].
  { split; [done|]. split; [done|]. by repeat constructor. }
  cbn [split]. destruct (Ascii.eqb_spec c sep) as [->|Hc].
  - split; [done|]. split.
    + destruct (split sep value) as [|p ps]; [done|].
      rewrite concat_cons2, app_str_nil_l, app_str_cons, app_str_nil_l. by rewrite <- Hv.
    + apply Forall_cons. split; [constructor|done].
  - destruct (split sep value) as [|p ps]; [done|].
    apply Forall_cons in Hall as [Hp Hps]. split; [done|]. split.
    + destruct ps as [|q ps]; [cbn in *; by rewrite Hv|].
      rewrite concat_cons2 in *. by rewrite app_str_cons, <- Hv.
    + apply Forall_cons. split; [|done].
      unfold none_in. cbn [list_ascii_of_string]. apply Forall_cons. split; [|done].
      by intros ->%list_elem_of_singleton.
Qed.

Lemma pieces_unique (sep : ascii) (value : string) (ps : list string) :
  pieces sep value ps → ps = split sep value.
Proof.
  intros (Hne & -> & Hall). induction ps as [|p ps IH]; [done|].
  apply Forall_cons in Hall as [Hp Hps]. apply none_in_contains in Hp.
  destruct ps as [|q ps].
  - cbn. symmetry. by apply split_clean.
  - rewrite concat_cons2, app_str_cons, app_str_nil_l, split_app by done.
    f_equal. by apply IH.
Qed.

Lemma filter_strip (ps : list string) :
  filter (λ t, t ≠ "") (strip <$> ps) = strip <$> filter (λ p, strip p ≠ "") ps.
Proof.
  induction ps as [|p ps IH]; [done|].
  rewrite fmap_cons, !filter_cons, IH. by destruct (decide (strip p ≠ "")).
Qed.

Lemma parts_spec (sep : ascii) (value : string) (qs : list string) :
  parts sep value qs ↔ qs = split_parts sep value.
Proof.
  unfold parts, split_parts. split.
  - intros (ps & ts & ->%pieces_unique & ->%trimmed_all & ->). apply filter_strip.
  - intros ->. exists (split sep value), (strip <$> split sep value).
    split; [apply pieces_split|]. split; [apply strip_all|]. symmetry. apply filter_strip.
Qed.

End WordsFacts.


(** ** The sentence splitter against the words of the specification *)

Module SentenceWords.

Import SentenceSpec SentenceFacts WordsFacts.
#[local] Arguments Ascii.eqb : simpl never.







(** *** Boundaries and cuts *)








(** *** The units of a line *)








(** *** The lines *)






(** *** A line without boundary *)



End SentenceWords.

(** ** More on [build_document] *)

Module AssembleFacts.
Import AssembleInv.

Lemma sorted_spec (keywords : gset string) :
  StronglySorted String.le (sorted keywords)
  ∧ NoDup (sorted keywords)
  ∧ ∀ k, k ∈ sorted keywords ↔ k ∈ keywords.
Proof.
  unfold sorted. split_and!.
  - apply StronglySorted_merge_sort; apply _.
  - rewrite merge_sort_Permutation. apply NoDup_elements.
  - intros k. rewrite merge_sort_Permutation. apply elem_of_elements.
Qed.

Section with_libraries.
Context `{Slugify} `{Sha256}.

(** *** The index *)

Lemma indexed_emit doc_id section keywords st chunk_text :
  numbered doc_id st → indexed st →
  indexed (Assemble.emit doc_id section keywords st chunk_text).
Proof.
  intros Hnum Hidx.
  pose proof (numbered_emit doc_id section keywords st chunk_text Hnum) as [_ _ _ Hnodup _].
  unfold indexed in Hidx. revert Hnodup. unfold indexed, Assemble.emit. cbn [Assemble.chunks Assemble.chunk_index].
  set (c0 := Chunk.mk _ _ _ _ _ _ _). intros Hnodup.
  rewrite fmap_app in Hnodup. apply NoDup_app in Hnodup as (_ & Hfresh & _).
  apply Forall_app. split.
  - rewrite Forall_forall in Hidx |- *. intros c Hc. destruct (Hidx c Hc) as [Hlook Hhash].
    split; [|done]. rewrite lookup_insert_ne; [done|].
    intros Heq. apply (Hfresh (Chunk.chunk_id c)).
    + apply list_elem_of_fmap. eauto.
    + rewrite <- Heq. apply list_elem_of_singleton. done.
  - apply Forall_singleton. split; [|done]. apply lookup_insert_eq.
Qed.

Lemma numbered_indexed_emit_all doc_id section keywords texts : ∀ st,
  numbered doc_id st → indexed st →
  indexed (fold_left (Assemble.emit doc_id section keywords) texts st).
Proof.
  induction texts as [|t texts IH]; intros st Hnum Hidx; [done|].
  simpl. apply IH; [by apply numbered_emit|by apply indexed_emit].
Qed.

Lemma indexed_sections doc_id doc_keywords sections : ∀ st,
  numbered doc_id st → indexed st →
  indexed (fold_left (Assemble.section_step doc_id doc_keywords) sections st).
Proof.
  induction sections as [|s sections IH]; intros st Hnum Hidx; [done|].
  simpl. apply IH; [by apply numbered_section|].
  unfold Assemble.section_step. destruct (negb _); [done|].
  by apply numbered_indexed_emit_all.
Qed.

(** *** Texts, section by section *)

Lemma emit_all_texts doc_id section keywords texts : ∀ st,
  labelled <$> Assemble.chunks (fold_left (Assemble.emit doc_id section keywords) texts st)
  = (labelled <$> Assemble.chunks st) ++ ((λ text, (Sec.id section, text)) <$> texts).
Proof.
  induction texts as [|t texts IH]; intros st.
  - by rewrite app_nil_r.
  - cbn [fold_left]. rewrite IH. unfold Assemble.emit. cbn [Assemble.chunks].
    rewrite fmap_app, <- (assoc_L (++)). done.
Qed.

Lemma section_step_texts doc_id doc_keywords st section :
  labelled <$> Assemble.chunks (Assemble.section_step doc_id doc_keywords st section)
  = (labelled <$> Assemble.chunks st) ++ section_texts section.
Proof.
  unfold Assemble.section_step, section_texts.
  destruct (nonempty (strip (Sec.body_md section))); cbn [negb].
  - apply emit_all_texts.
  - by rewrite app_nil_r.
Qed.

Lemma sections_texts doc_id doc_keywords sections : ∀ st,
  labelled <$> Assemble.chunks (fold_left (Assemble.section_step doc_id doc_keywords) sections st)
  = (labelled <$> Assemble.chunks st) ++ flat_map section_texts sections.
Proof.
  induction sections as [|s sections IH]; intros st.
  - by rewrite app_nil_r.
  - cbn [fold_left flat_map]. by rewrite IH, section_step_texts, <- (assoc_L (++)).
Qed.

Lemma attach_tables_fields table_mapping section :
  let section' := Assemble.attach_tables table_mapping section in
  Sec.id section' = Sec.id section ∧ Sec.title section' = Sec.title section
  ∧ Sec.body_md section' = Sec.body_md section ∧ Sec.anchors section' = Sec.anchors section.
Proof.
  unfold Assemble.attach_tables.
  by destruct (table_mapping !! Sec.id section) as [[|t ts]|].
Qed.

Lemma attach_tables_texts table_mapping section :
  section_texts (Assemble.attach_tables table_mapping section) = section_texts section.
Proof.
  destruct (attach_tables_fields table_mapping section) as (Hid & _ & Hbody & _).
  unfold section_texts. by rewrite Hid, Hbody.
Qed.

(** *** Where a chunk comes from *)

Lemma emit_all_origin doc_id doc_keywords section keywords texts (sections : list Sec.t) : ∀ st,
  section ∈ sections → strip (Sec.body_md section) ≠ "" →
  keywords = doc_keywords ∪ {[ slugify_text (Sec.title section) "-" ]}
                          ∪ {[ "sandbox"; "production" ]} →
  Forall (λ c, ∃ s, s ∈ sections ∧ emitted_for doc_keywords s c) (Assemble.chunks st) →
  Forall (λ c, ∃ s, s ∈ sections ∧ emitted_for doc_keywords s c)
         (Assemble.chunks (fold_left (Assemble.emit doc_id section keywords) texts st)).
Proof.
  induction texts as [|t texts IH]; intros st Hin Hbody Hkw Hst; [done|].
  cbn [fold_left]. apply IH; try done. unfold Assemble.emit. cbn [Assemble.chunks].
  apply Forall_app. split; [done|]. apply Forall_singleton.
  exists section. split; [done|]. by rewrite Hkw.
Qed.

Lemma sections_origin doc_id doc_keywords (all : list Sec.t) sections : ∀ st,
  sections ⊆ all →
  Forall (λ c, ∃ s, s ∈ all ∧ emitted_for doc_keywords s c) (Assemble.chunks st) →
  Forall (λ c, ∃ s, s ∈ all ∧ emitted_for doc_keywords s c)
         (Assemble.chunks (fold_left (Assemble.section_step doc_id doc_keywords) sections st)).
Proof.
  induction sections as [|s sections IH]; intros st Hsub Hst; [done|].
  cbn [fold_left]. apply IH.
  { intros x Hx. apply Hsub. by apply list_elem_of_further. }
  unfold Assemble.section_step.
  destruct (strip (Sec.body_md s)) as [|b body] eqn:Ebody; [done|]. cbn [nonempty negb].
  apply (emit_all_origin doc_id doc_keywords s _ _ all); try done.
  - apply Hsub. apply list_elem_of_here.
  - by rewrite Ebody.
Qed.

End with_libraries.
End AssembleFacts.


(** ** More on [chunk_sentences] *)

Module ChunkerMore.
Import Chunker ChunkInv.

Lemma groups_count (groups : list (list string)) :
  Forall (λ g, g ≠ []) groups → length groups ≤ length (concat groups).
Proof.
  induction 1 as [|g groups Hg _ IH]; [done|].
  simpl. rewrite length_app. destruct g; [done|]. simpl. lia.
Qed.

(** While the pending sentences and the next ones stay below the target,
    nothing is flushed. *)
Lemma fold_below_target target_chars max_chars rest : ∀ cur,
  target_chars ≤ max_chars + 1 →
  total (cur ++ rest) < target_chars →
  fold_left (step target_chars max_chars) rest (mk [] cur (total cur))
  = mk [] (cur ++ rest) (total (cur ++ rest)).
Proof.
  induction rest as [|s rest IH]; intros cur Hcap Hlt.
  - by rewrite app_nil_r.
  - assert (total (cur ++ [s]) < target_chars) as Hs.
    { rewrite (assoc_L (++) cur [s] rest : cur ++ s :: rest = (cur ++ [s]) ++ rest) in Hlt.
      rewrite (ChunkerFacts.total_app (cur ++ [s])) in Hlt. lia. }
    assert (total (cur ++ [s]) = total cur + (String.length s + 1)) as Hts.
    { rewrite ChunkerFacts.total_app. unfold total. simpl. lia. }
    cbn [fold_left].
    assert (step target_chars max_chars (mk [] cur (total cur)) s
            = mk [] (cur ++ [s]) (total (cur ++ [s]))) as ->.
    { unfold step. cbn [current current_len chunks].
      assert ((max_chars <? total cur + String.length s + 1) = false) as Hpre
        by (apply Nat.ltb_ge; lia).
      assert ((target_chars <=? total cur + (String.length s + 1)) = false) as Hpost
        by (apply Nat.leb_gt; lia).
      destruct cur as [|c cur]; [|rewrite Hpre]; cbn [current current_len chunks];
        rewrite Hpost; by rewrite Hts. }
    rewrite IH; [|done|by rewrite <- (assoc_L (++))].
    by rewrite <- (assoc_L (++)).
Qed.

End ChunkerMore.

(** ** The configuration *)

Module ConfigFacts.

Import ConfigInv.

Lemma arg_or_env_spec `{Environ} (arg : option string) (name : string) :
  match arg_or_env arg name with
  | Some (String c rest) => resolved arg name (String c rest)
  | _ => unset arg name
  end.
Proof.
  unfold arg_or_env, resolved, unset.
  destruct arg as [[|c rest]|]; cbn.
  - destruct (getenv name) as [[|c rest]|]; cbn; auto.
  - auto.
  - destruct (getenv name) as [[|c rest]|]; cbn; auto.
Qed.

Lemma resolved_not_unset `{Environ} (arg : option string) (name value : string) :
  resolved arg name value → ¬ unset arg name.
Proof.
  intros [Hne [-> | [_ Henv]]] [Harg Hmiss].
  - destruct value; [done|discriminate].
  - rewrite Henv in Hmiss. destruct value; [done|discriminate].
Qed.

Lemma is_missing_spec `{Environ} (arg : option string) (name : string) :
  is_missing (arg_or_env arg name) = true ↔ unset arg name.
Proof.
  pose proof (arg_or_env_spec arg name) as Hspec.
  destruct (arg_or_env arg name) as [[|c rest]|]; cbn; split; try done.
  intros Hun. by apply resolved_not_unset in Hspec.
Qed.

Lemma present_resolved `{Environ} (arg : option string) (name : string) :
  is_missing (arg_or_env arg name) ≠ true →
  arg_or_env arg name = Some (default "" (arg_or_env arg name))
  ∧ resolved arg name (default "" (arg_or_env arg name)).
Proof.
  pose proof (arg_or_env_spec arg name) as Hspec.
  destruct (arg_or_env arg name) as [[|c rest]|]; cbn; try done.
Qed.

Lemma missing_keys (config : list (string * option string)) (key : string) :
  key ∈ (filter (λ item, is_missing item.2 = true) config).*1
  ↔ ∃ value, (key, value) ∈ config ∧ is_missing value = true.
Proof.
  rewrite list_elem_of_fmap. split.
  - intros ([k v] & -> & [Hv Hin]%list_elem_of_filter). eauto.
  - intros (v & Hin & Hv). exists (key, v). split; [done|].
    by apply list_elem_of_filter.
Qed.

Lemma missing_none (config : list (string * option string)) :
  (filter (λ item, is_missing item.2 = true) config).*1 = [] →
  Forall (λ item, is_missing item.2 ≠ true) config.
Proof.
  intros Hnil%fmap_nil_inv. apply Forall_forall. intros item Hin Hmiss.
  assert (item ∈ filter (λ item, is_missing item.2 = true) config) as Hf
    by by apply list_elem_of_filter.
  rewrite Hnil in Hf. by apply elem_of_nil in Hf.
Qed.

Lemma missing_sublist (config : list (string * option string)) :
  (filter (λ item, is_missing item.2 = true) config).*1 `sublist_of` config.*1.
Proof. apply fmap_sublist, sublist_filter. Qed.

Lemma unique_value {A} (config : list (string * A)) (key : string) (v w : A) :
  NoDup config.*1 → (key, v) ∈ config → (key, w) ∈ config → v = w.
Proof.
  induction config as [|[k x] config IH]; [by intros _ ?%elem_of_nil|].
  rewrite fmap_cons. cbn [fst]. intros [Hk Hnodup]%NoDup_cons.
  rewrite !elem_of_cons. intros [Hv|Hv] [Hw|Hw].
  - congruence.
  - exfalso. apply Hk. apply list_elem_of_fmap. exists (key, w).
    split; [cbn; congruence|done].
  - exfalso. apply Hk. apply list_elem_of_fmap. exists (key, v).
    split; [cbn; congruence|done].
  - by apply IH.
Qed.

Lemma key_missing `{Environ} (config : list (string * option string))
    (key : string) (arg : option string) (name : string) :
  NoDup config.*1 →
  (key, arg_or_env arg name) ∈ config →
  key ∈ (filter (λ item, is_missing item.2 = true) config).*1 ↔ unset arg name.
Proof.
  intros Hnodup Hin. rewrite missing_keys, <- is_missing_spec. split.
  - intros (v & Hv & Hmiss). by rewrite (unique_value config key _ v Hnodup Hin Hv).
  - intros Hmiss. eauto.
Qed.

End ConfigFacts.


(** ** The index diff *)

Module DiffFacts.

Lemma filter_length_zero {A} (P : A → Prop) `{∀ x, Decision (P x)} (l : list A) :
  length (filter P l) = 0 ↔ Forall (λ x, ¬ P x) l.
Proof.
  induction l as [|x l IH]; [by split; [constructor|]|].
  rewrite filter_cons. destruct (decide (P x)) as [Hx|Hx].
  - split; [done|]. by intros [? _]%Forall_cons.
  - rewrite IH. split; [by constructor|by intros [_ ?]%Forall_cons].
Qed.

Lemma filter_all {A} (P : A → Prop) `{∀ x, Decision (P x)} (l : list A) :
  Forall P l → filter P l = l.
Proof.
  induction 1 as [|x l Hx _ IH]; [done|]. by rewrite filter_cons_True, IH.
Qed.

Lemma changed_zero (previous_index chunk_index : gmap string string) :
  changed_chunks previous_index chunk_index = 0 ↔ chunk_index ⊆ previous_index.
Proof.
  unfold changed_chunks. rewrite filter_length_zero, Forall_forall, map_subseteq_spec.
  split.
  - intros Hall cid thash Hnew.
    specialize (Hall (cid, thash)). cbn in Hall.
    destruct (decide (previous_index !! cid = Some thash)) as [|Hne]; [done|].
    destruct Hall; [by apply elem_of_map_to_list|done].
  - intros Hsub [cid thash] Hin%elem_of_map_to_list Hne. cbn in Hne.
    by apply Hne, Hsub.
Qed.

Lemma removed_zero (previous_index chunk_index : gmap string string) :
  removed_chunks previous_index chunk_index = 0 ↔ dom previous_index ⊆ dom chunk_index.
Proof.
  unfold removed_chunks. rewrite size_empty_iff. split.
  - intros Hempty cid Hcid. destruct (decide (cid ∈ dom chunk_index)) as [|Hnot]; [done|].
    exfalso. apply (not_elem_of_empty (C:=gset string) cid), Hempty.
    by apply elem_of_difference.
  - intros Hsub. apply elem_of_equiv_empty. intros cid [Hin Hnot]%elem_of_difference.
    by apply Hnot, Hsub.
Qed.

End DiffFacts.


(** ** The document identifier *)

Module DocIdFacts.

Lemma substring_all m s : String.length s ≤ m → substring 0 m s = s.
Proof.
  revert m. induction s as [|c s IH]; intros m Hlen; [by destruct m|].
  destruct m as [|m]; simpl in *; [lia|]. rewrite IH; [done|lia].
Qed.

Lemma substring_length n m s :
  String.length (substring n m s) = min m (String.length s - n).
Proof.
  revert n m. induction s as [|c s IH]; intros n m.
  - by destruct n, m.
  - destruct n as [|n]; simpl.
    + destruct m as [|m]; simpl; [done|]. rewrite IH. lia.
    + apply IH.
Qed.

(** The characters from position [k] on are a suffix. *)
Lemma substring_suffix k s :
  k ≤ String.length s →
  ∃ pre, String.length pre = k ∧ s = pre +:+ substring k (String.length s - k) s.
Proof.
  revert k. induction s as [|c s IH]; intros k Hk.
  - exists "". simpl in Hk. by replace k with 0 by lia.
  - destruct k as [|k].
    + exists "". split; [done|]. rewrite app_str_nil_l, Nat.sub_0_r.
      by rewrite substring_all.
    + simpl in Hk. destruct (IH k) as (pre & Hlen & Hs); [lia|].
      exists (String c pre). split; [simpl; lia|].
      rewrite app_str_cons. simpl. by rewrite <- Hs.
Qed.

Lemma last_chars_length n s : String.length (last_chars n s) = min n (String.length s).
Proof. unfold last_chars. rewrite substring_length. lia. Qed.

Lemma last_chars_suffix n s : ∃ pre, s = pre +:+ last_chars n s.
Proof.
  unfold last_chars.
  destruct (substring_suffix (String.length s - n) s) as (pre & _ & Hs); [lia|].
  exists pre.
  destruct (Nat.le_gt_cases n (String.length s)) as [Hle|Hgt].
  - by replace (String.length s - (String.length s - n)) with n in Hs by lia.
  - replace (String.length s - n) with 0 in * by lia.
    rewrite Nat.sub_0_r in Hs. rewrite substring_all in Hs |- * by lia. done.
Qed.

Lemma last_chars_short n s : String.length s ≤ n → last_chars n s = s.
Proof.
  intros Hle. unfold last_chars. replace (String.length s - n) with 0 by lia.
  by apply substring_all.
Qed.

Lemma length_string_of_list l : String.length (string_of_list_ascii l) = length l.
Proof. induction l as [|c l IH]; simpl; [done|]. by rewrite IH. Qed.

Lemma rjust_length width fill s :
  String.length (rjust width fill s) = max width (String.length s).
Proof.
  unfold rjust. rewrite length_app_str, length_string_of_list, length_replicate. lia.
Qed.

Lemma rjust_long width fill s : width ≤ String.length s → rjust width fill s = s.
Proof.
  intros Hle. unfold rjust. by replace (width - String.length s) with 0 by lia.
Qed.

End DocIdFacts.


(** ** [_clean_html] *)

Module HtmlFacts.
Import HtmlInv.

(** Induction on a tree, with the hypothesis for every child. *)
Lemma node_induction (P : node → Prop) :
  (∀ s, P (Text s)) →
  (∀ kind s, P (Special kind s)) →
  (∀ i nm cs, Forall P cs → P (Elem i nm cs)) →
  ∀ n, P n.
Proof.
  intros HT HS HE. fix IH 1. intros [s|k s|i nm cs]; [apply HT|apply HS|].
  apply HE. induction cs as [|c cs IHcs]; constructor; [apply IH|exact IHcs].
Qed.

Lemma self_and_descendants_eq n : self_and_descendants n = n :: descendants n.
Proof. by destruct n. Qed.

Lemma below_children ok i nm cs :
  below ok (Elem i nm cs) ↔ Forall (λ c, named ok c ∧ below ok c) cs.
Proof.
  unfold below, descendants. cbn [children_of]. rewrite Forall_flat_map.
  apply Forall_iff. intros c. rewrite self_and_descendants_eq. apply Forall_cons.
Qed.

Lemma below_flat_map ok i nm (g : node → list node) cs :
  Forall (λ c, Forall (λ c', named ok c' ∧ below ok c') (g c)) cs →
  below ok (Elem i nm (flat_map g cs)).
Proof.
  intros Hall. apply below_children, Forall_flat_map. done.
Qed.

Lemma decompose_name names n : tag_of (decompose_tags names n) = tag_of n.
Proof. by destruct n. Qed.

Lemma flatten_name n : tag_of (flatten_macros n) = tag_of n.
Proof. by destruct n. Qed.

Lemma unwrap_name names n : tag_of (unwrap_tags names n) = tag_of n.
Proof. by destruct n. Qed.

Lemma named_tag_of ok n n' : tag_of n' = tag_of n → named ok n → named ok n'.
Proof. destruct n, n'; cbn; try done. by intros [= ->]. Qed.

Lemma named_not_tag ok names n :
  is_tag names n = false → named ok n → named (λ nm, ok nm ∧ nm ∉ names) n.
Proof.
  destruct n as [s|k s|i nm cs]; cbn; [done|done|].
  intros Hn%bool_decide_eq_false Hok. done.
Qed.

Lemma named_not_macro ok n :
  is_macro n = false → named ok n → named (λ nm, ok nm ∧ contains ":" nm = false) n.
Proof. destruct n as [s|k s|i nm cs]; cbn; [done|done|]. by intros ->. Qed.

(** [decompose_tags] leaves no tag with one of the names, and adds none. *)
Lemma decompose_below ok names n :
  below ok n → below (λ nm, ok nm ∧ nm ∉ names) (decompose_tags names n).
Proof.
  induction n as [s|k s|i nm cs IH] using node_induction;
    [intros _; apply Forall_nil_2|intros _; apply Forall_nil_2|].
  intros Hcs. cbn [decompose_tags]. apply below_flat_map.
  apply below_children in Hcs. rewrite Forall_forall in IH, Hcs |- *.
  intros c Hc. destruct (Hcs c Hc) as [Hnamed Hbelow].
  destruct (is_tag names c) eqn:Etag; [constructor|]. apply Forall_singleton. split.
  - apply (named_tag_of _ c); [apply decompose_name|]. by apply named_not_tag.
  - by apply IH.
Qed.

(** [flatten_macros] leaves no tag with a colon in its name, and adds none. *)
Lemma flatten_below ok n :
  below ok n → below (λ nm, ok nm ∧ contains ":" nm = false) (flatten_macros n).
Proof.
  induction n as [s|k s|i nm cs IH] using node_induction;
    [intros _; apply Forall_nil_2|intros _; apply Forall_nil_2|].
  intros Hcs. cbn [flatten_macros]. apply below_flat_map.
  apply below_children in Hcs. rewrite Forall_forall in IH, Hcs |- *.
  intros c Hc. destruct (Hcs c Hc) as [Hnamed Hbelow].
  destruct (is_macro c) eqn:Emacro.
  - destruct (nonempty (get_text " " c)); [|constructor].
    apply Forall_singleton. split; [done|constructor].
  - apply Forall_singleton. split.
    + apply (named_tag_of _ c); [apply flatten_name|]. by apply named_not_macro.
    + by apply IH.
Qed.

(** [unwrap_tags] leaves no tag with one of the names, and adds none. *)
Lemma unwrap_below ok names n :
  below ok n → below (λ nm, ok nm ∧ nm ∉ names) (unwrap_tags names n).
Proof.
  induction n as [s|k s|i nm cs IH] using node_induction;
    [intros _; apply Forall_nil_2|intros _; apply Forall_nil_2|].
  intros Hcs. cbn [unwrap_tags]. apply below_flat_map.
  apply below_children in Hcs. rewrite Forall_forall in IH, Hcs |- *.
  intros c Hc. destruct (Hcs c Hc) as [Hnamed Hbelow].
  specialize (IH c Hc Hbelow). cbv zeta.
  destruct (is_tag names c) eqn:Etag.
  - destruct (unwrap_tags names c) as [s|k s|j nm' cs'] eqn:Ec; [constructor|constructor|].
    cbn [children_of]. by apply below_children in IH.
  - apply Forall_singleton. split; [|done].
    apply (named_tag_of _ c); [apply unwrap_name|]. by apply named_not_tag.
Qed.

End HtmlFacts.


(** ** [_html_to_markdown] *)

Module MarkdownFacts.
Import HtmlInv.
#[local] Arguments Ascii.eqb : simpl never.

Lemma newlines_snoc k s : newlines (S k) +:+ s = newlines k +:+ String NL s.
Proof.
  unfold newlines. induction k as [|k IH]; [done|].
  change (replicate (S (S k)) NL) with (NL :: replicate (S k) NL).
  change (replicate (S k) NL) with (NL :: replicate k NL) at 2.
  cbn [string_of_list_ascii]. rewrite !app_str_cons. by rewrite IH.
Qed.

Lemma newlines_ok_mono s : ∀ k k', k' ≤ k → newlines_ok k s = true → newlines_ok k' s = true.
Proof.
  destruct s as [|c s]; intros k k' Hle; [done|]. simpl.
  destruct (Ascii.eqb c NL); [|done]. intros [Hk Hs]%andb_true_iff.
  apply Nat.ltb_lt in Hk. apply andb_true_iff. split; [apply Nat.ltb_lt; lia|].
  revert Hs. generalize (S k), (S k') , (le_n_S _ _ Hle). clear.
  induction s as [|c s IH]; intros k k' Hle; [done|]. simpl.
  destruct (Ascii.eqb c NL); [|done]. intros [Hk Hs]%andb_true_iff.
  apply Nat.ltb_lt in Hk. apply andb_true_iff. split; [apply Nat.ltb_lt; lia|].
  apply (IH (S k) (S k')); [lia|done].
Qed.

(** After at most two newlines and another character the count starts again. *)
Lemma newlines_ok_emit run c s :
  Ascii.eqb c NL = false → newlines_ok 0 s = true →
  newlines_ok 0 (newlines (if 3 <=? run then 2 else run) +:+ String c s) = true.
Proof.
  intros Hc Hs. unfold newlines.
  destruct run as [|[|[|run]]]; cbn [Nat.leb replicate string_of_list_ascii];
    rewrite ?app_str_cons, app_str_nil_l; cbn [newlines_ok Nat.ltb Nat.leb andb];
    rewrite ?Ascii.eqb_refl, Hc; done.
Qed.

Lemma collapse_ok s : ∀ run, newlines_ok 0 (collapse_newlines_go run s) = true.
Proof.
  induction s as [|c s IH]; intros run.
  - cbn [collapse_newlines_go].
    destruct run as [|[|[|run]]]; cbn [Nat.leb replicate string_of_list_ascii newlines_ok];
      rewrite ?Ascii.eqb_refl; done.
  - cbn [collapse_newlines_go]. destruct (Ascii.eqb c NL) eqn:Ec; [apply IH|].
    apply newlines_ok_emit; [done|apply IH].
Qed.

(** A text that has no three newlines in a row is not changed. *)
Lemma collapse_same s : ∀ run,
  run ≤ 2 → newlines_ok run s = true →
  collapse_newlines_go run s = newlines run +:+ s.
Proof.
  induction s as [|c s IH]; intros run Hrun Hok.
  - cbn [collapse_newlines_go]. replace (3 <=? run) with false by (symmetry; apply Nat.leb_gt; lia).
    unfold newlines. by rewrite app_str_nil_r.
  - cbn [collapse_newlines_go]. simpl in Hok. destruct (Ascii.eqb c NL) eqn:Ec.
    + apply Ascii.eqb_eq in Ec as ->. apply andb_true_iff in Hok as [Hk Hok].
      apply Nat.ltb_lt in Hk. rewrite IH; [|lia|done]. apply newlines_snoc.
    + replace (3 <=? run) with false by (symmetry; apply Nat.leb_gt; lia).
      rewrite (IH 0); [done|lia|done].
Qed.

Lemma newlines_ok_lstrip s : ∀ k, newlines_ok k s = true → newlines_ok 0 (lstrip s) = true.
Proof.
  induction s as [|c s IH]; intros k Hok; [done|]. cbn [lstrip].
  destruct (isspace c).
  - simpl in Hok. destruct (Ascii.eqb c NL); [|by apply (IH 0)].
    apply andb_true_iff in Hok as [_ Hok]. by apply (IH (S k)).
  - by apply (newlines_ok_mono _ k 0); [lia|].
Qed.

Lemma newlines_ok_rstrip s : ∀ k, newlines_ok k s = true → newlines_ok k (rstrip s) = true.
Proof.
  induction s as [|c s IH]; intros k Hok; [done|]. cbn [rstrip]. simpl in Hok.
  destruct (Ascii.eqb c NL) eqn:Ec.
  - apply andb_true_iff in Hok as [Hk Hok]. specialize (IH (S k) Hok).
    destruct (rstrip s) as [|d r].
    + destruct (isspace c); [done|]. simpl. by rewrite Ec, Hk.
    + cbn [newlines_ok]. rewrite Ec, Hk. exact IH.
  - specialize (IH 0 Hok). destruct (rstrip s) as [|d r].
    + destruct (isspace c); [done|]. simpl. by rewrite Ec.
    + cbn [newlines_ok]. rewrite Ec. exact IH.
Qed.

Lemma newlines_ok_suffix a : ∀ k b,
  newlines_ok k (a +:+ b) = true → ∃ k', newlines_ok k' b = true.
Proof.
  induction a as [|c a IH]; intros k b Hok; [by exists k|].
  rewrite app_str_cons in Hok. simpl in Hok. destruct (Ascii.eqb c NL).
  - apply andb_true_iff in Hok as [_ Hok]. by apply (IH (S k)).
  - by apply (IH 0).
Qed.

Lemma newlines_ok_no_triple s :
  newlines_ok 0 s = true → ∀ a b, s ≠ a +:+ String NL (String NL (String NL b)).
Proof.
  intros Hok a b ->. apply newlines_ok_suffix in Hok as [k Hok].
  cbn [newlines_ok] in Hok. rewrite !Ascii.eqb_refl in Hok.
  destruct k as [|[|k]]; cbn [Nat.ltb Nat.leb andb] in Hok; by rewrite ?andb_false_r in Hok.
Qed.

Lemma no_triple_newlines_ok s : ∀ k,
  k ≤ 2 →
  (∀ a b, newlines k +:+ s ≠ a +:+ String NL (String NL (String NL b))) →
  newlines_ok k s = true.
Proof.
  induction s as [|c s IH]; intros k Hk Hno; [done|]. simpl.
  destruct (Ascii.eqb c NL) eqn:Ec.
  - apply Ascii.eqb_eq in Ec as ->.
    assert (k < 2) as Hk2.
    { destruct (decide (k < 2)) as [|Hn]; [done|]. exfalso.
      replace k with 2 in * by lia. by apply (Hno "" s). }
    apply andb_true_iff. split; [by apply Nat.ltb_lt|]. apply IH; [lia|].
    intros a b Heq. apply (Hno a b). by rewrite <- Heq, newlines_snoc.
  - apply (IH 0); [lia|]. intros a b Heq. unfold newlines in *.
    apply (Hno (string_of_list_ascii (replicate k NL) +:+ String c a) b).
    cbn [replicate string_of_list_ascii] in Heq. rewrite app_str_nil_l in Heq.
    by rewrite app_str_assoc, app_str_cons, <- Heq.
Qed.

End MarkdownFacts.


(** ** [_split_sections] *)

Module SectionFacts.
Import SentenceSpec SentenceFacts Segmenter SectionInv.
#[local] Arguments Ascii.eqb : simpl never.

(** *** The heading pattern *)

Lemma many_bounded p k :
  (∀ prev c s, p c = true → k prev (String c s) = None) →
  ∀ s lo hi prev,
    Re.many p k lo (Some hi) prev s =
      if (lo <=? String.length (span p s).1) && (String.length (span p s).1 <=? hi)
      then k (last_char prev (span p s).1) (span p s).2 else None.
Proof.
  intros Hk. induction s as [|c s IH]; intros lo hi prev.
  - simpl. by destruct lo.
  - cbn [Re.many span]. destruct (p c) eqn:Ep.
    + destruct hi as [|hi].
      * cbn [andb negb bool_decide]. rewrite bool_decide_eq_true_2 by done. cbn [negb andb].
        destruct (span p s) as [run rest]. cbn [fst snd String.length].
        rewrite andb_false_r. destruct lo; [by apply Hk|done].
      * rewrite bool_decide_eq_false_2 by done. cbn [negb andb fmap option_fmap option_map pred].
        rewrite IH. destruct (span p s) as [run rest]. cbn [fst snd String.length last_char].
        destruct lo as [|lo]; cbn [pred Nat.leb].
        -- destruct (String.length run <=? hi); cbn [andb]; [|by apply Hk].
           destruct (k (last_char (Some c) run) rest); [done|]. by apply Hk.
        -- destruct (lo <=? String.length run), (String.length run <=? hi); cbn [andb]; try done.
           by destruct (k (last_char (Some c) run) rest).
    + cbn [andb fst snd String.length]. by destruct lo.
Qed.

Lemma many_greedy p s : ∀ lo prev,
  Re.many p (Re.match_here []) lo None prev s =
    if lo <=? String.length (span p s).1 then Some (span p s).2 else None.
Proof.
  induction s as [|c s IH]; intros lo prev.
  - simpl. by destruct lo.
  - cbn [Re.many span]. destruct (p c) eqn:Ep.
    + rewrite bool_decide_eq_false_2 by done. cbn [negb andb fmap option_fmap option_map].
      rewrite IH. destruct (span p s) as [run rest]. cbn [fst snd String.length].
      destruct lo as [|lo]; cbn [pred Nat.leb]; [done|].
      by destruct (lo <=? String.length run).
    + cbn [andb fst snd String.length]. by destruct lo.
Qed.

Lemma hash_not_space c : Ascii.eqb "#" c = true → isspace c = false.
Proof. by_cases_on_char c. Qed.

Lemma space_not_hash c : isspace c = true → Ascii.eqb "#" c = false.
Proof. by_cases_on_char c. Qed.

Lemma span_rest_head p s :
  match (span p s).2 with EmptyString => True | String c _ => p c = false end.
Proof.
  induction s as [|c s IH]; [done|]. simpl. destruct (p c) eqn:Ep; [|done].
  by destruct (span p s).
Qed.

Lemma hashes_1_3 s :
  every (Ascii.eqb "#") s = true → 1 ≤ String.length s ≤ 3 → s ∈ ["#"; "##"; "###"].
Proof.
  intros Hev Hlen.
  destruct s as [|a [|b [|c [|d s]]]]; simpl in Hlen; try lia; simpl in Hev;
    repeat (apply andb_true_iff in Hev as [?%Ascii.eqb_eq Hev]); subst;
    apply list_elem_of_In; simpl; auto.
Qed.

(** What [Re.match_here heading_pattern] computes. *)
Lemma heading_pattern_match line :
  Re.match_here heading_pattern None line =
    let hashes := (span (Ascii.eqb "#") line).1 in
    let after := (span (Ascii.eqb "#") line).2 in
    if (1 <=? String.length hashes) && (String.length hashes <=? 3)
       && (1 <=? String.length (span isspace after).1)
    then Some (span isspace after).2 else None.
Proof.
  unfold heading_pattern. cbn [Re.match_here]. cbv zeta.
  rewrite many_bounded.
  - destruct (_ && _); [|done]. by rewrite many_greedy.
  - intros prev c s Hc. cbn [Re.match_here]. rewrite many_greedy.
    cbn [span]. by rewrite (hash_not_space c Hc).
Qed.

(** *** Invariant of the loop *)

Section with_slugify.
Context `{Slugify}.

Lemma flush_well_formed sections title lines :
  Forall well_formed sections → tidy title →
  Forall well_formed (flush_section sections title lines).
Proof.
  intros Hs [Hne Hst]. unfold flush_section. apply Forall_app. split; [done|].
  apply Forall_singleton. rewrite Hst.
  replace (nonempty title) with true by by destruct title.
  repeat split; cbn; try done. apply strip_idem.
Qed.

Lemma step_well_formed st line :
  Forall well_formed (sections st) → tidy (current_title st) →
  Forall well_formed (sections (step st line)) ∧ tidy (current_title (step st line)).
Proof.
  intros Hs Ht. unfold step. destruct (heading_match line) as [group2|]; [|done].
  cbn [sections current_title]. split.
  - destruct (current_lines st); [done|]. by apply flush_well_formed.
  - destruct (strip group2) as [|c r] eqn:E; [done|]. cbn [nonempty].
    split; [done|]. rewrite <- E. apply strip_idem.
Qed.

Lemma fold_well_formed lines : ∀ st,
  Forall well_formed (sections st) → tidy (current_title st) →
  Forall well_formed (sections (fold_left step lines st))
  ∧ tidy (current_title (fold_left step lines st)).
Proof.
  induction lines as [|line lines IH]; intros st Hs Ht; [done|].
  cbn [fold_left]. destruct (step_well_formed st line Hs Ht). by apply IH.
Qed.

(** *** Counting *)

Lemma flush_length sections title lines :
  length (flush_section sections title lines) = S (length sections).
Proof. unfold flush_section. rewrite length_app. simpl. lia. Qed.

Lemma fold_count lines : ∀ st,
  length (sections (fold_left step lines st))
  ≤ length (sections st) + length (List.filter is_heading lines).
Proof.
  induction lines as [|line lines IH]; intros st; [simpl; lia|].
  cbn [fold_left List.filter]. etrans; [apply IH|].
  unfold step, is_heading. destruct (heading_match line) as [group2|]; cbn [sections length].
  - destruct (current_lines st); [lia|]. rewrite flush_length. lia.
  - lia.
Qed.

(** *** No heading at all *)

Lemma fold_no_heading lines : ∀ st,
  Forall (λ line, heading_match line = None) lines →
  fold_left step lines st
  = mk (sections st) (current_title st) (current_lines st ++ lines).
Proof.
  induction lines as [|line lines IH]; intros st Hall.
  - rewrite app_nil_r. by destruct st.
  - apply Forall_cons in Hall as [Hline Hall]. cbn [fold_left].
    rewrite IH by done. unfold step. rewrite Hline. cbn [sections current_title current_lines].
    by rewrite <- (assoc_L (++)).
Qed.

End with_slugify.
End SectionFacts.


(** ** More on [split_into_sentences] *)

Module SentenceMore.
Import SentenceSpec SentenceFacts.

Lemma every_app p s t : every p (s +:+ t) = every p s && every p t.
Proof.
  induction s as [|c s IH]; [done|]. rewrite app_str_cons. simpl.
  by rewrite IH, andb_assoc.
Qed.

Lemma every_lstrip p s : every p s = true → every p (lstrip s) = true.
Proof.
  induction s as [|c s IH]; [done|]. simpl. intros [Hc Hs]%andb_true_iff.
  destruct (isspace c); [by apply IH|]. simpl. by rewrite Hc, Hs.
Qed.

Lemma every_rstrip p s : every p s = true → every p (rstrip s) = true.
Proof.
  induction s as [|c s IH]; [done|]. simpl. intros [Hc Hs]%andb_true_iff.
  specialize (IH Hs). destruct (rstrip s) as [|d r].
  - destruct (isspace c); [done|]. simpl. by rewrite Hc.
  - change (every p (String c (String d r))) with (p c && every p (String d r)).
    by rewrite Hc, IH.
Qed.

Lemma every_strip p s : every p s = true → every p (strip s) = true.
Proof. intros H. by apply every_rstrip, every_lstrip. Qed.

Lemma every_contains p c s : every p s = true → p c = false → contains c s = false.
Proof.
  intros Hs Hc. induction s as [|d s IH]; [done|]. simpl in *.
  apply andb_true_iff in Hs as [Hd Hs]. rewrite (IH Hs), orb_false_r.
  apply Ascii.eqb_neq. intros ->. congruence.
Qed.

(** No line of [splitlines] holds a line boundary. *)
Lemma splitlines_go_no_break s : ∀ after_cr,
  Forall (λ line, every (λ c, negb (is_linebreak c)) line = true) (splitlines_go after_cr s).
Proof.
  induction s as [|c s IH]; intros after_cr; [constructor|]. simpl.
  destruct (after_cr && Ascii.eqb c NL); [apply IH|].
  destruct (is_linebreak c) eqn:Ec.
  - apply Forall_cons. split; [done|apply IH].
  - specialize (IH false). destruct (splitlines_go false s) as [|line lines].
    + apply Forall_singleton. simpl. by rewrite Ec.
    + apply Forall_cons in IH as [Hline Hlines]. apply Forall_cons.
      split; [|done]. simpl. by rewrite Ec, Hline.
Qed.

Lemma cuts_every p prev s pieces :
  cuts prev s pieces → every p s = true → Forall (λ piece, every p piece = true) pieces.
Proof.
  induction 1 as [prev|prev c s piece pieces Hnb Hcuts IH|prev s gap rest pieces Hb Hcuts IH];
    intros Hs.
  - by apply Forall_singleton.
  - simpl in Hs. apply andb_true_iff in Hs as [Hc Hs].
    specialize (IH Hs). apply Forall_cons in IH as [Hp Hps].
    apply Forall_cons. split; [|done]. simpl. by rewrite Hc, Hp.
  - destruct Hb as (_ & -> & _). rewrite every_app in Hs.
    apply andb_true_iff in Hs as [_ Hrest]. apply Forall_cons. split; [done|]. by apply IH.
Qed.

Lemma line_units_clean p raw units :
  line_units raw units → every p raw = true →
  Forall (λ u, tidy u ∧ every p u = true) units.
Proof.
  intros Hunits Hraw. pose proof (every_strip p raw Hraw) as Hline.
  destruct Hunits as [_|Hne _|pieces Hne _ Hcuts].
  - constructor.
  - apply Forall_singleton. split; [|done]. split; [done|apply strip_idem].
  - assert (tidy (strip raw)) as Htidy by (split; [done|apply strip_idem]).
    pose proof (cuts_tidy _ _ Htidy Hcuts) as Ht.
    pose proof (cuts_every p _ _ _ Hcuts Hline) as He.
    rewrite Forall_forall in *. intros u Hu. split; auto.
Qed.

Lemma sentences_clean text :
  Forall (λ u, tidy u ∧ every (λ c, negb (is_linebreak c)) u = true)
         (split_into_sentences text).
Proof.
  unfold split_into_sentences. destruct (negb (nonempty text)); [constructor|].
  destruct (sentence_fold_units (splitlines (strip text)) []) as (units & Hunits & ->).
  simpl. pose proof (splitlines_go_no_break (strip text) false) as Hlines.
  fold (splitlines (strip text)) in Hlines.
  induction Hunits as [|raw us raws uss Hus _ IH]; [constructor|].
  apply Forall_cons in Hlines as [Hraw Hraws]. simpl. apply Forall_app. split.
  - by apply (line_units_clean _ raw).
  - by apply IH.
Qed.

(** Chunks of tidy, newline-free sentences split back into the sentences. *)
Lemma rejoin_groups (groups : list (list string)) :
  Forall (λ g, g ≠ []) groups →
  Forall (λ s, tidy s ∧ contains NL s = false) (concat groups) →
  concat (split NL <$> (Chunker.chunk_text <$> groups)) = concat groups.
Proof.
  induction 1 as [|g groups Hg _ IH]; [done|]. intros Hall.
  rewrite !fmap_cons, !concat_cons in *. apply Forall_app in Hall as [Hgs Hall].
  rewrite IH by done. f_equal. by apply chunk_text_split.
Qed.

End SentenceMore.


(** ** More on [_extract_table] *)

Module TableFacts.
Import Extract TableInv.

Section with_slugify.
Context `{Slugify}.

Lemma fallback_name_nonempty nm : fallback_name nm ≠ "".
Proof. unfold fallback_name. by rewrite app_str_cons. Qed.

Lemma add_name_ok text nm : text ≠ "" → names_ok nm → names_ok (add_name text nm).
Proof.
  intros Ht [Hh Hd]. split; cbn.
  - by rewrite fmap_app, Hh.
  - apply Forall_app. split; [done|]. by apply Forall_singleton.
Qed.

Lemma add_name_prefix text nm : headers nm `prefix_of` headers (add_name text nm).
Proof. by eexists. Qed.

Lemma add_name_length text nm :
  length (headers (add_name text nm)) = S (length (headers nm)).
Proof. cbn. rewrite length_app. simpl. lia. Qed.

Lemma header_step_ok nm cell : names_ok nm → names_ok (header_step nm cell).
Proof.
  intros Hnm. unfold header_step. apply add_name_ok; [|done].
  destruct (get_text " " cell) eqn:E; [apply fallback_name_nonempty|done].
Qed.

Lemma header_fold_ok cells : ∀ nm,
  names_ok nm → names_ok (fold_left header_step cells nm).
Proof.
  induction cells as [|c cells IH]; intros nm Hnm; [done|].
  simpl. by apply IH, header_step_ok.
Qed.

Lemma iter_fallback n : ∀ nm,
  names_ok nm →
  let nm' := Nat.iter n (λ nm', add_name (fallback_name nm') nm') nm in
  names_ok nm' ∧ headers nm `prefix_of` headers nm'
  ∧ length (headers nm') = length (headers nm) + n.
Proof.
  induction n as [|n IH]; intros nm Hnm; cbn zeta.
  - cbn [Nat.iter nat_rect]. split_and!; [done|done|lia].
  - destruct (IH nm Hnm) as (Hok & Hpre & Hlen). rewrite Nat.iter_succ.
    set (nm1 := Nat.iter n _ nm) in *. split_and!.
    + by apply add_name_ok; [apply fallback_name_nonempty|].
    + etrans; [exact Hpre|apply add_name_prefix].
    + rewrite add_name_length. lia.
Qed.

Lemma pad_ok idx nm :
  names_ok nm →
  names_ok (pad idx nm) ∧ headers nm `prefix_of` headers (pad idx nm)
  ∧ idx < length (headers (pad idx nm)).
Proof.
  intros Hnm. destruct (iter_fallback (idx + 1 - length (headers nm)) nm Hnm)
    as (Hok & Hpre & Hlen). unfold pad. split_and!; [done|done|lia].
Qed.

Lemma keys_in_mono (row : gmap string cell_value) hs hs' :
  hs `prefix_of` hs' → keys_in hs row → keys_in hs' row.
Proof.
  intros [k ->] Hrow key Hkey. apply elem_of_app. left. by apply Hrow.
Qed.

Lemma cell_step_shape st ic :
  names_ok st.1 → keys_in (headers st.1) st.2 →
  let st' := cell_step st ic in
  names_ok st'.1 ∧ headers st.1 `prefix_of` headers st'.1
  ∧ keys_in (headers st'.1) st'.2 ∧ st'.2 ≠ ∅ ∧ ic.1 < length (headers st'.1).
Proof.
  destruct st as [nm row_data], ic as [idx cell]. cbn [fst snd]. intros Hnm Hrow.
  destruct (pad_ok idx nm Hnm) as (Hok & Hpre & Hlt). cbn. split_and!; try done.
  - intros key [v Hkey]. destruct (decide (key = nth idx (headers (pad idx nm)) "")) as [->|Hne].
    + apply list_elem_of_In, nth_In. lia.
    + rewrite lookup_insert_ne in Hkey by done.
      eapply keys_in_mono; [exact Hpre|exact Hrow|]. by exists v.
  - apply insert_non_empty.
Qed.

Lemma cells_fold_shape cells : ∀ a st,
  names_ok st.1 → keys_in (headers st.1) st.2 →
  let st' := fold_left cell_step (combine (seq a (length cells)) cells) st in
  names_ok st'.1 ∧ headers st.1 `prefix_of` headers st'.1
  ∧ keys_in (headers st'.1) st'.2
  ∧ (cells ≠ [] → st'.2 ≠ ∅ ∧ a + length cells ≤ length (headers st'.1)).
Proof.
  induction cells as [|c cells IH]; intros a st Hnm Hrow; cbn zeta.
  - by split_and!.
  - cbn [length seq combine fold_left].
    destruct (cell_step_shape st (a, c) Hnm Hrow) as (Hok & Hpre & Hkeys & Hne & Hlt).
    destruct (IH (S a) (cell_step st (a, c)) Hok Hkeys) as (Hok' & Hpre' & Hkeys' & Hrest).
    split_and!; [done|by etrans|done|]. intros _.
    destruct cells as [|c' cells].
    + cbn [length seq combine fold_left] in *. split; [done|]. cbn [fst] in Hlt. lia.
    + destruct Hrest as [Hne' Hlen]; [done|]. split; [done|]. cbn [length] in *. lia.
Qed.

(** The state of the row loop after the rows [trs]. *)
Lemma rows_fold_shape trs : ∀ st,
  names_ok st.1 → Forall (λ row, row ≠ ∅ ∧ keys_in (headers st.1) row) st.2 →
  let st' := fold_left row_step trs st in
  names_ok st'.1
  ∧ Forall (λ row, row ≠ ∅ ∧ keys_in (headers st'.1) row) st'.2
  ∧ length st'.2 = length st.2 + length (List.filter has_cells trs)
  ∧ Forall (λ tr, length (find_all ["td"; "th"] tr) ≤ length (headers st'.1)) trs
  ∧ headers st.1 `prefix_of` headers st'.1.
Proof.
  induction trs as [|tr trs IH]; intros st Hnm Hrows; cbn zeta.
  - split_and!; [done|done|simpl; lia|constructor|done].
  - cbn [fold_left List.filter].
    assert (names_ok (row_step st tr).1
            ∧ Forall (λ row, row ≠ ∅ ∧ keys_in (headers (row_step st tr).1) row) (row_step st tr).2
            ∧ length (row_step st tr).2 = length st.2 + (if has_cells tr then 1 else 0)
            ∧ length (find_all ["td"; "th"] tr) ≤ length (headers (row_step st tr).1)
            ∧ headers st.1 `prefix_of` headers (row_step st tr).1)
      as (Hok & Hrows' & Hlen & Hwide & Hpre).
    { destruct st as [nm body_rows]. unfold row_step, has_cells. cbn [fst snd] in *.
      destruct (find_all ["td"; "th"] tr) as [|c cells] eqn:Ecells.
      { split_and!; [done|done|simpl; lia|simpl; lia|done]. }
      destruct (cells_fold_shape (c :: cells) 0 (nm, ∅) Hnm) as (Hok & Hpre & Hkeys & Hne).
      { intros key [v Hv]. cbn [snd] in Hv. by rewrite lookup_empty in Hv. }
      destruct Hne as [Hne Hlen]; [done|].
      destruct (fold_left cell_step _ _) as [nm' row_data]. cbn [fst snd] in *.
      rewrite decide_False by done. cbn [fst snd]. split_and!; try done.
      - apply Forall_app. split; [|by apply Forall_singleton].
        eapply Forall_impl; [exact Hrows|]. intros row [? ?]. split; [done|].
        by eapply keys_in_mono.
      - rewrite length_app. simpl. lia. }
    destruct (IH (row_step st tr) Hok Hrows') as (Hok2 & Hrows2 & Hlen2 & Hwide2 & Hpre2).
    split_and!; try done.
    + rewrite Hlen2, Hlen. destruct (has_cells tr); simpl; lia.
    + apply Forall_cons. split; [|done].
      etrans; [exact Hwide|]. by apply prefix_length.
    + by etrans.
Qed.

End with_slugify.
End TableFacts.


(** ** [traverse_descendants] *)

Module TraverseFacts.
Import Traverse TraverseInv.

Section with_server.
Context `{ChildPages}.

Lemma traverse_inv_init root_id : inv root_id (mk [root_id] {[ root_id ]} [root_id]).
Proof.
  split; cbn.
  - by exists [].
  - apply NoDup_singleton.
  - intros x. by rewrite elem_of_singleton, list_elem_of_singleton.
  - done.
  - done.
  - intros x Hx Hnot. done.
  - intros x ->%list_elem_of_singleton. done.
Qed.

(** What the inner loop does to the state: it appends the new children,
    those not seen before, to the queue and to the ids yielded. *)
Lemma visit_all children : ∀ st,
  NoDup (yielded st) → (∀ x, x ∈ seen st ↔ x ∈ yielded st) →
  ∃ new,
    queue (fold_left visit children st) = queue st ++ new
    ∧ yielded (fold_left visit children st) = yielded st ++ new
    ∧ NoDup (yielded st ++ new)
    ∧ (∀ x, x ∈ seen (fold_left visit children st) ↔ x ∈ yielded st ++ new)
    ∧ (∀ c, c ∈ children → c ∈ yielded st ++ new)
    ∧ (∀ x, x ∈ new → x ∈ children).
Proof.
  induction children as [|c children IH]; intros st Hnodup Hseen.
  - exists []. rewrite !app_nil_r. split_and!; try done. intros c Hc. by apply elem_of_nil in Hc.
  - cbn [fold_left]. unfold visit at 2 4 6. destruct (decide (c ∈ seen st)) as [Hin|Hnot].
    + destruct (IH st Hnodup Hseen) as (new & Hq & Hy & Hnd & Hs & Hall & Hnew).
      exists new. split_and!; try done.
      * intros x [->|Hx]%elem_of_cons; [|by apply Hall].
        apply elem_of_app. left. by apply Hseen.
      * intros x Hx. apply elem_of_cons. right. by apply Hnew.
    + set (st1 := mk (queue st ++ [c]) ({[ c ]} ∪ seen st) (yielded st ++ [c])).
      destruct (IH st1) as (new & Hq & Hy & Hnd & Hs & Hall & Hnew).
      { cbn. apply NoDup_app. split_and!; [done| |apply NoDup_singleton].
        intros x Hx ->%list_elem_of_singleton. by apply Hnot, Hseen. }
      { intros x. cbn. rewrite elem_of_union, elem_of_singleton, elem_of_app,
          list_elem_of_singleton, Hseen. tauto. }
      cbn [queue yielded st1] in *. exists (c :: new).
      rewrite <- !(assoc_L (++)) in *. cbn [app] in *. split_and!; try done.
      * intros x [->|Hx]%elem_of_cons; [|by apply Hall].
        apply elem_of_app. right. apply list_elem_of_here.
      * intros x [->|Hx]%elem_of_cons; [apply list_elem_of_here|].
        apply list_elem_of_further. by apply Hnew.
Qed.

(** One round of the loop keeps the invariant. *)
Lemma inv_round root_id current rest seen0 yielded0 children :
  inv root_id (mk (current :: rest) seen0 yielded0) →
  fetch_children_ids current = Some children →
  inv root_id (fold_left visit children (mk rest seen0 yielded0))
  ∧ length (yielded (fold_left visit children (mk rest seen0 yielded0)))
    - length (queue (fold_left visit children (mk rest seen0 yielded0)))
    = S (length yielded0 - length (current :: rest))
  ∧ ∀ x, x ∈ yielded (fold_left visit children (mk rest seen0 yielded0)) →
         x ∈ yielded0 ∨ x ∈ children.
Proof.
  intros [Hhead Hnodup Hseen Hqueue Hlen Hdone Hreach] Hfetch. cbn in *.
  destruct (visit_all children (mk rest seen0 yielded0) Hnodup Hseen)
    as (new & Hq & Hy & Hnd & Hs & Hall & Hnew).
  cbn in *. split_and!.
  - split; rewrite ?Hq, ?Hy.
    + destruct Hhead as [tail ->]. by exists (tail ++ new).
    + done.
    + done.
    + intros x [Hx|Hx]%elem_of_app; apply elem_of_app; [left|by right].
      apply Hqueue. by apply list_elem_of_further.
    + rewrite !length_app. lia.
    + intros x Hx Hnot. apply not_elem_of_app in Hnot as [Hrest Hnotnew].
      apply elem_of_app in Hx as [Hx|Hx]; [|done].
      destruct (decide (x = current)) as [->|Hne].
      * exists children. done.
      * destruct (Hdone x Hx) as (cs & Hcs & Hin).
        { intros [->|?]%elem_of_cons; done. }
        exists cs. split; [done|]. intros c Hc. apply elem_of_app. left. by apply Hin.
    + intros x [Hx|Hx]%elem_of_app; [by apply Hreach|].
      eapply rtc_r; [apply Hreach, Hqueue, list_elem_of_here|].
      exists children. split; [done|]. by apply Hnew.
  - rewrite Hq, Hy, !length_app. lia.
  - intros x. rewrite Hy. intros [Hx|Hx]%elem_of_app; [by left|right; by apply Hnew].
Qed.

(** Safety: whatever the fuel, a finished run satisfies the invariant with
    an empty queue. *)
Lemma loop_yielded root_id fuel : ∀ st ids,
  inv root_id st → loop fuel st = Yielded ids →
  ∃ st', inv root_id st' ∧ queue st' = [] ∧ yielded st' = ids.
Proof.
  induction fuel as [|fuel IH]; intros [q s y] ids Hinv Hrun.
  - cbn in Hrun. destruct q; [|done]. injection Hrun as <-. by eexists.
  - cbn in Hrun. destruct q as [|current rest]; [injection Hrun as <-; by eexists|].
    destruct (fetch_children_ids current) as [children|] eqn:Hfetch; [|done].
    destruct (inv_round _ _ _ _ _ _ Hinv Hfetch) as (Hinv' & _).
    by apply (IH _ _ Hinv').
Qed.

(** A failing run failed at a descendant of the root. *)
Lemma loop_raised root_id fuel : ∀ st,
  inv root_id st → loop fuel st = Raised →
  ∃ x, rtc child root_id x ∧ fetch_children_ids x = None.
Proof.
  induction fuel as [|fuel IH]; intros [q s y] Hinv Hrun.
  - cbn in Hrun. by destruct q.
  - cbn in Hrun. destruct q as [|current rest]; [done|].
    destruct (fetch_children_ids current) as [children|] eqn:Hfetch.
    + destruct (inv_round _ _ _ _ _ _ Hinv Hfetch) as (Hinv' & _). by apply (IH _ Hinv').
    + exists current. split; [|done].
      apply (inv_reach _ _ Hinv), (inv_queue _ _ Hinv). apply list_elem_of_here.
Qed.

Lemma nodup_in_set (l : list string) (pages : gset string) :
  NoDup l → (∀ x, x ∈ l → x ∈ pages) → length l ≤ size pages.
Proof.
  intros Hnodup Hsub. rewrite <- (size_list_to_set (C:=gset string) l Hnodup).
  apply subseteq_size. intros x Hx. apply Hsub. by apply elem_of_list_to_set in Hx.
Qed.

(** Termination: within a finite set of pages closed under children, the
    loop needs at most one round for each page that is still to leave the
    queue. *)
Lemma loop_fuel root_id (pages : gset string) : closed pages → ∀ fuel st,
  inv root_id st → (∀ x, x ∈ yielded st → x ∈ pages) →
  size pages ≤ fuel + (length (yielded st) - length (queue st)) →
  loop fuel st ≠ OutOfFuel.
Proof.
  intros Hclosed. induction fuel as [|fuel IH]; intros [q s y] Hinv Hsub Hfuel.
  - cbn in *. destruct q as [|current rest]; [done|]. exfalso.
    pose proof (nodup_in_set y pages (inv_nodup _ _ Hinv) Hsub) as Hy.
    pose proof (inv_length _ _ Hinv) as Hq. cbn in *. lia.
  - cbn [loop queue]. destruct q as [|current rest]; [done|].
    destruct (fetch_children_ids current) as [children|] eqn:Hfetch; [|done].
    destruct (inv_round _ _ _ _ _ _ Hinv Hfetch) as (Hinv' & Hmeasure & Hfrom).
    cbn [seen yielded]. apply IH; [done| |].
    + intros x Hx. destruct (Hfrom x Hx) as [Hold|Hchild]; [by apply Hsub|].
      eapply Hclosed; [|exact Hfetch|exact Hchild].
      apply Hsub, (inv_queue _ _ Hinv). apply list_elem_of_here.
    + rewrite Hmeasure. cbn [yielded queue] in Hfuel. lia.
Qed.

(** A finished run yielded the root first, no id twice, and exactly the
    descendants of the root, each of which had its children fetched. *)
Lemma loop_spec root_id fuel ids :
  loop fuel (mk [root_id] {[ root_id ]} [root_id]) = Yielded ids →
  (∃ tail, ids = root_id :: tail)
  ∧ NoDup ids
  ∧ (∀ x, x ∈ ids ↔ rtc child root_id x)
  ∧ (∀ x, x ∈ ids → is_Some (fetch_children_ids x)).
Proof.
  intros Hrun.
  destruct (loop_yielded root_id fuel _ ids (traverse_inv_init root_id) Hrun)
    as ([q s y] & Hinv & Hq & Hy). cbn in Hq, Hy. subst q y.
  destruct Hinv as [Hhead Hnodup _ _ _ Hdone Hreach]. cbn in *.
  assert (∀ x, x ∈ ids → ∃ cs, fetch_children_ids x = Some cs ∧ ∀ c, c ∈ cs → c ∈ ids)
    as Hclosed.
  { intros x Hx. apply Hdone; [done|]. by intros ?%elem_of_nil. }
  split_and!; [done|done| |].
  - intros x. split; [apply Hreach|]. revert x.
    apply (rtc_ind_r (λ z, z ∈ ids)).
    + destruct Hhead as [tail ->]. apply list_elem_of_here.
    + intros y z _ (cs' & Hcs' & Hz) Hy.
      destruct (Hclosed y Hy) as (cs & Hcs & Hin). apply Hin. congruence.
  - intros x Hx. destruct (Hclosed x Hx) as (cs & Hcs & _). by exists cs.
Qed.

End with_server.
End TraverseFacts.

(** ** The export loop *)

Module BatchFacts.

Import BatchInv.

Lemma size_list_to_set_le (l : list string) :
  size (list_to_set l : gset string) ≤ length l.
Proof.
  induction l as [|x l IH]; [by rewrite list_to_set_nil, size_empty|].
  rewrite list_to_set_cons, size_union_alt, size_singleton. cbn [length].
  pose proof (subseteq_size (list_to_set l ∖ {[ x ]}) (list_to_set l : gset string)) as Hle.
  assert (list_to_set l ∖ {[ x ]} ⊆ (list_to_set l : gset string)) as Hsub
    by (intros y [Hy _]%elem_of_difference; done).
  specialize (Hle Hsub). lia.
Qed.

Section with_libraries.
Context `{Slugify} `{Sha256} `{HtmlParser} `{Markdownify}.

Lemma convert_page_clock (page : Page.t) (space base_url imported_at : string) :
  (convert_page page space base_url imported_at).1.2 = page_chunks space base_url page
  ∧ (convert_page page space base_url imported_at).2 = page_index space base_url page
  ∧ Batch.doc_path (Doc.slug (convert_page page space base_url imported_at).1.1)
    = page_path space base_url page
  ∧ Doc.chunks (convert_page page space base_url imported_at).1.1
    = page_chunks space base_url page.
Proof. done. Qed.

Lemma page_index_spec (space base_url : string) (page : Page.t) :
  dom (page_index space base_url page)
  = list_to_set (Chunk.chunk_id <$> page_chunks space base_url page)
  ∧ Forall (λ c, page_index space base_url page !! Chunk.chunk_id c
                 = Some (Chunk.text_hash c)) (page_chunks space base_url page).
Proof.
  unfold page_index, page_chunks, convert_page, build_document. cbv zeta. cbn [fst snd].
  set (doc_id := space +:+ _). set (st := fold_left _ _ _).
  assert (numbered doc_id st) as [_ _ _ _ Hdom] by apply numbered_sections, numbered_init.
  split; [done|].
  eapply Forall_impl;
    [apply (AssembleFacts.indexed_sections doc_id); [apply numbered_init|constructor]|].
  by intros c [? _].
Qed.

Lemma index_of_snoc (space base_url : string) (pages : list Page.t) (page : Page.t) :
  index_of space base_url (pages ++ [page])
  = page_index space base_url page ∪ index_of space base_url pages.
Proof. unfold index_of. by rewrite fold_left_app. Qed.

Lemma index_of_dom (space base_url : string) (pages : list Page.t) :
  dom (index_of space base_url pages)
  = list_to_set (Chunk.chunk_id <$> concat (page_chunks space base_url <$> pages)).
Proof.
  induction pages as [|page pages IH] using rev_ind;
    [unfold index_of; cbn; by rewrite dom_empty_L|].
  rewrite index_of_snoc, dom_union_L, IH, (proj1 (page_index_spec _ _ _)).
  rewrite fmap_app, concat_app, fmap_app, list_to_set_app_L. cbn [fmap list_fmap concat].
  rewrite app_nil_r. apply (comm_L (∪)).
Qed.

Lemma index_of_from (space base_url : string) (pages : list Page.t)
    (key text_hash : string) :
  index_of space base_url pages !! key = Some text_hash →
  ∃ c, c ∈ concat (page_chunks space base_url <$> pages)
       ∧ Chunk.chunk_id c = key ∧ Chunk.text_hash c = text_hash.
Proof.
  induction pages as [|page pages IH] using rev_ind;
    [unfold index_of; cbn; by rewrite lookup_empty|].
  rewrite index_of_snoc, fmap_app, concat_app. cbn [fmap list_fmap concat].
  rewrite app_nil_r. intros [Hnew|[_ Hold]]%lookup_union_Some_raw.
  - destruct (page_index_spec space base_url page) as [Hdom Hall].
    assert (key ∈ dom (page_index space base_url page)) as Hkey
      by (apply elem_of_dom; eauto).
    rewrite Hdom in Hkey. apply elem_of_list_to_set, list_elem_of_fmap in Hkey
      as (c & -> & Hc).
    exists c. split; [apply elem_of_app; by right|]. split; [done|].
    rewrite Forall_forall in Hall. specialize (Hall c Hc). congruence.
  - destruct (IH Hold) as (c & Hc & Hid & Hhash).
    exists c. split; [apply elem_of_app; by left|done].
Qed.

Lemma index_of_nodup (space base_url : string) (pages : list Page.t) :
  NoDup (Chunk.chunk_id <$> concat (page_chunks space base_url <$> pages)) →
  Forall (λ c, index_of space base_url pages !! Chunk.chunk_id c
               = Some (Chunk.text_hash c))
         (concat (page_chunks space base_url <$> pages)).
Proof.
  induction pages as [|page pages IH] using rev_ind; [constructor|].
  rewrite index_of_snoc, fmap_app, concat_app. cbn [fmap list_fmap concat].
  rewrite app_nil_r, fmap_app.
  intros (Hold & Hdisj & Hnew)%NoDup_app.
  destruct (page_index_spec space base_url page) as [Hdom Hall].
  apply Forall_app. split.
  - apply Forall_forall. intros c Hc.
    pose proof (IH Hold) as Hall'. rewrite Forall_forall in Hall'.
    rewrite lookup_union_r; [by apply Hall'|].
    apply not_elem_of_dom. rewrite Hdom, elem_of_list_to_set. intros Hin.
    apply (Hdisj (Chunk.chunk_id c)); [|done].
    apply list_elem_of_fmap. eauto.
  - eapply Forall_impl; [exact Hall|]. cbn. intros c Hc.
    by apply lookup_union_Some_l.
Qed.

Lemma step_exported `{FetchPage} `{Clock} (space base_url : string)
    (pages : list Page.t) (st : Batch.state) (page_id : string) :
  exported space base_url pages st →
  exported space base_url (pages ++ option_list (fetch_page page_id))
           (Batch.step space base_url st page_id).
Proof.
  intros [Hchunks Hcount Hindex Hpaths Hdocs]. unfold Batch.step.
  destruct (fetch_page page_id) as [page|]; cbn [option_list];
    [|rewrite app_nil_r; by split].
  pose proof (convert_page_clock page space base_url (now (Batch.processed_docs st)))
    as (Hc & Hi & Hp & _).
  destruct (convert_page page space base_url (now (Batch.processed_docs st)))
    as [[doc chunks] chunk_map] eqn:Hconv.
  cbn [fst snd] in Hc, Hi, Hp. subst chunks chunk_map.
  change (option_list (Some page)) with [page].
  split; cbn [Batch.all_chunks Batch.processed_docs Batch.chunk_index Batch.docs].
  - rewrite Hchunks, fmap_app, concat_app. cbn [fmap list_fmap concat].
    by rewrite app_nil_r.
  - rewrite Hcount, length_app. done.
  - by rewrite index_of_snoc, Hindex.
  - rewrite dom_insert_L, Hpaths, Hp, fmap_app, list_to_set_app_L.
    cbn [fmap list_fmap list_to_set]. rewrite (right_id_L ∅ (∪)). apply (comm_L (∪)).
  - intros path doc' [[<- <-]|[Hne Hold]]%lookup_insert_Some.
    + exists page, (now (Batch.processed_docs st)).
      split; [apply elem_of_app; right; apply list_elem_of_singleton; done|].
      by rewrite Hconv.
    + destruct (Hdocs path doc' Hold) as (page' & t & Hin & Hdoc & Hpath).
      exists page', t. split; [apply elem_of_app; by left|done].
Qed.

Lemma fold_exported `{FetchPage} `{Clock} (space base_url : string)
    (page_ids : list string) :
  exported space base_url (fetched page_ids)
           (fold_left (Batch.step space base_url) page_ids Batch.init).
Proof.
  induction page_ids as [|page_id page_ids IH] using rev_ind.
  - by split.
  - rewrite fold_left_app. unfold fetched. rewrite omap_app. cbn [fold_left].
    replace (omap fetch_page [page_id]) with (option_list (fetch_page page_id))
      by (cbn; by destruct (fetch_page page_id)).
    by apply step_exported.
Qed.

Lemma fold_clock `{FetchPage} (clock1 clock2 : Clock) (space base_url : string)
    (page_ids : list string) :
  let st1 := fold_left (@Batch.step _ _ _ _ _ clock1 space base_url) page_ids Batch.init in
  let st2 := fold_left (@Batch.step _ _ _ _ _ clock2 space base_url) page_ids Batch.init in
  Batch.all_chunks st1 = Batch.all_chunks st2
  ∧ Batch.chunk_index st1 = Batch.chunk_index st2
  ∧ Batch.processed_docs st1 = Batch.processed_docs st2
  ∧ dom (Batch.docs st1) = dom (Batch.docs st2).
Proof.
  intros st1 st2. subst st1 st2.
  destruct (@fold_exported _ clock1 space base_url page_ids) as [-> -> -> -> _].
  destruct (@fold_exported _ clock2 space base_url page_ids) as [-> -> -> -> _].
  done.
Qed.

Lemma fetched_nil `{FetchPage} (page_ids : list string) :
  fetched page_ids = [] ↔ ∀ x, x ∈ page_ids → fetch_page x = None.
Proof.
  unfold fetched. induction page_ids as [|page_id page_ids IH]; cbn.
  - split; [by intros _ x ?%elem_of_nil|done].
  - destruct (fetch_page page_id) as [page|] eqn:Hpage.
    + split; [done|]. intros Hall.
      specialize (Hall page_id (list_elem_of_here _ _)). congruence.
    + rewrite IH. split.
      * intros Hall x [->|Hx]%elem_of_cons; auto.
      * intros Hall x Hx. apply Hall. by apply list_elem_of_further.
Qed.

(** The two ways in which the traversal of a finite, closed set of pages
    ends. *)
Lemma traverse_cases `{ChildPages} (pages : gset string) (fuel : nat)
    (settings : Settings.t) :
  Settings.root_page_id settings ∈ pages →
  TraverseInv.closed pages →
  size pages ≤ fuel →
  (traverse_descendants fuel (Settings.root_page_id settings)
                        (Settings.include_children settings) = Traverse.Raised
   ∧ Settings.include_children settings = true
   ∧ ∃ x, rtc TraverseInv.child (Settings.root_page_id settings) x
          ∧ fetch_children_ids x = None)
  ∨ (∃ page_ids,
       traverse_descendants fuel (Settings.root_page_id settings)
                            (Settings.include_children settings)
       = Traverse.Yielded page_ids
       ∧ (∀ x, x ∈ page_ids ↔ in_scope settings x)
       ∧ ¬ (Settings.include_children settings = true
            ∧ ∃ x, rtc TraverseInv.child (Settings.root_page_id settings) x
                   ∧ fetch_children_ids x = None)).
Proof.
  intros Hroot Hclosed Hfuel. unfold traverse_descendants, in_scope.
  set (root_id := Settings.root_page_id settings) in *.
  destruct (Settings.include_children settings).
  2: { right. exists [root_id]. split; [done|]. split; [|by intros [? _]].
       intros x. apply list_elem_of_singleton. }
  pose proof (TraverseFacts.traverse_inv_init root_id) as Hinit.
  destruct (Traverse.loop fuel _) as [ids| |] eqn:Hrun.
  - right. exists ids. split; [done|].
    destruct (TraverseFacts.loop_spec root_id fuel ids Hrun) as (_ & _ & Hall & Hfetched).
    split; [done|]. intros [_ (x & Hreach & Hfail)].
    destruct (Hfetched x) as [cs Hcs]; [by apply Hall|]. congruence.
  - left. split; [done|]. split; [done|].
    by apply (TraverseFacts.loop_raised root_id fuel _ Hinit).
  - exfalso. revert Hrun.
    apply (TraverseFacts.loop_fuel root_id pages Hclosed); [done| |cbn; lia].
    by intros x ->%list_elem_of_singleton.
Qed.

End with_libraries.
End BatchFacts.


(** ** The table mapping *)

Module MappingFacts.

Import MappingInv.

Lemma has_id_spec i n : has_id i n = true ↔ id_of n = Some i.
Proof.
  destruct n as [s|k s|j nm cs]; cbn; [done|done|].
  rewrite bool_decide_eq_true. split; congruence.
Qed.

Lemma id_in (l : list node) (x : node) (i : nat) :
  x ∈ l → id_of x = Some i → i ∈ omap id_of l.
Proof. intros Hx Hi. apply list_elem_of_omap. eauto. Qed.

(** With distinct identities, two tags of the list with the same identity
    are one tag. *)
Lemma same_id (l : list node) (x y : node) (i : nat) :
  NoDup (omap id_of l) → x ∈ l → y ∈ l → id_of x = Some i → id_of y = Some i → x = y.
Proof.
  induction l as [|z l IH]; [by intros _ ?%elem_of_nil|].
  cbn [omap list_omap]. intros Hnd [->|Hx]%elem_of_cons [->|Hy]%elem_of_cons Hix Hiy.
  - done.
  - rewrite Hix in Hnd. apply NoDup_cons in Hnd as [Hi _]. destruct Hi. by eapply id_in.
  - rewrite Hiy in Hnd. apply NoDup_cons in Hnd as [Hi _]. destruct Hi. by eapply id_in.
  - apply IH; try done. destruct (id_of z); [by apply NoDup_cons in Hnd as [_ ?]|done].
Qed.

Lemma find_first (l : list node) (t : node) (i : nat) :
  (∀ x, x ∈ l → id_of x = Some i → x = t) → t ∈ l → id_of t = Some i →
  List.find (has_id i) l = Some t.
Proof.
  induction l as [|z l IH]; [by intros _ ?%elem_of_nil|].
  intros Hall Ht Hi. cbn [List.find]. destruct (has_id i z) eqn:Hz.
  - f_equal. apply Hall; [left|by apply has_id_spec].
  - apply IH; [|  |done].
    + intros x Hx. apply Hall. by right.
    + apply elem_of_cons in Ht as [->|Ht]; [|done].
      apply has_id_spec in Hi. congruence.
Qed.

Lemma elements_before_split (i : nat) (before after : list node) (t : node) :
  (∀ x, x ∈ before → has_id i x = false) → has_id i t = true →
  elements_before (has_id i) (before ++ t :: after) = before.
Proof.
  intros Hb Ht. induction before as [|x before IH]; cbn; [by rewrite Ht|].
  rewrite (Hb x) by left. f_equal. apply IH. intros y Hy. apply Hb. by right.
Qed.

Lemma sd_child (c : node) (i : nat) (nm : string) (cs : list node) (x : node) :
  c ∈ cs → x ∈ self_and_descendants c → x ∈ self_and_descendants (Elem i nm cs).
Proof.
  intros Hc Hx. cbn [self_and_descendants]. right.
  apply list_elem_of_In, in_flat_map. exists c. split; by apply list_elem_of_In.
Qed.

(** Putting a tag where it already is changes nothing. *)
Lemma replace_same (i : nat) (t n : node) :
  (∀ x, x ∈ self_and_descendants n → id_of x = Some i → x = t) →
  replace_id i t n = n.
Proof.
  induction n as [s|k s|j nm cs IH] using HtmlFacts.node_induction; [done|done|].
  intros Hall. cbn [replace_id]. case_bool_decide as Hj.
  - symmetry. apply Hall; [left|by rewrite Hj].
  - f_equal. rewrite <- (map_id cs) at 2. apply map_ext_in. intros c Hc%list_elem_of_In.
    rewrite Forall_forall in IH. apply IH; [done|].
    intros x Hx. apply Hall. by eapply sd_child.
Qed.

Lemma table_in_document (soup t : node) :
  t ∈ find_all ["table"] soup →
  t ∈ self_and_descendants soup ∧ ∃ i nm cs, t = Elem i nm cs.
Proof.
  unfold find_all. intros [Htag Ht]%list_elem_of_In%filter_In. split.
  - rewrite HtmlFacts.self_and_descendants_eq. right. by apply list_elem_of_In.
  - destruct t as [s|k s|i nm cs]; [done|done|eauto].
Qed.

Lemma extract_th_table `{Slugify} (t : node) :
  find_all ["th"] t ≠ [] →
  table_after (_extract_table t) = t ∧ detached_row (_extract_table t) = None.
Proof.
  intros Hth. unfold _extract_table, Extract.header_cells.
  destruct (find_all ["th"] t) as [|c cells]; [done|].
  by destruct (fold_left Extract.row_step _ _).
Qed.

Section with_document.
Context `{Slugify} (soup : node) (Hids : NoDup (tag_ids soup)).

Lemma split_at (t : node) (i : nat) :
  t ∈ self_and_descendants soup → id_of t = Some i →
  ∃ before after, self_and_descendants soup = before ++ t :: after ∧ t ∉ before.
Proof using Hids.
  intros Ht Hi. apply list_elem_of_split in Ht as (before & after & Hsd).
  exists before, after. split; [done|]. intros Hin.
  unfold tag_ids in Hids. rewrite Hsd, omap_app in Hids.
  cbn [omap list_omap] in Hids. rewrite Hi in Hids.
  apply NoDup_app in Hids as (_ & Hdisj & _).
  apply (Hdisj i); [by eapply id_in|left].
Qed.

Lemma before_clean (t : node) (i : nat) (before after : list node) :
  self_and_descendants soup = before ++ t :: after → t ∉ before → id_of t = Some i →
  ∀ x, x ∈ before → has_id i x = false.
Proof using Hids.
  intros Hsd Hnot Hi x Hx. apply not_true_iff_false. intros Hxi%has_id_spec.
  apply Hnot. replace t with x; [done|].
  apply (same_id (self_and_descendants soup) x t i); try done.
  - rewrite Hsd. apply elem_of_app. by left.
  - rewrite Hsd. apply elem_of_app. right. left.
Qed.

Lemma filter_heading (l : list node) :
  List.filter (is_tag HEADING_TAGS) l = List.filter heading l.
Proof. apply List.filter_ext. by intros [s|k s|i nm cs]. Qed.

Lemma section_of_key (t : node) (i : nat) (key : string) :
  t ∈ self_and_descendants soup → id_of t = Some i →
  section_of soup t key ↔ key = key_of soup i.
Proof using Hids.
  intros Ht Hi.
  assert (∀ before after,
            self_and_descendants soup = before ++ t :: after → t ∉ before →
            key_of soup i = match last (List.filter heading before) with
                       | Some h =>
                           if decide (get_text "" h = "") then "overview"
                           else slugify_text (get_text "" h) "-"
                       | None => "overview"
                       end) as Hkey.
  { intros before after Hsd Hnot. unfold key_of, find_previous.
    rewrite Hsd, elements_before_split, filter_heading.
    - destruct (last _) as [h|]; [|done]. cbv zeta.
      destruct (get_text "" h) eqn:Et; by case_decide.
    - by apply (before_clean t i before after).
    - by apply has_id_spec. }
  split.
  - intros (before & after & Hsd & Hnot & ->). symmetry. by eapply Hkey.
  - intros ->. destruct (split_at t i Ht Hi) as (before & after & Hsd & Hnot).
    exists before, after. split; [done|]. split; [done|]. by eapply Hkey.
Qed.

Lemma table_step_filed (done : list node) (t : node) (m : gmap string (list Table)) :
  t ∈ find_all ["table"] soup → find_all ["th"] t ≠ [] →
  (∀ key, m !! key = filed soup done key) →
  ∃ m', table_step ([soup], m) t = ([soup], m')
        ∧ ∀ key, m' !! key = filed soup (done ++ [t]) key.
Proof using Hids.
  intros [Hin (i & nm & cs & ->)]%table_in_document Hth Hm.
  assert (∀ x, x ∈ self_and_descendants soup → id_of x = Some i → x = Elem i nm cs) as Hone.
  { intros x Hx Hi. by apply (same_id (self_and_descendants soup) x (Elem i nm cs) i). }
  unfold table_step, locate. cbn [flat_map].
  rewrite (find_first _ (Elem i nm cs) i) by done. cbn [app head].
  fold (key_of soup i). destruct (extract_th_table _ Hth) as [-> ->].
  cbn [map option_list app]. rewrite replace_same by done.
  eexists. split; [done|]. intros key. unfold filed. rewrite filter_app, filter_cons, filter_nil.
  cbn [id_of fmap option_fmap option_map]. destruct (decide (key = key_of soup i)) as [->|Hne].
  - rewrite lookup_insert_eq, Hm. unfold filed. rewrite decide_True by done.
    destruct (filter _ done) as [|d ds]; [done|].
    cbn [default app]. by rewrite !fmap_cons, fmap_app.
  - rewrite lookup_insert_ne, Hm by done. unfold filed.
    rewrite decide_False by congruence. by rewrite app_nil_r.
Qed.

Lemma table_fold_filed (done : list node) :
  (∀ t, t ∈ done → t ∈ find_all ["table"] soup ∧ find_all ["th"] t ≠ []) →
  ∃ m, fold_left table_step done ([soup], ∅) = ([soup], m)
       ∧ ∀ key, m !! key = filed soup done key.
Proof using Hids.
  induction done as [|t done IH] using rev_ind; intros Hall.
  - exists ∅. split; [done|]. intros key. by rewrite lookup_empty.
  - destruct IH as (m & Hfold & Hm).
    { intros x Hx. apply Hall, elem_of_app. by left. }
    destruct (Hall t) as [Ht Hth]; [apply elem_of_app; right; left|].
    destruct (table_step_filed done t m Ht Hth Hm) as (m' & Hstep & Hm').
    exists m'. by rewrite fold_left_app, Hfold.
Qed.

End with_document.
End MappingFacts.


(** ** The path of a document file *)

Module PathFacts.

Import SpecWords WordsFacts.
#[local] Arguments Ascii.eqb : simpl never.

Lemma join_concat (sep : string) (l : list string) : join sep l = String.concat sep l.
Proof.
  induction l as [|x [|y l] IH]; [done|done|].
  change (join sep (x :: y :: l)) with (x +:+ sep +:+ join sep (y :: l)).
  by rewrite IH.
Qed.

Lemma concat_snoc (sep : string) (l : list string) (x y : string) :
  String.concat sep (l ++ [x]) +:+ y = String.concat sep (l ++ [x +:+ y]).
Proof.
  induction l as [|a l IH]; [done|].
  destruct l as [|b l]; cbn [app] in *.
  - rewrite !concat_cons2. cbn [String.concat]. by rewrite !app_str_assoc.
  - rewrite !concat_cons2, !app_str_assoc. by rewrite IH.
Qed.

Lemma none_in_app (cls : list ascii) (s t : string) :
  none_in cls (s +:+ t) ↔ none_in cls s ∧ none_in cls t.
Proof.
  unfold none_in. induction s as [|c s IH].
  - rewrite app_str_nil_l. cbn. split; [by split; [constructor|]|by intros [_ ?]].
  - rewrite app_str_cons. cbn [list_ascii_of_string]. rewrite !Forall_cons, IH. tauto.
Qed.

(** A slug whose components are neither empty nor a dot is stored under
    [out/docs] as it is written. *)
Lemma doc_path_plain (dirs : list string) (name : string) :
  Forall (λ x, x ≠ "" ∧ x ≠ "." ∧ none_in ["/"%char] x) (dirs ++ [name]) →
  Batch.doc_path (String.concat "/" (dirs ++ [name]))
  = "out/docs/" +:+ String.concat "/" (dirs ++ [name]) +:+ ".json".
Proof.
  intros Hall. unfold Batch.doc_path, PosixPath.joinpath. cbn [fold_left].
  change (PosixPath.join_segment "out" "docs") with "out/docs".
  rewrite concat_snoc.
  assert (Forall (λ x, x ≠ "" ∧ x ≠ "." ∧ none_in ["/"%char] x) (dirs ++ [name +:+ ".json"]))
    as Hall'.
  { apply Forall_app in Hall as [Hdirs [(Hne & _ & Hname) _]%Forall_cons].
    apply Forall_app. split; [done|]. apply Forall_singleton. split_and!.
    - by destruct name.
    - destruct name as [|c [|d name]]; [done| |done].
      rewrite app_str_cons, app_str_nil_l. done.
    - apply none_in_app. split; [done|]. apply none_in_contains. by vm_compute. }
  set (comps := dirs ++ [name +:+ ".json"]) in *.
  assert (comps ≠ []) as Hne by (subst comps; by destruct dirs).
  assert (split "/" (String.concat "/" comps) = comps) as Hsplit.
  { symmetry. apply pieces_unique. split; [done|]. split; [done|].
    eapply Forall_impl; [exact Hall'|]. by intros x (_ & _ & ?). }
  assert (∃ c rest, String.concat "/" comps = String c rest ∧ c ≠ "/"%char)
    as (c & rest & Hhead & Hc).
  { destruct comps as [|x comps]; [done|]. apply Forall_cons in Hall' as [(Hx & _ & Hsl) _].
    destruct x as [|c x]; [done|]. exists c.
    unfold none_in in Hsl. cbn in Hsl. apply Forall_cons in Hsl as [Hc _].
    rewrite list_elem_of_singleton in Hc.
    destruct comps; [by exists x|]. rewrite concat_cons2, app_str_cons. eauto. }
  assert (PosixPath.join_segment "out/docs" (String.concat "/" comps)
          = "out/docs/" +:+ String.concat "/" comps) as ->.
  { rewrite Hhead. unfold PosixPath.join_segment.
    destruct c as [[] [] [] [] [] [] [] []]; try done. }
  unfold PosixPath.normalise.
  change (PosixPath.splitroot ("out/docs/" +:+ String.concat "/" comps))
    with ("", "out/docs/" +:+ String.concat "/" comps).
  cbv beta iota zeta.
  change ("out/docs/" +:+ String.concat "/" comps)
    with ("out" +:+ String "/" ("docs" +:+ String "/" (String.concat "/" comps))).
  rewrite !split_app by by vm_compute. rewrite Hsplit.
  rewrite !filter_cons_True by (split; by vm_compute).
  assert (filter (λ x, x ≠ "" ∧ x ≠ ".") comps = comps) as ->.
  { apply DiffFacts.filter_all. eapply Forall_impl; [exact Hall'|]. by intros x (? & ? & _). }
  rewrite join_concat. destruct comps as [|x comps]; [done|].
  by rewrite !concat_cons2.
Qed.

End PathFacts.

(** ** Splitting the units again *)

Module ResplitFacts.

Import SentenceSpec SentenceFacts.

Lemma splitlines_app (s t : string) :
  every (λ c, negb (is_linebreak c)) s = true →
  splitlines_go false (s +:+ String NL t) = s :: splitlines_go false t.
Proof.
  induction s as [|c s IH]; intros Hs.
  - by rewrite app_str_nil_l.
  - rewrite app_str_cons. cbn [every] in Hs. apply andb_true_iff in Hs as [Hc Hs].
    cbn [splitlines_go andb]. apply negb_true_iff in Hc. rewrite Hc.
    by rewrite IH.
Qed.

Lemma splitlines_clean (s : string) :
  s ≠ "" → every (λ c, negb (is_linebreak c)) s = true → splitlines_go false s = [s].
Proof.
  induction s as [|c s IH]; [done|]. intros _ Hs.
  cbn [every] in Hs. apply andb_true_iff in Hs as [Hc Hs].
  cbn [splitlines_go andb]. apply negb_true_iff in Hc. rewrite Hc.
  destruct s as [|d s]; [done|]. by rewrite IH.
Qed.

Lemma splitlines_join (units : list string) :
  Forall (λ u, u ≠ "" ∧ every (λ c, negb (is_linebreak c)) u = true) units →
  splitlines (join (String NL "") units) = units.
Proof.
  unfold splitlines. induction 1 as [|u units [Hne Hu] Hall IH]; [done|].
  destruct units as [|v units]; [by apply splitlines_clean|].
  change (join _ (u :: v :: units))
    with (u +:+ String NL "" +:+ join (String NL "") (v :: units)).
  rewrite app_str_cons, app_str_nil_l, splitlines_app by done. by rewrite IH.
Qed.

Lemma cuts_prefix prev s piece pieces :
  cuts prev s (piece :: pieces) → ∃ tail, s = piece +:+ tail.
Proof.
  intros Hcuts. remember (piece :: pieces) as l eqn:Hl. revert piece pieces Hl.
  induction Hcuts as [prev|prev c s piece' pieces' Hnb Hcuts IH|prev s gap rest pieces' Hb Hcuts IH];
    intros piece pieces [= <- <-].
  - by exists "".
  - destruct (IH piece' pieces' eq_refl) as [tail ->]. exists tail.
    by rewrite app_str_cons.
  - exists s. by rewrite app_str_nil_l.
Qed.

Lemma boundary_extend prev s gap rest tail :
  boundary prev s gap rest → boundary prev (s +:+ tail) gap (rest +:+ tail).
Proof.
  intros (Hprev & -> & Hne & Hgap & d & r & -> & Hd).
  split_and!; [done| |done|done|].
  - by rewrite app_str_assoc.
  - exists d, (r +:+ tail). by rewrite app_str_cons.
Qed.

Lemma last_char_some prev c before :
  last_char prev (String c before) = last_char None (String c before).
Proof. done. Qed.

(** No piece has a boundary inside: the first one none in its context, the
    others none at all. *)
Lemma cuts_no_inside prev s pieces :
  cuts prev s pieces →
  ∃ piece others, pieces = piece :: others
    ∧ (∀ before after gap rest,
         piece = before +:+ after → ¬ boundary (last_char prev before) after gap rest)
    ∧ Forall (λ q, ¬ boundary_inside q) others.
Proof.
  induction 1 as [prev|prev c s piece pieces Hnb Hcuts IH|prev s gap rest pieces Hb Hcuts IH].
  - exists "", []. split; [done|]. split; [|constructor].
    intros before after gap rest Heq (_ & -> & Hne & _ & d & r & -> & _).
    destruct before; [|done]. rewrite app_str_nil_l in Heq. by destruct gap.
  - destruct IH as (piece' & others & [= <- <-] & Hfirst & Hothers).
    exists (String c piece), pieces. split; [done|]. split; [|done].
    intros before after gap rest Heq Hbd.
    destruct before as [|b before].
    + rewrite app_str_nil_l in Heq. subst after. cbn [last_char] in Hbd.
      destruct (cuts_prefix _ _ _ _ Hcuts) as [tail ->].
      apply (Hnb gap (rest +:+ tail)).
      rewrite <- app_str_cons. by apply boundary_extend.
    + rewrite app_str_cons in Heq. injection Heq as <- ->.
      by apply (Hfirst before after gap rest).
  - destruct IH as (piece & others & -> & Hfirst & Hothers).
    exists "", (piece :: others). split; [done|]. split.
    + intros before after gap' rest' Heq (_ & -> & Hne & _ & d & r & -> & _).
      destruct before; [|done]. rewrite app_str_nil_l in Heq. by destruct gap'.
    + apply Forall_cons. split; [|done].
      intros (before & after & gap' & rest' & -> & Hbd).
      destruct before as [|b before].
      * by destruct Hbd as ((c & Hc & _) & _).
      * apply (Hfirst (String b before) after gap' rest' eq_refl).
        by rewrite last_char_some.
Qed.

Lemma line_units_settled raw units :
  line_units raw units → Forall (λ u, list_marker u ∨ ¬ boundary_inside u) units.
Proof.
  intros [_|Hne Hmarker|pieces Hne _ Hcuts].
  - constructor.
  - apply Forall_singleton. by left.
  - destruct (cuts_no_inside _ _ _ Hcuts) as (piece & others & -> & Hfirst & Hothers).
    apply Forall_cons. split.
    + right. intros (before & after & gap & rest & -> & Hbd).
      by apply (Hfirst before after gap rest).
    + eapply Forall_impl; [exact Hothers|]. by right.
Qed.

Lemma sentences_settled text :
  Forall (λ u, list_marker u ∨ ¬ boundary_inside u) (split_into_sentences text).
Proof.
  unfold split_into_sentences. destruct (negb (nonempty text)); [constructor|].
  destruct (sentence_fold_units (splitlines (strip text)) []) as (units & Hunits & ->).
  simpl. induction Hunits as [|raw us raws uss Hus _ IH]; [constructor|].
  simpl. apply Forall_app. split; [by apply (line_units_settled raw)|done].
Qed.

Lemma sentence_step_fixed lines u :
  tidy u → list_marker u ∨ ¬ boundary_inside u → sentence_step lines u = lines ++ [u].
Proof.
  intros [Hne Hst] Hu.
  destruct (sentence_step_units lines u) as (units & Hunits & ->). f_equal.
  destruct Hunits as [Hblank|_ _|pieces _ Hnm Hcuts]; rewrite ?Hst in *; [done|done|].
  destruct Hu as [Hm|Hnone]; [done|].
  apply (cuts_whole _ _ _ Hcuts). intros before after gap rest Hs Hb.
  apply Hnone. by exists before, after, gap, rest.
Qed.

Lemma sentence_fold_fixed units : ∀ lines,
  Forall (λ u, tidy u ∧ (list_marker u ∨ ¬ boundary_inside u)) units →
  fold_left sentence_step units lines = lines ++ units.
Proof.
  induction units as [|u units IH]; intros lines Hall; [by rewrite app_nil_r|].
  apply Forall_cons in Hall as [[Ht Hu] Hall]. cbn [fold_left].
  rewrite IH, sentence_step_fixed by done. by rewrite <- app_assoc.
Qed.

End ResplitFacts.


(** Claim C1 (the code departs from it).  For the table with the header row
    [Name | Tags] in [th] cells and the data row [Widget | red, blue], and
    any slugifier that maps the two labels to [name] and [tags],
    [_extract_table] returns the columns and display columns of the claim,
    but two body rows: the header row is read again as data, in front of
    the data row. *)
Theorem extract_table_keeps_th_row `{Slugify} :
  slugify "Name" "-" = "name" → slugify "Tags" "-" = "tags" →
  table_data (_extract_table name_tags_table) =
    mkTable ["name"; "tags"] ["Name"; "Tags"]
      [ {[ "name" := CStr "Name"; "tags" := CStr "Tags" ]};
        {[ "name" := CStr "Widget"; "tags" := CList ["red"; "blue"] ]} ].
Proof.
  intros Hname Htags. unfold _extract_table.
  change (Extract.header_cells name_tags_table) with
    ([Elem 2 "th" [Text "Name"]; Elem 3 "th" [Text "Tags"]], name_tags_table, @None node).
  cbv beta iota.
  assert (fold_left Extract.header_step
            [Elem 2 "th" [Text "Name"]; Elem 3 "th" [Text "Tags"]] (Extract.mkNames [] [])
          = Extract.mkNames ["name"; "tags"] ["Name"; "Tags"]) as ->.
  { cbn [fold_left]. unfold Extract.header_step, Extract.add_name, slugify_text.
    change (get_text " " (Elem 2 "th" [Text "Name"])) with "Name".
    change (get_text " " (Elem 3 "th" [Text "Tags"])) with "Tags".
    cbn [nonempty Extract.headers Extract.display_headers app].
    by rewrite Hname, Htags. }
  vm_compute. reflexivity.
Qed.

Lemma extract_table_keeps_th_row_witness :
  table_data (@_extract_table AsciiSlug.slug name_tags_table) =
    mkTable ["name"; "tags"] ["Name"; "Tags"]
      [ {[ "name" := CStr "Name"; "tags" := CStr "Tags" ]};
        {[ "name" := CStr "Widget"; "tags" := CList ["red"; "blue"] ]} ].
Proof.
  apply (@extract_table_keeps_th_row AsciiSlug.slug); reflexivity.
Defined.


(** Claim C4.  The chunks of [chunk_sentences] render consecutive groups of
    the input sentences.  Every chunk has at most 3600 characters unless its
    group is a single sentence of more than 3600 characters; and a sentence
    of more than 3600 characters is always a group of its own, rendered as
    that one sentence (stripped), never cut. *)
Theorem chunk_size_bound (sentences : list string) :
  ∃ groups : list (list string),
    concat groups = sentences
    ∧ chunk_sentences sentences = Chunker.chunk_text <$> groups
    ∧ Forall (λ g, String.length (Chunker.chunk_text g) ≤ 3600
                   ∨ ∃ s, g = [s] ∧ 3600 < String.length s) groups
    ∧ ∀ g s, g ∈ groups → s ∈ g → 3600 < String.length s →
        g = [s] ∧ Chunker.chunk_text g = strip s.
Proof.
  destruct (ChunkerFacts.groups_of_chunks sentences TARGET_CHARS MAX_CHARS)
    as (groups & Hcat & Hch & Hgood).
  exists groups. split; [done|]. split; [done|]. split.
  - eapply Forall_impl; [exact Hgood|]. intros g Hg.
    apply (ChunkerFacts.good_bound MAX_CHARS g Hg).
  - intros g s Hg Hs Hlen.
    assert (g = [s]) as ->; [|done].
    rewrite Forall_forall in Hgood.
    by apply (ChunkerFacts.good_oversized MAX_CHARS g s); [apply Hgood| |].
Qed.


(** Claim C6.  Let the parts of a value for a delimiter be its pieces
    between the delimiters, each without its leading and trailing
    whitespace, the empty ones left out.  For a string cell: if the parts
    for [;] are at least two, the result is the list of them; otherwise, if
    the parts for [,] are at least two, it is the list of those; otherwise
    the string is returned unchanged.  The parts of the first delimiter that
    succeeds are returned as they are, and a cell that is a list already is
    not split again. *)
Theorem maybe_split_list_priority :
  (∀ (value : string) (semis commas : list string),
     SpecWords.parts ";" value semis →
     SpecWords.parts "," value commas →
     _maybe_split_list (CStr value) =
       if decide (2 ≤ length semis) then CList semis
       else if decide (2 ≤ length commas) then CList commas
       else CStr value)
  ∧ (∀ (sep : ascii) (value : string), ∃ qs, SpecWords.parts sep value qs)
  ∧ (∀ parts, _maybe_split_list (CList parts) = CList parts)
  ∧ _maybe_split_list (CStr "red; blue") = CList ["red"; "blue"]
  ∧ _maybe_split_list (CStr "red, blue") = CList ["red"; "blue"]
  ∧ _maybe_split_list (CStr "a, b; c, d") = CList ["a, b"; "c, d"]
  ∧ _maybe_split_list (CStr " x ,, y ;  ") = CList ["x"; "y ;"]
  ∧ _maybe_split_list (CStr "one; ") = CStr "one; "
  ∧ _maybe_split_list (CStr "plain") = CStr "plain".
Proof.
  split_and!; try done.
  - intros value semis commas ->%WordsFacts.parts_spec ->%WordsFacts.parts_spec.
    unfold _maybe_split_list. rewrite !split_on_spec.
    by repeat case_decide.
  - intros sep value. exists (split_parts sep value). by apply WordsFacts.parts_spec.
Qed.



(** Claim C9, amended.  For sentences that are non-empty, have no leading
    or trailing whitespace and contain no newline, splitting every chunk at
    the newlines and concatenating the pieces gives back the sentences. *)
Theorem chunks_split_back (sentences : list string) :
  Forall (λ s, s ≠ "" ∧ strip s = s ∧ contains NL s = false) sentences →
  concat (split NL <$> chunk_sentences sentences) = sentences.
Proof.
  intros Hall.
  destruct (ChunkerFacts.groups_of_chunks sentences TARGET_CHARS MAX_CHARS)
    as (groups & Hcat & Hch & Hgood).
  unfold chunk_sentences. rewrite Hch. subst sentences.
  clear Hch. induction groups as [|g groups IH]; [done|].
  rewrite !fmap_cons, !concat_cons in *.
  apply Forall_cons in Hgood as [[Hne _] Hgood].
  apply Forall_app in Hall as [Hg Hall].
  rewrite IH by done. f_equal. apply chunk_text_split; [done|].
  eapply Forall_impl; [exact Hg|]. intros s (? & ? & ?). by repeat split.
Qed.

Lemma chunks_split_back_witness :
  concat (split NL <$> chunk_sentences ["First."; "- item one"]) = ["First."; "- item one"].
Proof.
  apply chunks_split_back. repeat constructor; done.
Defined.

(** Claim C9 as stated, without the newline condition, fails: the single
    sentence [a], newline, [b] comes back as two pieces. *)
Lemma chunks_split_back_newline_counterexample :
  ¬ ∀ sentences : list string,
      Forall (λ s, s ≠ "" ∧ strip s = s) sentences →
      concat (split NL <$> chunk_sentences sentences) = sentences.
Proof.
  intros H. specialize (H [String "a" (String NL "b")]).
  assert (Forall (λ s, s ≠ "" ∧ strip s = s) [String "a" (String NL "b")]) as Hin
    by (repeat constructor; done).
  apply H in Hin. vm_compute in Hin. discriminate Hin.
Qed.


(** Claim C10.  [_maybe_split_list] on a string returns the string
    unchanged or a list of at least two parts, each non-empty and without
    leading or trailing whitespace; hence every list-valued cell of a row
    that [_extract_table] returns has at least two such entries. *)
Theorem maybe_split_list_shape :
  (∀ value : string,
     _maybe_split_list (CStr value) = CStr value
     ∨ ∃ parts, _maybe_split_list (CStr value) = CList parts
         ∧ 2 ≤ length parts ∧ Forall (λ p, p ≠ "" ∧ strip p = p) parts)
  ∧ (∀ (S : Slugify) (table : node) (row : gmap string cell_value)
       (key : string) (parts : list string),
       row ∈ rows (table_data (_extract_table table)) →
       row !! key = Some (CList parts) →
       2 ≤ length parts ∧ Forall (λ p, p ≠ "" ∧ strip p = p) parts).
Proof.
  split.
  - intros value. unfold _maybe_split_list.
    destruct (split_on ";" value) as [parts|] eqn:Esemi.
    { right. exists parts. split; [done|]. by apply (split_on_shape ";" value). }
    destruct (split_on "," value) as [parts|] eqn:Ecomma.
    { right. exists parts. split; [done|]. by apply (split_on_shape "," value). }
    by left.
  - intros S table row key parts Hrow Hkey.
    pose proof (extract_table_rows_ok table) as Hrows.
    rewrite Forall_forall in Hrows. apply (Hrows row Hrow key _ Hkey).
Qed.






(** Claim C2.  The ranks of the chunks that [build_document] returns are
    0, 1, ..., N-1 in emission order across all sections; every chunk
    identifier is [<doc_id>::<section_id>#<rank>]; the identifiers are
    pairwise distinct whatever the section ids are, so the index has one
    entry per chunk; the document carries the same chunk list. *)
Theorem chunk_ranks_contiguous `{Slugify} `{Sha256} (page : Page.t) (markdown : string)
    (sections : list Sec.t) (table_mapping : gmap string (list Table))
    (space base_url imported_at : string) :
  let result := build_document page markdown sections table_mapping space base_url imported_at in
  let doc := result.1.1 in
  let chunks := result.1.2 in
  let chunk_index := result.2 in
  Chunk.rank <$> chunks = seq 0 (length chunks)
  ∧ Forall (λ c, Chunk.chunk_id c =
                 Doc.id doc +:+ "::" +:+ Chunk.section_id c +:+ "#" +:+ pretty (Chunk.rank c))
           chunks
  ∧ NoDup (Chunk.chunk_id <$> chunks)
  ∧ Doc.chunks doc = chunks
  ∧ size chunk_index = length chunks.
Proof.
  unfold build_document. cbv zeta. cbn [fst snd Doc.id Doc.chunks].
  set (doc_id := space +:+ _).
  set (st := fold_left _ _ _).
  assert (numbered doc_id st) as [Hrank Hseq Hids Hnodup Hindex]
    by apply numbered_sections, numbered_init.
  repeat split; try done.
  rewrite <- size_dom, Hindex, size_list_to_set by done. by rewrite length_fmap.
Qed.

(** Claim C3.  Two page records that agree on page id, title and ancestor
    titles, converted for the same space, get the same document slug and
    the same document identifier, whatever their HTML bodies, versions and
    links are (and whatever the base URL and the clock say). *)
Theorem slug_and_id_ignore_body `{Slugify} `{Sha256} `{HtmlParser} `{Markdownify}
    (page1 page2 : Page.t) (space base_url1 base_url2 imported_at1 imported_at2 : string) :
  Page.id page1 = Page.id page2 →
  Page.title page1 = Page.title page2 →
  Page.ancestors page1 = Page.ancestors page2 →
  let doc1 := (convert_page page1 space base_url1 imported_at1).1.1 in
  let doc2 := (convert_page page2 space base_url2 imported_at2).1.1 in
  Doc.slug doc1 = Doc.slug doc2 ∧ Doc.id doc1 = Doc.id doc2.
Proof.
  intros Hid Htitle Hanc. unfold convert_page, build_document.
  cbn [fst snd Doc.slug Doc.id]. by rewrite Hid, Htitle, Hanc.
Qed.

Lemma slug_and_id_ignore_body_witness :
  let doc1 := (@convert_page AsciiSlug.slug Plain.digest Plain.parser Plain.markdown (page_with_body "<p>Old text.</p>") "OPS" "https://wiki" "t1").1.1 in
  let doc2 := (@convert_page AsciiSlug.slug Plain.digest Plain.parser Plain.markdown page_without_body "OPS" "https://wiki" "t2").1.1 in
  Doc.slug doc1 = Doc.slug doc2 ∧ Doc.id doc1 = Doc.id doc2.
Proof.
  apply (@slug_and_id_ignore_body AsciiSlug.slug Plain.digest Plain.parser Plain.markdown);
    reflexivity.
Defined.

(** Claim C5.  A page whose [body.storage.value] is empty or missing
    converts to a document with exactly one section (id [overview], title
    [Overview], empty body), no chunks and an empty chunk-hash index.  The
    parser and the Markdown converter are third-party: the statement takes
    from them that the empty input parses to an empty document and that an
    empty document converts to the empty string. *)
Theorem empty_body_single_overview `{Slugify} `{Sha256} `{HtmlParser} `{Markdownify}
    (page : Page.t) (space base_url imported_at : string) (root_id : nat) (root_name : string) :
  body_html page = "" →
  html_parser "" = Elem root_id root_name [] →
  markdownify (Elem root_id root_name []) = "" →
  let result := convert_page page space base_url imported_at in
  Doc.sections result.1.1 = [Sec.mk "overview" "Overview" "" ["overview"] None]
  ∧ Doc.chunks result.1.1 = []
  ∧ result.1.2 = []
  ∧ result.2 = ∅.
Proof.
  intros Hbody Hparse Hmd. unfold convert_page.
  rewrite Hbody. unfold _clean_html. rewrite Hparse.
  cbn [decompose_tags flatten_macros unwrap_tags flat_map].
  unfold _html_to_markdown. rewrite Hmd.
  change (strip (collapse_newlines_go 0 "")) with "".
  change (_split_sections "") with [Sec.mk "overview" "Overview" "" ["overview"] None].
  change (_map_tables_to_sections (Elem root_id root_name [])) with (∅ : gmap string (list Table)).
  unfold build_document. cbn [fst snd Doc.sections Doc.chunks].
  done.
Qed.

Lemma empty_body_single_overview_witness :
  let result := @convert_page AsciiSlug.slug Plain.digest Plain.parser Plain.markdown page_without_body "OPS" "https://wiki" "t" in
  Doc.sections result.1.1 = [Sec.mk "overview" "Overview" "" ["overview"] None]
  ∧ Doc.chunks result.1.1 = []
  ∧ result.1.2 = []
  ∧ result.2 = ∅.
Proof.
  apply (@empty_body_single_overview AsciiSlug.slug Plain.digest Plain.parser Plain.markdown
           page_without_body "OPS" "https://wiki" "t" 0 "[document]"); reflexivity.
Defined.

(** Claim C8.  With the previous index {A: h1, B: h2} and the new index
    {A: h1, C: h3}, the diff of [main] counts one changed or new chunk, which
    is C, and one removed chunk, which is B; A counts as neither. *)
Theorem index_diff_example :
  changed_chunks previous_index_AB chunk_index_AC = 1
  ∧ removed_chunks previous_index_AB chunk_index_AC = 1
  ∧ filter (λ item, previous_index_AB !! item.1 ≠ Some item.2) (map_to_list chunk_index_AC)
    = [("C", "h3")]
  ∧ dom previous_index_AB ∖ dom chunk_index_AC = {[ "B" ]}.
Proof. by vm_compute. Qed.

(** X1.  [chunk_sentences] never returns more chunks than it was given
    sentences, and it returns no chunk exactly when it was given none. *)
Theorem chunk_count_bound (sentences : list string) :
  length (chunk_sentences sentences) ≤ length sentences
  ∧ (chunk_sentences sentences = [] ↔ sentences = []).
Proof.
  destruct (ChunkerFacts.groups_of_chunks sentences TARGET_CHARS MAX_CHARS)
    as (groups & Hcat & Hch & Hgood).
  assert (Forall (λ g, g ≠ []) groups) as Hne
    by (eapply Forall_impl; [exact Hgood|]; by intros g [? _]).
  unfold chunk_sentences. rewrite Hch, length_fmap, <- Hcat. split.
  - by apply ChunkerMore.groups_count.
  - split.
    + intros Hnil. apply fmap_nil_inv in Hnil. by rewrite Hnil.
    + intros Hnil. destruct groups as [|g groups]; [done|].
      apply Forall_cons in Hne as [Hg _]. destruct g; [done|]. done.
Qed.

(** X2.  Sentences whose lengths, one separator each included, stay below
    the target of 2000 end up in a single chunk: their join by newlines,
    stripped. *)
Theorem short_input_single_chunk (sentences : list string) :
  sentences ≠ [] →
  sum_list_with (λ s, String.length s + 1) sentences < 2000 →
  chunk_sentences sentences = [strip (join (String NL "") sentences)].
Proof.
  intros Hne Hlt. unfold chunk_sentences, chunk_sentences_with.
  change Chunker.init with (Chunker.mk [] [] (ChunkInv.total [])).
  rewrite (ChunkerMore.fold_below_target TARGET_CHARS MAX_CHARS sentences []);
    [|unfold TARGET_CHARS, MAX_CHARS; lia|exact Hlt].
  unfold Chunker.finish. cbn [Chunker.current app].
  by destruct sentences.
Qed.

Lemma short_input_single_chunk_witness :
  chunk_sentences ["One."; "Two."] = [strip (join (String NL "") ["One."; "Two."])].
Proof.
  apply short_input_single_chunk; [done|]. vm_compute. lia.
Defined.

(** X3.  Every unit that [split_into_sentences] returns is non-empty, has
    no leading or trailing whitespace and contains no line boundary. *)
Theorem sentence_units_tidy (text : string) :
  Forall (λ u, u ≠ "" ∧ strip u = u
               ∧ SentenceSpec.every (λ c, negb (is_linebreak c)) u = true)
         (split_into_sentences text).
Proof.
  eapply Forall_impl; [apply SentenceMore.sentences_clean|].
  by intros u [[? ?] ?].
Qed.

(** X4.  Chunking the units of a text loses nothing: the chunks split at
    their newlines are the units again, in order. *)
Theorem chunks_of_text_split_back (text : string) :
  concat (split NL <$> chunk_sentences (split_into_sentences text))
  = split_into_sentences text.
Proof.
  destruct (ChunkerFacts.groups_of_chunks (split_into_sentences text) TARGET_CHARS MAX_CHARS)
    as (groups & Hcat & Hch & Hgood).
  unfold chunk_sentences. rewrite Hch, <- Hcat.
  apply SentenceMore.rejoin_groups.
  - eapply Forall_impl; [exact Hgood|]. by intros g [? _].
  - rewrite Hcat. eapply Forall_impl; [apply SentenceMore.sentences_clean|].
    intros u [Ht He]. split; [done|].
    by apply (SentenceMore.every_contains _ NL u He).
Qed.

(** X5.  Every section of [_split_sections] has its id as its only anchor,
    no tables yet, a stripped body, and a non-empty stripped title; unless
    the Markdown is blank, its id is the slug of its title. *)
Theorem split_sections_shape `{Slugify} (markdown : string) :
  Forall (λ s, Sec.anchors s = [Sec.id s]
               ∧ Sec.table_json s = None
               ∧ strip (Sec.body_md s) = Sec.body_md s
               ∧ Sec.title s ≠ "" ∧ strip (Sec.title s) = Sec.title s
               ∧ (strip markdown ≠ "" → Sec.id s = slugify_text (Sec.title s) "-"))
         (_split_sections markdown).
Proof.
  unfold _split_sections. destruct (strip markdown) as [|c r] eqn:Emd; cbn [nonempty negb].
  - apply Forall_singleton. by repeat split.
  - destruct (SectionFacts.fold_well_formed (splitlines markdown)
                (Segmenter.mk [] "Overview" [])) as [Hs Ht]; [constructor|done|].
    eapply Forall_impl; [apply SectionFacts.flush_well_formed; [exact Hs|exact Ht]|].
    intros s (? & ? & ? & [? ?] & ?). by repeat split.
Qed.

(** X6.  [_split_sections] returns at least one section and at most one
    more than the Markdown has heading lines. *)
Theorem split_sections_count `{Slugify} (markdown : string) :
  1 ≤ length (_split_sections markdown)
  ∧ length (_split_sections markdown)
    ≤ 1 + length (List.filter (λ line, bool_decide (is_Some (heading_match line)))
                              (splitlines markdown)).
Proof.
  unfold _split_sections. destruct (negb (nonempty (strip markdown))); [simpl; lia|].
  rewrite SectionFacts.flush_length. split; [lia|].
  pose proof (SectionFacts.fold_count (splitlines markdown) (Segmenter.mk [] "Overview" [])) as Hc.
  cbn [Segmenter.sections length] in Hc.
  replace (List.filter (λ line, bool_decide (is_Some (heading_match line))) (splitlines markdown))
    with (List.filter SectionInv.is_heading (splitlines markdown)); [lia|].
  apply List.filter_ext. intros line. unfold SectionInv.is_heading.
  destruct (heading_match line); [by rewrite bool_decide_eq_true_2|].
  rewrite bool_decide_eq_false_2; [done|]. by intros [? ?].
Qed.

(** X7.  Markdown that is not blank and has no heading line becomes the
    single section [Overview] whose body is all its lines. *)
Theorem split_sections_without_heading `{Slugify} (markdown : string) :
  strip markdown ≠ "" →
  Forall (λ line, heading_match line = None) (splitlines markdown) →
  _split_sections markdown =
    [Sec.mk (slugify_text "Overview" "-") "Overview"
            (strip (join (String NL "") (splitlines markdown)))
            [slugify_text "Overview" "-"] None].
Proof.
  intros Hne Hall. unfold _split_sections.
  replace (negb (nonempty (strip markdown))) with false by by destruct (strip markdown).
  by rewrite SectionFacts.fold_no_heading.
Qed.

Lemma split_sections_without_heading_witness :
  @_split_sections AsciiSlug.slug "Just a paragraph. #### not a heading" =
    [Sec.mk "overview" "Overview" "Just a paragraph. #### not a heading" ["overview"] None].
Proof.
  apply (@split_sections_without_heading AsciiSlug.slug); [done|].
  repeat constructor.
Defined.

(** X8.  A line opens a section exactly when it is one, two or three
    hashes, then whitespace, then the heading text; four hashes or a hash
    without whitespace after it make a body line. *)
Theorem heading_levels (line group2 : string) :
  heading_match line = Some group2 ↔
  ∃ hashes gap rest,
    line = hashes +:+ gap +:+ rest
    ∧ hashes ∈ ["#"; "##"; "###"]
    ∧ gap ≠ "" ∧ SentenceSpec.every isspace gap = true
    ∧ match rest with EmptyString => True | String c _ => isspace c = false end
    ∧ group2 = until_newline rest.
Proof.
  unfold heading_match. rewrite SectionFacts.heading_pattern_match. cbv zeta. split.
  - pose proof (SentenceFacts.span_eq (Ascii.eqb "#") line) as Hline.
    pose proof (SentenceFacts.span_every (Ascii.eqb "#") line) as Hhash.
    destruct (SentenceSpec.span (Ascii.eqb "#") line) as [hashes after].
    cbn [fst snd] in *.
    pose proof (SentenceFacts.span_eq isspace after) as Hafter.
    pose proof (SentenceFacts.span_every isspace after) as Hgap.
    pose proof (SectionFacts.span_rest_head isspace after) as Hrest.
    destruct (SentenceSpec.span isspace after) as [gap rest].
    cbn [fst snd] in *.
    destruct (_ && _) eqn:Hcond; [|done]. intros [= <-].
    apply andb_true_iff in Hcond as [[Hlo Hhi]%andb_true_iff Hg].
    apply Nat.leb_le in Hlo, Hhi, Hg.
    exists hashes, gap, rest. repeat split; try done.
    + by rewrite Hafter.
    + by apply SectionFacts.hashes_1_3.
    + destruct gap; [simpl in Hg; lia|done].
  - intros (hashes & gap & rest & -> & Hh & Hne & Hgap & Hrest & ->).
    assert (∃ g gs, gap = String g gs ∧ isspace g = true) as (g & gs & -> & Hg).
    { destruct gap as [|g gs]; [done|]. exists g, gs. split; [done|].
      simpl in Hgap. by apply andb_true_iff in Hgap as [? _]. }
    assert (SentenceSpec.every (Ascii.eqb "#") hashes = true ∧ 1 ≤ String.length hashes ≤ 3)
      as [Hev [Hlo Hhi]].
    { apply list_elem_of_In in Hh. simpl in Hh.
      destruct Hh as [<-|[<-|[<-|[]]]]; simpl; split; (done || lia). }
    rewrite (SentenceFacts.span_app (Ascii.eqb "#") hashes (String g gs +:+ rest));
      [|done|rewrite app_str_cons; by apply SectionFacts.space_not_hash].
    cbn [fst snd].
    rewrite (SentenceFacts.span_app isspace (String g gs) rest) by done.
    cbn [fst snd String.length].
    apply Nat.leb_le in Hlo, Hhi. by rewrite Hlo, Hhi.
Qed.

(** X9.  In the table that [_extract_table] returns, the column keys are
    the slugs of the display labels, one for one; no display label is
    empty; and every row is non-empty and uses column keys only. *)
Theorem extract_table_shape `{Slugify} (table : node) :
  let t := table_data (_extract_table table) in
  columns t = (λ text, slugify_text text "-") <$> display_columns t
  ∧ Forall (λ label, label ≠ "") (display_columns t)
  ∧ Forall (λ row : gmap string cell_value,
              row ≠ ∅ ∧ ∀ key, is_Some (row !! key) → key ∈ columns t) (rows t).
Proof.
  unfold _extract_table.
  destruct (Extract.header_cells table) as [[cells table'] detached].
  pose proof (TableFacts.header_fold_ok cells (Extract.mkNames [] [])) as Hnm.
  set (nm := fold_left Extract.header_step cells _) in *.
  destruct (TableFacts.rows_fold_shape (find_all ["tr"] table') (nm, []))
    as ([Hcols Hlabels] & Hrows & _); [by apply Hnm|constructor|].
  destruct (fold_left Extract.row_step _ _) as [nm' body_rows].
  cbn [fst snd] in *. by split_and!.
Qed.

(** X10.  [_extract_table] returns one body row for every [tr] of the
    table (as the call leaves it) that has a [td] or [th] cell, dropping
    only the rows without cells; and the table has at least as many columns
    as any of these rows has cells. *)
Theorem extract_table_rows_and_width `{Slugify} (table : node) :
  let out := _extract_table table in
  let trs := find_all ["tr"] (table_after out) in
  length (rows (table_data out))
  = length (List.filter (λ tr, bool_decide (find_all ["td"; "th"] tr ≠ [])) trs)
  ∧ Forall (λ tr, length (find_all ["td"; "th"] tr) ≤ length (columns (table_data out))) trs.
Proof.
  unfold _extract_table.
  destruct (Extract.header_cells table) as [[cells table'] detached].
  pose proof (TableFacts.header_fold_ok cells (Extract.mkNames [] [])) as Hnm.
  set (nm := fold_left Extract.header_step cells _) in *.
  destruct (TableFacts.rows_fold_shape (find_all ["tr"] table') (nm, []))
    as (_ & _ & Hlen & Hwide & _); [by apply Hnm|constructor|].
  destruct (fold_left Extract.row_step _ _) as [nm' body_rows].
  cbn [fst snd table_data table_after rows columns length] in *. split; [|done].
  rewrite Hlen, Nat.add_0_l. f_equal. apply List.filter_ext. intros tr. unfold TableInv.has_cells.
  by destruct (find_all ["td"; "th"] tr).
Qed.

(** X11.  The index that [build_document] returns maps the identifier of
    every chunk to that chunk's hash, which is the digest of its text; and
    it has no other keys. *)
Theorem chunk_index_matches_chunks `{Slugify} `{Sha256} (page : Page.t) (markdown : string)
    (sections : list Sec.t) (table_mapping : gmap string (list Table))
    (space base_url imported_at : string) :
  let result := build_document page markdown sections table_mapping space base_url imported_at in
  let chunks := result.1.2 in
  let chunk_index := result.2 in
  Forall (λ c, chunk_index !! Chunk.chunk_id c = Some (Chunk.text_hash c)
               ∧ Chunk.text_hash c = sha256_text (Chunk.text c)) chunks
  ∧ dom chunk_index = list_to_set (Chunk.chunk_id <$> chunks).
Proof.
  unfold build_document. cbv zeta. cbn [fst snd].
  set (doc_id := space +:+ _). set (st := fold_left _ _ _).
  assert (numbered doc_id st) as [_ _ _ _ Hdom] by apply numbered_sections, numbered_init.
  split; [|done].
  apply (AssembleFacts.indexed_sections doc_id); [apply numbered_init|constructor].
Qed.

(** X12.  The chunks of a document are, section by section and in order,
    the chunks of the section's sentence units under the section's id; a
    section whose body is blank contributes none. *)
Theorem chunk_texts_by_section `{Slugify} `{Sha256} (page : Page.t) (markdown : string)
    (sections : list Sec.t) (table_mapping : gmap string (list Table))
    (space base_url imported_at : string) :
  let chunks :=
    (build_document page markdown sections table_mapping space base_url imported_at).1.2 in
  (λ c, (Chunk.section_id c, Chunk.text c)) <$> chunks
  = flat_map (λ section,
      if nonempty (strip (Sec.body_md section)) then
        (λ text, (Sec.id section, text))
          <$> chunk_sentences (split_into_sentences (Sec.body_md section))
      else []) sections.
Proof.
  unfold build_document. cbv zeta. cbn [fst snd].
  rewrite (AssembleFacts.sections_texts _ _ _ (Assemble.mk [] ∅ 0)). cbn [Assemble.chunks fmap list_fmap app].
  induction sections as [|s sections IH]; [done|].
  rewrite fmap_cons. cbn [flat_map]. rewrite IH. f_equal.
  apply AssembleFacts.attach_tables_texts.
Qed.

(** X13.  Every chunk belongs to a section with a non-blank body, carries
    its id and anchors, and its keywords are, in strictly sorted order and
    without repetition, exactly: the slug of the document title, the space
    code in lower case and as given, the slug of the section title,
    [sandbox] and [production]. *)
Theorem chunk_keywords_sorted `{Slugify} `{Sha256} (page : Page.t) (markdown : string)
    (sections : list Sec.t) (table_mapping : gmap string (list Table))
    (space base_url imported_at : string) :
  let result := build_document page markdown sections table_mapping space base_url imported_at in
  let doc := result.1.1 in
  Forall (λ c,
    StronglySorted String.le (Chunk.keywords c)
    ∧ NoDup (Chunk.keywords c)
    ∧ ∃ s, s ∈ sections
        ∧ Chunk.section_id c = Sec.id s
        ∧ Chunk.anchors c = Sec.anchors s
        ∧ strip (Sec.body_md s) ≠ ""
        ∧ ∀ k, k ∈ Chunk.keywords c ↔
               k ∈ [slugify_text (Doc.title doc) "-"; lower space; space;
                    slugify_text (Sec.title s) "-"; "sandbox"; "production"])
    result.1.2.
Proof.
  unfold build_document. cbv zeta. cbn [fst snd Doc.title].
  set (title := default "Untitled Page" (Page.title page)).
  set (doc_keywords := ({[ _; _; _ ]} : gset string)).
  set (attached := Assemble.attach_tables table_mapping <$> sections).
  set (doc_id := space +:+ _).
  pose proof (AssembleFacts.sections_origin doc_id
                doc_keywords attached attached (Assemble.mk [] ∅ 0)) as Horigin.
  eapply Forall_impl; [apply Horigin; [done|constructor]|].
  intros c (s' & Hs' & Hsec & Hanch & Hbody & Hkw).
  apply list_elem_of_fmap in Hs' as (s & -> & Hs).
  destruct (AssembleFacts.attach_tables_fields table_mapping s) as (Hid & Htitle & Hb & Ha).
  cbv zeta in *. rewrite Hid in Hsec. rewrite Ha in Hanch. rewrite Hb in Hbody.
  rewrite Htitle in Hkw.
  destruct (AssembleFacts.sorted_spec
              (doc_keywords ∪ {[ slugify_text (Sec.title s) "-" ]} ∪ {[ "sandbox"; "production" ]}))
    as (Hsorted & Hnodup & Helem).
  rewrite <- Hkw in Hsorted, Hnodup, Helem.
  split_and!; [done|done|]. exists s. split_and!; try done.
  intros k. rewrite Helem. subst doc_keywords.
  rewrite !elem_of_union, !elem_of_singleton, !elem_of_cons, elem_of_nil. tauto.
Qed.

(** X14.  The document identifier is the space code, the slug with its
    slashes turned into dashes, and a suffix of exactly four characters, all
    joined by dashes.  The suffix is the last four characters of the page id,
    or the whole page id padded on the left with zeros when it is shorter. *)
Theorem document_id_suffix `{Slugify} `{Sha256} (page : Page.t) (markdown : string)
    (sections : list Sec.t) (table_mapping : gmap string (list Table))
    (space base_url imported_at : string) :
  let doc := (build_document page markdown sections table_mapping space base_url imported_at).1.1 in
  let page_id := Doc.source_page_id doc in
  ∃ last4,
    Doc.id doc = space +:+ "-" +:+ replace_char "/" "-" (Doc.slug doc) +:+ "-" +:+ last4
    ∧ String.length last4 = 4
    ∧ (4 ≤ String.length page_id → ∃ front, page_id = front +:+ last4)
    ∧ (String.length page_id ≤ 4 →
       last4 = string_of_list_ascii (replicate (4 - String.length page_id) "0"%char)
               +:+ page_id).
Proof.
  unfold build_document. cbv zeta. cbn [fst snd Doc.id Doc.slug Doc.source_page_id].
  set (page_id := default "None" (Page.id page)).
  exists (rjust 4 "0" (last_chars 4 page_id)). split_and!.
  - done.
  - rewrite DocIdFacts.rjust_length, DocIdFacts.last_chars_length. lia.
  - intros Hlen. rewrite DocIdFacts.rjust_long by (rewrite DocIdFacts.last_chars_length; lia).
    apply DocIdFacts.last_chars_suffix.
  - intros Hlen. by rewrite DocIdFacts.last_chars_short.
Qed.

(** X15.  The page id enters the document identifier through its last four
    characters only: two pages of one space with the same title and ancestor
    titles whose ids end in the same four characters get the same slug and
    the same identifier. *)
Theorem document_id_collision `{Slugify} `{Sha256} `{HtmlParser} `{Markdownify}
    (page1 page2 : Page.t) (space base_url1 base_url2 imported_at1 imported_at2 : string) :
  last_chars 4 (default "None" (Page.id page1)) = last_chars 4 (default "None" (Page.id page2)) →
  Page.title page1 = Page.title page2 →
  Page.ancestors page1 = Page.ancestors page2 →
  let doc1 := (convert_page page1 space base_url1 imported_at1).1.1 in
  let doc2 := (convert_page page2 space base_url2 imported_at2).1.1 in
  Doc.slug doc1 = Doc.slug doc2 ∧ Doc.id doc1 = Doc.id doc2.
Proof.
  intros Hid Htitle Hanc. unfold convert_page, build_document.
  cbn [fst snd Doc.slug Doc.id]. by rewrite Hid, Htitle, Hanc.
Qed.

Lemma document_id_collision_witness :
  let page1 := Page.mk (Some "10009876") (Some "Notes") None [] None None in
  let page2 := Page.mk (Some "20009876") (Some "Notes") None [] None None in
  let doc1 := (@convert_page AsciiSlug.slug Plain.digest Plain.parser Plain.markdown
                 page1 "OPS" "https://wiki" "t1").1.1 in
  let doc2 := (@convert_page AsciiSlug.slug Plain.digest Plain.parser Plain.markdown
                 page2 "OPS" "https://wiki" "t2").1.1 in
  Doc.slug doc1 = Doc.slug doc2 ∧ Doc.id doc1 = Doc.id doc2.
Proof.
  apply (@document_id_collision AsciiSlug.slug Plain.digest Plain.parser Plain.markdown);
    reflexivity.
Defined.

(** X16.  The section payloads of the document are the given sections in
    order, with id, title, body and anchors unchanged.  A payload never
    carries an empty table list; for a section that came without tables it
    carries the list the table mapping has under the section id when that
    list is non-empty, and none otherwise. *)
Theorem section_payloads `{Slugify} `{Sha256} (page : Page.t) (markdown : string)
    (sections : list Sec.t) (table_mapping : gmap string (list Table))
    (space base_url imported_at : string) :
  let doc := (build_document page markdown sections table_mapping space base_url imported_at).1.1 in
  Forall2 (λ section payload,
      Sec.id payload = Sec.id section
      ∧ Sec.title payload = Sec.title section
      ∧ Sec.body_md payload = Sec.body_md section
      ∧ Sec.anchors payload = Sec.anchors section
      ∧ Sec.table_json payload ≠ Some []
      ∧ (Sec.table_json section = None →
         Sec.table_json payload =
           match table_mapping !! Sec.id section with
           | Some (t :: ts) => Some (t :: ts)
           | _ => None
           end))
    sections (Doc.sections doc).
Proof.
  unfold build_document. cbv zeta. cbn [fst snd Doc.sections].
  rewrite <- list_fmap_compose. apply Forall2_fmap_r, Forall_Forall2_diag, Forall_forall.
  intros s _. unfold compose, Assemble.payload, Assemble.attach_tables.
  destruct s as [i t b a tj]. cbn.
  destruct (table_mapping !! i) as [[|tb tbs]|]; cbn; destruct tj as [[|x xs]|]; cbn; by split_and!.
Qed.

(** X17.  The diff of [main] reports no changed or new chunk and no
    removed chunk exactly when the new index equals the previous one. *)
Theorem index_diff_zero_iff_equal (previous_index chunk_index : gmap string string) :
  changed_chunks previous_index chunk_index = 0
  ∧ removed_chunks previous_index chunk_index = 0
  ↔ previous_index = chunk_index.
Proof.
  rewrite DiffFacts.changed_zero, DiffFacts.removed_zero. split.
  - intros [Hsub Hdom]. apply map_eq. intros cid.
    destruct (previous_index !! cid) as [thash|] eqn:Hprev.
    + assert (cid ∈ dom chunk_index) as [thash' Hnew]%elem_of_dom
        by (apply Hdom, elem_of_dom; eauto).
      rewrite Hnew. rewrite map_subseteq_spec in Hsub.
      apply Hsub in Hnew as Hprev'. congruence.
    + destruct (chunk_index !! cid) as [thash|] eqn:Hnew; [|done].
      rewrite map_subseteq_spec in Hsub. apply Hsub in Hnew. congruence.
  - by intros ->.
Qed.

(** X18.  The changed-or-new count is at most the size of the new index and
    the removed count at most the size of the previous one.  Against an
    empty previous index every chunk counts as new and none as removed;
    against an empty new index every previous chunk counts as removed. *)
Theorem index_diff_bounds (previous_index chunk_index : gmap string string) :
  changed_chunks previous_index chunk_index ≤ size chunk_index
  ∧ removed_chunks previous_index chunk_index ≤ size previous_index
  ∧ changed_chunks ∅ chunk_index = size chunk_index
  ∧ removed_chunks ∅ chunk_index = 0
  ∧ removed_chunks previous_index ∅ = size previous_index.
Proof.
  unfold changed_chunks, removed_chunks. split_and!.
  - etrans; [apply length_filter|]. by rewrite length_map_to_list.
  - rewrite <- (size_dom previous_index). apply subseteq_size.
    intros cid [Hin _]%elem_of_difference. done.
  - rewrite <- length_map_to_list. f_equal. apply DiffFacts.filter_all, Forall_forall.
    intros item _. by rewrite lookup_empty.
  - rewrite dom_empty_L. apply size_empty_iff, elem_of_equiv_empty.
    intros cid [Hin _]%elem_of_difference. by apply not_elem_of_empty in Hin.
  - rewrite dom_empty_L, difference_empty_L. apply size_dom.
Qed.

(** X19.  Below the root of the tree that [_clean_html] returns there is
    no [script], [style], [span] or [div] tag and no tag with a colon in its
    name. *)
Theorem clean_html_residue `{HtmlParser} (html : string) :
  Forall (λ d, match d with
               | Text _ | Special _ _ => True
               | Elem _ nm _ =>
                   (nm ∉ ["script"; "style"; "span"; "div"]) ∧ contains ":" nm = false
               end)
         (descendants (_clean_html html)).
Proof.
  unfold _clean_html.
  assert (HtmlInv.below (λ _, True) (html_parser html)) as H0.
  { unfold HtmlInv.below. apply Forall_forall. by intros [| |]. }
  apply (HtmlFacts.decompose_below _ ["script"; "style"]) in H0.
  apply HtmlFacts.flatten_below in H0.
  apply (HtmlFacts.unwrap_below _ ["span"; "div"]) in H0.
  eapply Forall_impl; [exact H0|].
  intros [s|k s|i nm cs]; cbn; [done|done|]. intros [[[_ Hss] Hcolon] Hsd]. split; [|done].
  rewrite !elem_of_cons, elem_of_nil in *. tauto.
Qed.


(** X20.  The Markdown that [_html_to_markdown] returns has no leading or
    trailing whitespace and never three newlines in a row; when the
    converter's output has no three newlines in a row, it is returned
    stripped and otherwise unchanged. *)
Theorem html_to_markdown_normal `{Markdownify} (soup : node) :
  let markdown := _html_to_markdown soup in
  strip markdown = markdown
  ∧ (∀ a b, markdown ≠ a +:+ String NL (String NL (String NL b)))
  ∧ ((∀ a b, markdownify soup ≠ a +:+ String NL (String NL (String NL b))) →
     markdown = strip (markdownify soup)).
Proof.
  unfold _html_to_markdown. cbv zeta. split_and!.
  - apply strip_idem.
  - apply MarkdownFacts.newlines_ok_no_triple. unfold strip.
    apply MarkdownFacts.newlines_ok_rstrip, (MarkdownFacts.newlines_ok_lstrip _ 0).
    apply MarkdownFacts.collapse_ok.
  - intros Hno. rewrite MarkdownFacts.collapse_same; [done|lia|].
    by apply MarkdownFacts.no_triple_newlines_ok; [lia|].
Qed.

(** X21.  When [traverse_descendants], asked for the children too, runs
    to its end, it has yielded the root first and no id twice; the ids
    yielded are exactly the pages reachable from the root through the child
    lists of the server, cycles and repeated children included; and the
    children of every one of them were fetched. *)
Theorem traverse_yields_descendants `{ChildPages} (fuel : nat) (root_id : string)
    (ids : list string) :
  traverse_descendants fuel root_id true = Traverse.Yielded ids →
  (∃ tail, ids = root_id :: tail)
  ∧ NoDup ids
  ∧ (∀ x, x ∈ ids ↔ rtc TraverseInv.child root_id x)
  ∧ (∀ x, x ∈ ids → is_Some (fetch_children_ids x)).
Proof.
  unfold traverse_descendants. apply TraverseFacts.loop_spec.
Qed.

Lemma traverse_yields_descendants_witness :
  (∃ tail, ["1"; "2"; "3"] = "1" :: tail)
  ∧ NoDup ["1"; "2"; "3"]
  ∧ (∀ x, x ∈ ["1"; "2"; "3"] ↔ rtc (@TraverseInv.child small_tree) "1" x)
  ∧ (∀ x, x ∈ ["1"; "2"; "3"] → is_Some (@fetch_children_ids small_tree x)).
Proof.
  apply (@traverse_yields_descendants small_tree 5 "1"). reflexivity.
Defined.

(** X22.  Over a finite set of pages that holds the root and the children of
    each of its pages, [traverse_descendants] ends within as many rounds
    as the set has pages.  It ends with an HTTP error exactly when children
    were asked for and the request fails for some page reachable from the
    root, so never when only the root was asked for. *)
Theorem traverse_terminates `{ChildPages} (pages : gset string) (fuel : nat)
    (root_id : string) (include_children : bool) :
  root_id ∈ pages →
  TraverseInv.closed pages →
  size pages ≤ fuel →
  traverse_descendants fuel root_id include_children ≠ Traverse.OutOfFuel
  ∧ (traverse_descendants fuel root_id include_children = Traverse.Raised ↔
     include_children = true
     ∧ ∃ x, rtc TraverseInv.child root_id x ∧ fetch_children_ids x = None).
Proof.
  intros Hroot Hclosed Hfuel. unfold traverse_descendants.
  destruct include_children; [|split; [done|split; [done|by intros [? _]]]].
  assert (Traverse.loop fuel (Traverse.mk [root_id] {[ root_id ]} [root_id])
          ≠ Traverse.OutOfFuel) as Hterm.
  { apply (TraverseFacts.loop_fuel root_id pages Hclosed); [apply TraverseFacts.traverse_inv_init| |].
    - intros x ->%list_elem_of_singleton. done.
    - cbn. lia. }
  split; [done|]. split.
  - intros Hrun. split; [done|].
    by apply (TraverseFacts.loop_raised root_id fuel _ (TraverseFacts.traverse_inv_init root_id)).
  - intros [_ (x & Hreach & Hfail)].
    destruct (Traverse.loop fuel _) as [ids| |] eqn:Hrun; [|done|done].
    exfalso.
    destruct (TraverseFacts.loop_spec root_id fuel ids Hrun) as (_ & _ & Hall & Hfetched).
    destruct (Hfetched x) as [cs Hcs]; [by apply Hall|]. congruence.
Qed.

Lemma traverse_terminates_witness :
  @traverse_descendants small_tree 3 "1" true ≠ Traverse.OutOfFuel
  ∧ (@traverse_descendants small_tree 3 "1" true = Traverse.Raised ↔
     true = true
     ∧ ∃ x, rtc (@TraverseInv.child small_tree) "1" x ∧ @fetch_children_ids small_tree x = None).
Proof.
  apply (@traverse_terminates small_tree {[ "1"; "2"; "3" ]} 3 "1" true).
  - rewrite !elem_of_union, !elem_of_singleton. auto.
  - intros x children Hx Hfetch c Hc.
    rewrite !elem_of_union, !elem_of_singleton in Hx |- *.
    destruct Hx as [[-> | ->] | ->]; injection Hfetch as <-;
      rewrite ?elem_of_cons, elem_of_nil in Hc; intuition auto.
  - vm_compute. lia.
Defined.

(** X23.  In the configuration that [env_or_default] returns no setting
    is empty; each is the command-line value when that one is given and
    not empty, and otherwise the value of its variable.  The flag is the
    one of the command line when given there, and only otherwise the
    truth value of [INCLUDE_CHILDREN], [true] when the variable is unset. *)
Theorem env_or_default_settings `{Environ} `{Strtobool} (args : Args.t)
    (settings : Settings.t) :
  env_or_default args = Config settings →
  ConfigInv.resolved (Args.base_url args) "CONF_BASE_URL" (Settings.base_url settings)
  ∧ ConfigInv.resolved (Args.email args) "CONF_EMAIL" (Settings.email settings)
  ∧ ConfigInv.resolved (Args.api_token args) "CONF_API_TOKEN" (Settings.api_token settings)
  ∧ ConfigInv.resolved (Args.space args) "CONF_SPACE" (Settings.space settings)
  ∧ ConfigInv.resolved (Args.root_page_id args) "CONF_ROOT_PAGE_ID"
                       (Settings.root_page_id settings)
  ∧ match Args.include_children args with
    | Some flag => Settings.include_children settings = flag
    | None =>
        strtobool (default "true" (getenv "INCLUDE_CHILDREN"))
        = Some (Settings.include_children settings)
    end.
Proof.
  unfold env_or_default. cbv zeta.
  set (flag := match Args.include_children args with Some f => Some f | None => _ end).
  destruct flag as [include_children|] eqn:Hflag; [|done].
  destruct (_.*1) as [|key missing] eqn:Hmissing; [|done].
  intros [= <-]. cbn [Settings.base_url Settings.email Settings.api_token Settings.space
                      Settings.root_page_id Settings.include_children].
  apply ConfigFacts.missing_none in Hmissing.
  repeat (apply Forall_cons in Hmissing as [?%ConfigFacts.present_resolved Hmissing]).
  cbn [snd] in *. split_and!; try tauto.
  subst flag. destruct (Args.include_children args); congruence.
Qed.

Lemma env_or_default_settings_witness :
  @ConfigInv.resolved small_environ (Args.base_url small_args) "CONF_BASE_URL"
                      (Settings.base_url small_settings)
  ∧ @ConfigInv.resolved small_environ (Args.email small_args) "CONF_EMAIL"
                        (Settings.email small_settings)
  ∧ @ConfigInv.resolved small_environ (Args.api_token small_args) "CONF_API_TOKEN"
                        (Settings.api_token small_settings)
  ∧ @ConfigInv.resolved small_environ (Args.space small_args) "CONF_SPACE"
                        (Settings.space small_settings)
  ∧ @ConfigInv.resolved small_environ (Args.root_page_id small_args) "CONF_ROOT_PAGE_ID"
                        (Settings.root_page_id small_settings)
  ∧ match Args.include_children small_args with
    | Some flag => Settings.include_children small_settings = flag
    | None =>
        @strtobool strtobool_true_false
          (default "true" (@getenv small_environ "INCLUDE_CHILDREN"))
        = Some (Settings.include_children small_settings)
    end.
Proof.
  apply (@env_or_default_settings small_environ strtobool_true_false small_args
           small_settings).
  reflexivity.
Defined.

(** X24.  [env_or_default] fails on the flag only when the command line
    leaves it out and [INCLUDE_CHILDREN] has no truth value.  Otherwise it
    fails exactly when some setting is absent or empty both on the command
    line and in the environment, and its message then names these
    settings, each once and in the order of the dict. *)
Theorem env_or_default_failure `{Environ} `{Strtobool} (args : Args.t) :
  match env_or_default args with
  | Config _ =>
      Forall (λ '(key, arg, name), ¬ ConfigInv.unset arg name) (ConfigInv.sources args)
  | InvalidTruthValue =>
      Args.include_children args = None
      ∧ strtobool (default "true" (getenv "INCLUDE_CHILDREN")) = None
  | MissingKeys missing =>
      missing ≠ []
      ∧ missing `sublist_of` (ConfigInv.sources args).*1.*1
      ∧ Forall (λ '(key, arg, name), key ∈ missing ↔ ConfigInv.unset arg name)
               (ConfigInv.sources args)
  end.
Proof.
  unfold env_or_default. cbv zeta.
  set (flag := match Args.include_children args with Some f => Some f | None => _ end).
  destruct flag as [include_children|] eqn:Hflag.
  2: { subst flag. by destruct (Args.include_children args). }
  set (config := [_; _; _; _; _]).
  destruct (_.*1) as [|key missing] eqn:Hmissing.
  - apply ConfigFacts.missing_none in Hmissing. subst config.
    repeat (apply Forall_cons in Hmissing as [?%(not_iff_compat (ConfigFacts.is_missing_spec _ _)) Hmissing]).
    unfold ConfigInv.sources. repeat constructor; done.
  - rewrite <- Hmissing. split_and!.
    + by rewrite Hmissing.
    + apply (ConfigFacts.missing_sublist config).
    + assert (NoDup config.*1) as Hkeys by (cbn; apply (bool_decide_unpack _); vm_compute; done).
      unfold ConfigInv.sources.
      repeat (apply Forall_cons; split;
              [apply (ConfigFacts.key_missing config); [done|];
               subst config; rewrite !elem_of_cons; tauto|]).
      constructor.
Qed.

(** X25.  The export loop of [main] skips a page whose request fails and
    converts every other one: the chunks collected are the chunks of the
    fetched pages in the order of the page ids, and the count of processed
    documents is the number of fetched pages.  Every document file holds
    the document of a fetched page, with that page's chunks among the
    collected ones, under the path that [pathlib] makes of [out/docs] and
    the slug with [.json]; pages with the same path share a file, so there
    are at most as many files as processed documents.  A slug whose
    components are neither empty nor a dot is stored below [out/docs] as
    written; empty components vanish from the path, and a slug that
    starts with a slash is stored outside [out/docs]. *)
Theorem export_loop_collects `{Slugify} `{Sha256} `{HtmlParser} `{Markdownify}
    `{FetchPage} `{Clock} (space base_url : string) (page_ids : list string) :
  let st := fold_left (Batch.step space base_url) page_ids Batch.init in
  let pages := BatchInv.fetched page_ids in
  Batch.all_chunks st = concat (BatchInv.page_chunks space base_url <$> pages)
  ∧ Batch.processed_docs st = length pages
  ∧ size (Batch.docs st) ≤ Batch.processed_docs st
  ∧ (∀ path doc, Batch.docs st !! path = Some doc →
       ∃ page imported_at,
         page ∈ pages
         ∧ doc = (convert_page page space base_url imported_at).1.1
         ∧ path = Batch.doc_path (Doc.slug doc)
         ∧ Doc.chunks doc ⊆ Batch.all_chunks st)
  ∧ (∀ (dirs : list string) (name : string),
       Forall (λ x, x ≠ "" ∧ x ≠ "." ∧ SpecWords.none_in ["/"%char] x) (dirs ++ [name]) →
       Batch.doc_path (String.concat "/" (dirs ++ [name]))
       = "out/docs/" +:+ String.concat "/" (dirs ++ [name]) +:+ ".json")
  ∧ Batch.doc_path "a//b" = "out/docs/a/b.json"
  ∧ Batch.doc_path "/b" = "/b.json"
  ∧ Batch.doc_path "" = "out/docs/.json".
Proof.
  intros st pages.
  destruct (BatchFacts.fold_exported space base_url page_ids)
    as [Hchunks Hcount Hindex Hpaths Hdocs].
  fold st pages in Hchunks, Hcount, Hindex, Hpaths, Hdocs.
  split_and!; [done|done| | |apply PathFacts.doc_path_plain|by vm_compute..].
  - rewrite <- size_dom, Hpaths, Hcount.
    etrans; [apply BatchFacts.size_list_to_set_le|]. by rewrite length_fmap.
  - intros path doc Hdoc.
    destruct (Hdocs path doc Hdoc) as (page & t & Hin & -> & ->).
    exists page, t.
    destruct (BatchFacts.convert_page_clock page space base_url t) as (_ & _ & Hp & Hc).
    split_and!; [done|done|done|].
    rewrite Hc, Hchunks. intros c Hcin.
    apply list_elem_of_In, in_concat.
    exists (BatchInv.page_chunks space base_url page).
    split; [|by apply list_elem_of_In].
    apply list_elem_of_In, list_elem_of_fmap. eauto.
Qed.

(** X26.  After the export loop the keys of the index are the identifiers
    of the collected chunks, and every entry is the hash of a collected
    chunk with that identifier, so the index never has more entries than
    there are chunks.  When the identifiers are pairwise distinct the index
    holds the hash of every chunk and has as many entries as there are
    chunks. *)
Theorem export_loop_index `{Slugify} `{Sha256} `{HtmlParser} `{Markdownify}
    `{FetchPage} `{Clock} (space base_url : string) (page_ids : list string) :
  let st := fold_left (Batch.step space base_url) page_ids Batch.init in
  let ids := Chunk.chunk_id <$> Batch.all_chunks st in
  dom (Batch.chunk_index st) = list_to_set ids
  ∧ size (Batch.chunk_index st) ≤ length (Batch.all_chunks st)
  ∧ (∀ key text_hash, Batch.chunk_index st !! key = Some text_hash →
       ∃ c, c ∈ Batch.all_chunks st
            ∧ Chunk.chunk_id c = key ∧ Chunk.text_hash c = text_hash)
  ∧ (NoDup ids →
       size (Batch.chunk_index st) = length (Batch.all_chunks st)
       ∧ Forall (λ c, Batch.chunk_index st !! Chunk.chunk_id c
                      = Some (Chunk.text_hash c)) (Batch.all_chunks st)).
Proof.
  intros st ids. subst ids.
  destruct (BatchFacts.fold_exported space base_url page_ids)
    as [Hchunks Hcount Hindex _ _].
  fold st in Hchunks, Hcount, Hindex. rewrite Hindex, Hchunks.
  pose proof (BatchFacts.index_of_dom space base_url (BatchInv.fetched page_ids)) as Hdom.
  split_and!.
  - done.
  - rewrite <- size_dom, Hdom.
    etrans; [apply BatchFacts.size_list_to_set_le|]. by rewrite length_fmap.
  - apply BatchFacts.index_of_from.
  - intros Hnodup. split; [|by apply BatchFacts.index_of_nodup].
    rewrite <- size_dom, Hdom, size_list_to_set by done. by rewrite length_fmap.
Qed.

(** X27.  What [main] does with the pages does not depend on the clock:
    a second run against the same server ends the same way, and if the
    first one exported, the second one writes the same chunks and the same
    index; started from the index that the first one wrote, it reports no
    changed, new or removed chunk. *)
Theorem main_rerun_reports_no_change `{Slugify} `{Sha256} `{HtmlParser} `{Markdownify}
    `{Environ} `{Strtobool} `{ChildPages} `{FetchPage} (clock1 clock2 : Clock)
    (fuel : nat) (args : Args.t) (previous_index : gmap string string) :
  match @main _ _ _ _ _ _ _ _ clock1 fuel args previous_index with
  | Batch.Exported docs chunks_file state_file total _ _ =>
      ∃ docs',
        @main _ _ _ _ _ _ _ _ clock2 fuel args state_file
        = Batch.Exported docs' chunks_file state_file total 0 0
        ∧ dom docs' = dom docs
  | outcome =>
      ∀ other_index, @main _ _ _ _ _ _ _ _ clock2 fuel args other_index = outcome
  end.
Proof.
  unfold main. destruct (env_or_default args) as [settings| |missing]; [|done|done].
  destruct (traverse_descendants _ _ _) as [page_ids| |]; [|done|done].
  destruct (BatchFacts.fold_clock clock1 clock2 (Settings.space settings)
              (Settings.base_url settings) page_ids) as (Hchunks & Hindex & Hcount & Hdocs).
  cbv zeta in *. rewrite <- Hcount.
  destruct (Batch.processed_docs _ =? 0); [done|].
  eexists. rewrite <- Hchunks, <- Hindex. split; [|by symmetry].
  f_equal.
  - by apply DiffFacts.changed_zero.
  - by apply DiffFacts.removed_zero.
Qed.

(** X28.  With a valid configuration and a finite page tree, [main] ends.
    A failed request for the children of a page in the tree aborts the run
    with the error, whereas a failed request for a page only skips that
    page: the run exports nothing exactly when no page in scope can be
    fetched. *)
Theorem main_outcome `{Slugify} `{Sha256} `{HtmlParser} `{Markdownify}
    `{Environ} `{Strtobool} `{ChildPages} `{FetchPage} `{Clock}
    (pages : gset string) (fuel : nat) (args : Args.t) (settings : Settings.t)
    (previous_index : gmap string string) :
  env_or_default args = Config settings →
  Settings.root_page_id settings ∈ pages →
  TraverseInv.closed pages →
  size pages ≤ fuel →
  let outcome := main fuel args previous_index in
  let children_fail :=
    Settings.include_children settings = true
    ∧ ∃ x, rtc TraverseInv.child (Settings.root_page_id settings) x
           ∧ fetch_children_ids x = None in
  outcome ≠ Batch.ConfigError
  ∧ outcome ≠ Batch.OutOfFuel
  ∧ (outcome = Batch.Uncaught ↔ children_fail)
  ∧ (outcome = Batch.NoDocuments ↔
     ¬ children_fail ∧ ∀ x, BatchInv.in_scope settings x → fetch_page x = None).
Proof.
  intros Hconfig Hroot Hclosed Hfuel. cbv zeta. unfold main. rewrite Hconfig.
  destruct (BatchFacts.traverse_cases pages fuel settings Hroot Hclosed Hfuel)
    as [(-> & Hfail)|(page_ids & -> & Hscope & Hok)].
  { split_and!; [done|done|by split|].
    split; [done|]. by intros [Hnot _]. }
  destruct (BatchFacts.fold_exported (Settings.space settings)
              (Settings.base_url settings) page_ids) as [_ Hcount _ _ _].
  rewrite Hcount.
  destruct (length (BatchInv.fetched page_ids) =? 0) eqn:Hzero.
  - apply Nat.eqb_eq, length_zero_iff_nil in Hzero.
    pose proof (proj1 (BatchFacts.fetched_nil page_ids) Hzero) as Hnone.
    split_and!; try done. split; [|done]. intros _. split; [done|].
    intros x Hx. by apply Hnone, Hscope.
  - split_and!; try done. split; [done|]. intros [_ Hnone]. exfalso.
    apply Nat.eqb_neq in Hzero. apply Hzero, length_zero_iff_nil.
    apply (proj2 (BatchFacts.fetched_nil page_ids)).
    intros x Hx. by apply Hnone, Hscope.
Qed.

Lemma main_outcome_witness :
  let outcome :=
    @main AsciiSlug.slug Plain.digest Plain.parser Plain.markdown small_environ
          strtobool_true_false small_tree small_server stopped_clock 3 small_args ∅ in
  let children_fail :=
    Settings.include_children small_settings = true
    ∧ ∃ x, rtc (@TraverseInv.child small_tree) (Settings.root_page_id small_settings) x
           ∧ @fetch_children_ids small_tree x = None in
  outcome ≠ Batch.ConfigError
  ∧ outcome ≠ Batch.OutOfFuel
  ∧ (outcome = Batch.Uncaught ↔ children_fail)
  ∧ (outcome = Batch.NoDocuments ↔
     ¬ children_fail
     ∧ ∀ x, @BatchInv.in_scope small_tree small_settings x
            → @fetch_page small_server x = None).
Proof.
  apply (@main_outcome AsciiSlug.slug Plain.digest Plain.parser Plain.markdown small_environ
           strtobool_true_false small_tree small_server stopped_clock
           {[ "1"; "2"; "3" ]} 3 small_args small_settings ∅).
  - reflexivity.
  - cbn. rewrite !elem_of_union, !elem_of_singleton. auto.
  - intros x children Hx Hfetch c Hc.
    rewrite !elem_of_union, !elem_of_singleton in Hx |- *.
    destruct Hx as [[-> | ->] | ->]; injection Hfetch as <-;
      rewrite ?elem_of_cons, elem_of_nil in Hc; intuition auto.
  - vm_compute. lia.
Defined.

(** X29.  The units of a text are stable: joined by newlines, as the
    chunker joins them, and split again, they come back unchanged. *)
Theorem split_into_sentences_stable (text : string) :
  split_into_sentences (join (String NL "") (split_into_sentences text))
  = split_into_sentences text.
Proof.
  pose proof (SentenceMore.sentences_clean text) as Hclean.
  pose proof (ResplitFacts.sentences_settled text) as Hsettled.
  destruct (split_into_sentences text) as [|u units] eqn:Hunits; [done|].
  assert (tidy (join (String NL "") (u :: units))) as [Hne Hst].
  { apply join_tidy; [done|]. eapply Forall_impl; [exact Hclean|]. by intros ? [? _]. }
  unfold split_into_sentences.
  replace (negb (nonempty (join (String NL "") (u :: units)))) with false
    by by destruct (join _ _).
  rewrite Hst, ResplitFacts.splitlines_join.
  - rewrite ResplitFacts.sentence_fold_fixed; [done|].
    rewrite Forall_forall in *. intros v Hv. split; [by apply Hclean|by apply Hsettled].
  - eapply Forall_impl; [exact Hclean|]. by intros v [[? _] ?].
Qed.

(** X30.  In a document whose tags are distinct objects and whose tables
    all have [th] cells, [_map_tables_to_sections] files each table under
    its section: the mapping has under a key, extracted by [_extract_table]
    and in document order, exactly the tables of the document whose last
    preceding heading has that key as the slug of its text ([overview] for
    a table with no heading before it, or with one without text), and it
    has no key without such a table. *)
Theorem map_tables_entries `{Slugify} (soup : node) (key : string) :
  NoDup (MappingInv.tag_ids soup) →
  Forall (λ t, find_all ["th"] t ≠ []) (find_all ["table"] soup) →
  match _map_tables_to_sections soup !! key with
  | Some tables =>
      ∃ ts, ts ≠ []
        ∧ tables = (λ t, table_data (_extract_table t)) <$> ts
        ∧ ts `sublist_of` find_all ["table"] soup
        ∧ Forall (λ t, MappingInv.section_of soup t key) ts
        ∧ ∀ t, t ∈ find_all ["table"] soup → MappingInv.section_of soup t key → t ∈ ts
  | None =>
      ∀ t, t ∈ find_all ["table"] soup → ¬ MappingInv.section_of soup t key
  end.
Proof.
  intros Hids Hth. rewrite Forall_forall in Hth.
  destruct (MappingFacts.table_fold_filed soup Hids (find_all ["table"] soup))
    as (m & Hfold & Hm); [by intros t Ht; split; [|apply Hth]|].
  unfold _map_tables_to_sections. rewrite Hfold. cbn [snd]. rewrite Hm.
  unfold MappingInv.filed.
  assert (∀ t, t ∈ find_all ["table"] soup →
            MappingInv.section_of soup t key
            ↔ (MappingInv.key_of soup <$> MappingInv.id_of t) = Some key) as Hsec.
  { intros t [Hin (i & nm & cs & ->)]%MappingFacts.table_in_document.
    rewrite (MappingFacts.section_of_key soup Hids _ i) by done.
    cbn. split; congruence. }
  destruct (filter _ _) as [|t ts] eqn:Hf.
  - intros t Ht Hs. apply Hsec in Hs; [|done].
    assert (t ∈ filter (λ t, (MappingInv.key_of soup <$> MappingInv.id_of t) = Some key)
                       (find_all ["table"] soup)) as Hin by by apply list_elem_of_filter.
    rewrite Hf in Hin. by apply elem_of_nil in Hin.
  - exists (t :: ts). rewrite <- Hf. split_and!.
    + by rewrite Hf.
    + done.
    + apply sublist_filter.
    + apply Forall_forall. intros x [Hx Hin]%list_elem_of_filter. by apply Hsec.
    + intros x Hx Hs. apply list_elem_of_filter. split; [by apply Hsec|done].
Qed.

Lemma map_tables_entries_witness :
  match @_map_tables_to_sections AsciiSlug.slug three_tables !! "widgets" with
  | Some tables =>
      ∃ ts, ts ≠ []
        ∧ tables = (λ t, table_data (@_extract_table AsciiSlug.slug t)) <$> ts
        ∧ ts `sublist_of` find_all ["table"] three_tables
        ∧ Forall (λ t, @MappingInv.section_of AsciiSlug.slug three_tables t "widgets") ts
        ∧ ∀ t, t ∈ find_all ["table"] three_tables →
               @MappingInv.section_of AsciiSlug.slug three_tables t "widgets" → t ∈ ts
  | None =>
      ∀ t, t ∈ find_all ["table"] three_tables →
           ¬ @MappingInv.section_of AsciiSlug.slug three_tables t "widgets"
  end.
Proof.
  apply (@map_tables_entries AsciiSlug.slug three_tables "widgets").
  - apply (bool_decide_unpack _). by vm_compute.
  - repeat constructor; by vm_compute.
Defined.
